(** * Lock-free primitives of cpp-atomic-mutex-lock-free: an interleaving model

    Every [std::atomic] operation of the sources is one indivisible step of
    the thread that performs it; a schedule is the list of the steps taken,
    each naming its thread and carrying what the environment decides for
    that step (a spurious failure of [compare_exchange_weak], the address
    returned by [new]).  Thread-local computation between two shared
    accesses is folded into the shared access that follows it; plain
    accesses to the nodes of the stack are steps of their own.

    A memory order makes no difference in such a model.  Its runs are all
    the executions of threads that share a single atomic object, as the
    counters do: the operations on one atomic object are totally ordered,
    consistently with the order of each thread.  They are not all the
    executions of threads that also share plain memory: the handshake of
    src/07_producer_consumer.cpp, whose point is the memory order, has a
    model of its own (module [Handshake]), and the theorems about every run
    of the stack of src/06_lockfree_stack.cpp are stated for the workers
    whose executions the interleavings cover (see module [Stack]). *)

From Stdlib Require Import ZArith Lia.
From stdpp Require Import base numbers option list gmap gmultiset.

Local Open Scope Z_scope.

(** ** The C++ [int]: 32 bits, two's complement *)

Module Int32.

Definition INT_MIN : Z := - 2 ^ 31.
Definition INT_MAX : Z := 2 ^ 31 - 1.

(** Reduction of a mathematical integer to the range of [int]; this is
    what [std::atomic<int>::fetch_add] computes ([atomics.types.int]:
    the result is as if computed on the unsigned type and converted
    back, there are no undefined results). *)
Definition wrap (z : Z) : Z := (z + 2 ^ 31) mod 2 ^ 32 - 2 ^ 31.

Definition in_range (z : Z) : Prop := INT_MIN <= z <= INT_MAX.

Lemma wrap_in_range z : in_range (wrap z).
Proof.
  unfold in_range, wrap, INT_MIN, INT_MAX.
  pose proof (Z.mod_pos_bound (z + 2 ^ 31) (2 ^ 32)). lia.
Qed.

Lemma wrap_id z : in_range z → wrap z = z.
Proof.
  unfold in_range, wrap, INT_MIN, INT_MAX. intros Hz.
  rewrite Z.mod_small; lia.
Qed.

Lemma wrap_add_l a b : wrap (wrap a + b) = wrap (a + b).
Proof.
  unfold wrap.
  replace ((a + 2 ^ 31) mod 2 ^ 32 - 2 ^ 31 + b + 2 ^ 31)
    with ((a + 2 ^ 31) mod 2 ^ 32 + b) by lia.
  replace (a + b + 2 ^ 31) with ((a + 2 ^ 31) + b) by lia.
  by rewrite Zplus_mod_idemp_l.
Qed.

Example wrap_int_max : wrap (INT_MAX + 1) = INT_MIN.
Proof. reflexivity. Qed.

Example wrap_small : wrap 4000000 = 4000000.
Proof. reflexivity. Qed.

End Int32.

(** ** Threads over a shared state

    [tstep e s l] is one atomic step of a thread whose local state is [l]
    when the shared state is [s] and the environment decides [e]; [None]
    when the thread cannot take that step (it has returned, or [e] is not
    a possible decision). *)

Section Pool.
Context {Sh Lo Ev : Type}.
Variable tstep : Ev → Sh → Lo → option (Sh * Lo).

Record config := Config { shared : Sh; pool : list Lo }.

Definition step (c : config) (e : nat * Ev) : option config :=
  l ← pool c !! e.1;
  r ← tstep e.2 (shared c) l;
  Some (Config r.1 (<[e.1 := r.2]> (pool c))).

Fixpoint run (c : config) (tr : list (nat * Ev)) : option config :=
  match tr with
  | [] => Some c
  | e :: tr' => c' ← step c e; run c' tr'
  end.

Lemma step_Some c e c' :
  step c e = Some c' ↔
  ∃ l s' l', pool c !! e.1 = Some l ∧ tstep e.2 (shared c) l = Some (s', l') ∧
             c' = Config s' (<[e.1 := l']> (pool c)).
Proof.
  unfold step. split.
  - intros H. destruct (pool c !! e.1) as [l|] eqn:Hl; [|done]. simpl in H.
    destruct (tstep e.2 (shared c) l) as [[s' l']|] eqn:Ht; [|done].
    simpl in H. inversion H. eauto 7.
  - intros (l & s' & l' & -> & Ht & ->). simpl. by rewrite Ht.
Qed.

Lemma run_app c tr1 tr2 :
  run c (tr1 ++ tr2) = c' ← run c tr1; run c' tr2.
Proof.
  revert c. induction tr1 as [|e tr1 IH]; intros c; [done|].
  simpl. destruct (step c e) as [c1|]; [|done]. simpl. apply IH.
Qed.

Lemma step_length c e c' : step c e = Some c' → length (pool c') = length (pool c).
Proof.
  intros (l & s' & l' & _ & _ & ->)%step_Some. simpl. by rewrite length_insert.
Qed.

Lemma run_length c tr c' : run c tr = Some c' → length (pool c') = length (pool c).
Proof.
  revert c. induction tr as [|e tr IH]; intros c; simpl.
  - by intros [= ->].
  - destruct (step c e) as [c1|] eqn:He; [|done]. simpl. intros H.
    rewrite (IH _ H). by eapply step_length.
Qed.

(** Whatever a step of the machine preserves holds along every run. *)
Lemma run_invariant (I : config → Prop) :
  (∀ c e c', I c → step c e = Some c' → I c') →
  ∀ tr c c', I c → run c tr = Some c' → I c'.
Proof.
  intros Hstep. induction tr as [|e tr IH]; intros c c' Hc; simpl.
  - by intros [= <-].
  - destruct (step c e) as [c1|] eqn:He; [|done]. simpl. eauto.
Qed.

(** The steps of one thread, the shared state being changed arbitrarily
    by the other threads between two of them. *)
Inductive tpath : Lo → Lo → Prop :=
| tpath_refl l : tpath l l
| tpath_step l e s s' l' l'' :
    tstep e s l = Some (s', l') → tpath l' l'' → tpath l l''.

(** The state of thread [t] evolves along a [tpath] in every run. *)
Lemma run_tpath tr c c' t l l' :
  run c tr = Some c' → pool c !! t = Some l → pool c' !! t = Some l' → tpath l l'.
Proof.
  revert c l. induction tr as [|e tr IH]; intros c l; simpl.
  - intros [= <-] H1 H2. rewrite H1 in H2. injection H2 as ->. constructor.
  - destruct (step c e) as [c1|] eqn:He; [|done]. simpl. intros Hrun Hl Hl'.
    apply step_Some in He as (l0 & s1 & l1 & Hl0 & Ht & ->).
    destruct (decide (e.1 = t)) as [<-|Hne].
    + rewrite Hl in Hl0. injection Hl0 as <-.
      eapply tpath_step; [exact Ht|]. eapply IH; [exact Hrun| |exact Hl'].
      simpl. apply list_lookup_insert_eq. by eapply lookup_lt_Some.
    + eapply IH; [exact Hrun| |exact Hl']. simpl.
      by rewrite list_lookup_insert_ne.
Qed.

(** Threads that can each run to the end when left alone can be run to
    the end one after the other: [Q] holds of a thread that has not started,
    [D] of a thread that has finished, and [J s k] says that the shared state
    [s] lets [k] more threads run. *)
Lemma run_one_by_one (Q D : Lo → Prop) (J : Sh → nat → Prop) :
  (∀ (c : config) t l k, pool c !! t = Some l → Q l → J (shared c) (S k) →
     ∃ tr s' l', run c tr = Some (Config s' (<[t := l']> (pool c))) ∧ D l' ∧ J s' k) →
  ∀ todo done_ s, Forall D done_ → Forall Q todo → J s (length todo) →
    ∃ tr c', run (Config s (done_ ++ todo)) tr = Some c' ∧ Forall D (pool c').
Proof.
  intros Hsolo. induction todo as [|l todo IH]; intros done_ s Hd Hq HJ.
  - exists [], (Config s (done_ ++ [])). split; [done|]. simpl. by rewrite app_nil_r.
  - apply list.Forall_cons in Hq as [Hl Hq]. simpl in HJ.
    destruct (Hsolo (Config s (done_ ++ l :: todo)) (length done_) l (length todo))
      as (tr1 & s' & l' & Hrun1 & Hl' & HJ'); [|done..|].
    { simpl. by apply list_lookup_middle. }
    simpl in Hrun1.
    replace (<[length done_ := l']> (done_ ++ l :: todo)) with ((done_ ++ [l']) ++ todo)
      in Hrun1.
    2:{ rewrite insert_app_r_alt by lia. rewrite Nat.sub_diag. simpl.
        by rewrite <- app_assoc. }
    destruct (IH (done_ ++ [l']) s') as (tr2 & c' & Hrun2 & Hall); [|done..|].
    { apply list.Forall_app. split; [done|]. by constructor. }
    exists (tr1 ++ tr2), c'. split; [|done]. by rewrite run_app, Hrun1.
Qed.

End Pool.

Arguments Config {Sh Lo} _ _.
Arguments shared {Sh Lo} _.
Arguments pool {Sh Lo} _.


(** Sum of the integers of a list. *)
Definition sumZ (l : list Z) : Z := foldr Z.add 0 l.

Lemma sumZ_insert (l : list Z) t x y :
  l !! t = Some x → sumZ (<[t := y]> l) = sumZ l - x + y.
Proof.
  revert t. induction l as [|a l IH]; intros [|t]; simpl; try done.
  - intros [= ->]. lia.
  - intros H. rewrite (IH _ H). lia.
Qed.

Lemma sumZ_replicate n x : sumZ (replicate n x) = Z.of_nat n * x.
Proof. induction n as [|n IH]; [done|]. simpl replicate. simpl sumZ. rewrite IH. lia. Qed.

Lemma sumZ_const (l : list Z) x : Forall (λ y, y = x) l → sumZ l = Z.of_nat (length l) * x.
Proof.
  induction 1 as [|y l -> _ IH]; [done|]. simpl sumZ. simpl length. rewrite IH. lia.
Qed.

(** ** src/02_atomic.cpp: the counter incremented with [fetch_add] *)

Module AtomicCounter.

(** [counter.fetch_add(d, std::memory_order_relaxed)]: the new value of the
    counter and the value returned. *)
Definition fetch_add (counter d : Z) : Z * Z := (Int32.wrap (counter + d), counter).

(** [worker_atomic]: the local state is the loop index [i]; one step is
    the loop test, the [fetch_add] and [++i].  [M] is the bound
    [1'000'000] of the source. *)
Definition worker_atomic (M : Z) (_ : unit) (counter i : Z) : option (Z * Z) :=
  if decide (i < M) then Some ((fetch_add counter 1).1, i + 1) else None.

(** [main]: the counter starts at 0 and [N] workers are started (4 in the
    source). *)
Definition init (N : nat) : config := Config 0 (replicate N 0).

(** All workers have left their loop. *)
Definition finished (M : Z) (c : @config Z Z) : Prop := Forall (λ i, ¬ i < M) (pool c).

Definition counter_inv (M : Z) (c : @config Z Z) : Prop :=
  shared c = Int32.wrap (sumZ (pool c)) ∧ Forall (λ i, 0 ≤ i ≤ M) (pool c).

Lemma counter_inv_init M N : 0 ≤ M → counter_inv M (init N).
Proof.
  intros HM. split; simpl.
  - rewrite sumZ_replicate. by replace (Z.of_nat N * 0) with 0 by lia.
  - apply Forall_replicate. lia.
Qed.

Lemma counter_inv_step M c e c' :
  counter_inv M c → step (worker_atomic M) c e = Some c' → counter_inv M c'.
Proof.
  intros [Hs Hb] (i & s' & i' & Hi & Ht & ->)%step_Some.
  unfold worker_atomic in Ht. case_decide as Hlt; [|done].
  injection Ht as <- <-. split; simpl.
  - rewrite (sumZ_insert _ _ i) by done. rewrite Hs, Int32.wrap_add_l.
    f_equal. lia.
  - apply Forall_insert; [done|]. rewrite Forall_lookup in Hb.
    specialize (Hb _ _ Hi). simpl in Hb. lia.
Qed.

Lemma counter_final M N tr c :
  0 ≤ M → run (worker_atomic M) (init N) tr = Some c → finished M c →
  shared c = Int32.wrap (Z.of_nat N * M).
Proof.
  intros HM Hrun Hfin.
  assert (counter_inv M c) as [Hs Hb].
  { eapply run_invariant; [apply counter_inv_step|by apply counter_inv_init|done]. }
  rewrite Hs. f_equal.
  rewrite <- (length_replicate N 0).
  change (replicate N 0) with (pool (init N)).
  rewrite <- (run_length _ _ _ _ Hrun).
  apply sumZ_const. unfold finished in Hfin.
  rewrite Forall_lookup in Hb, Hfin |- *. intros t i Hi.
  specialize (Hb _ _ Hi). specialize (Hfin _ _ Hi). simpl in *. lia.
Qed.

(** Thread [t] running alone for [k] more iterations. *)
Lemma counter_solo M t (k : nat) c i :
  pool c !! t = Some i → i + Z.of_nat k ≤ M →
  ∃ c', run (worker_atomic M) c (replicate k (t, ())) = Some c' ∧
        pool c' = <[t := i + Z.of_nat k]> (pool c).
Proof.
  revert c i. induction k as [|k IH]; intros c i Hi Hk.
  - exists c. split; [done|]. replace (i + Z.of_nat 0) with i by lia.
    by rewrite list_insert_id.
  - simpl replicate. simpl run.
    assert (step (worker_atomic M) c (t, ()) =
            Some (Config (Int32.wrap (shared c + 1)) (<[t := i + 1]> (pool c)))) as ->.
    { apply step_Some. exists i, (Int32.wrap (shared c + 1)), (i + 1).
      split; [done|]. split; [|done]. unfold worker_atomic.
      rewrite decide_True by lia. done. }
    simpl.
    edestruct (IH (Config (Int32.wrap (shared c + 1)) (<[t := i + 1]> (pool c))) (i + 1))
      as (c' & Hrun & Hp).
    + simpl. apply list_lookup_insert_eq. by eapply lookup_lt_Some.
    + lia.
    + exists c'. split; [exact Hrun|]. rewrite Hp. simpl.
      rewrite list_insert_insert_eq. f_equal. lia.
Qed.

(** Some schedule lets all the workers finish. *)
Lemma counter_finish M N :
  0 ≤ M → ∃ tr c, run (worker_atomic M) (init N) tr = Some c ∧ finished M c.
Proof.
  intros HM.
  apply (run_one_by_one (worker_atomic M) (λ i, i = 0) (λ i, ¬ i < M) (λ _ _, True))
    with (done_ := []) (todo := replicate N 0) (s := 0); [|done| |done].
  - intros c t i k Hi -> _.
    destruct (counter_solo M t (Z.to_nat M) c 0 Hi ltac:(lia)) as ([s' ths'] & Hrun & Hp).
    simpl in Hp. subst ths'.
    exists (replicate (Z.to_nat M) (t, ())), s', (0 + Z.of_nat (Z.to_nat M)).
    split; [done|]. split; [lia|done].
  - by apply Forall_replicate.
Qed.

(** C9, the claim as stated fails: two workers of 2^30 increments each
    leave the counter at [INT_MIN], not at 2 * 2^30, which no [int] holds. *)
Lemma worker_atomic_total_overflow :
  ∃ tr c, run (worker_atomic (2 ^ 30)) (init 2) tr = Some c ∧
          finished (2 ^ 30) c ∧ shared c ≠ 2 * 2 ^ 30.
Proof.
  destruct (counter_finish (2 ^ 30) 2) as (tr & c & Hrun & Hfin); [lia|].
  exists tr, c. split; [done|]. split; [done|].
  rewrite (counter_final (2 ^ 30) 2 tr c ltac:(lia) Hrun Hfin).
  pose proof (Int32.wrap_in_range (Z.of_nat 2 * 2 ^ 30)) as Hr.
  unfold Int32.in_range, Int32.INT_MAX in Hr. lia.
Qed.

(** C9 (amended): an increment inside the loop is always enabled (it cannot
    fail), replaces the counter by its successor reduced to the range of
    [int] (its successor itself below [INT_MAX]) and changes no other
    thread; when all [N] workers of [M] increments have finished, the counter
    holds [N * M] reduced to the range of [int], which is [N * M] whenever
    [N * M <= INT_MAX], for every schedule; and some schedule lets them all
    finish. *)
Theorem worker_atomic_counts (M : Z) (N : nat) :
  0 ≤ M ≤ Int32.INT_MAX →
  (∀ c t i, pool c !! t = Some i → i < M →
     ∃ c', step (worker_atomic M) c (t, ()) = Some c' ∧
           shared c' = Int32.wrap (shared c + 1) ∧
           (Int32.INT_MIN ≤ shared c < Int32.INT_MAX → shared c' = shared c + 1) ∧
           pool c' !! t = Some (i + 1) ∧
           ∀ t', t' ≠ t → pool c' !! t' = pool c !! t') ∧
  (∀ tr c, run (worker_atomic M) (init N) tr = Some c → finished M c →
     shared c = Int32.wrap (Z.of_nat N * M) ∧
     (Z.of_nat N * M ≤ Int32.INT_MAX → shared c = Z.of_nat N * M)) ∧
  (∃ tr c, run (worker_atomic M) (init N) tr = Some c ∧ finished M c).
Proof.
  intros HM. split; [|split; [|apply counter_finish; lia]].
  - intros c t i Hi Hlt.
    exists (Config (Int32.wrap (shared c + 1)) (<[t := i + 1]> (pool c))).
    split; [|split; [done|split; [|split]]].
    + apply step_Some. exists i, (Int32.wrap (shared c + 1)), (i + 1).
      split; [done|]. split; [|done]. unfold worker_atomic.
      by rewrite decide_True by lia.
    + intros Hr. simpl. apply Int32.wrap_id.
      unfold Int32.in_range. lia.
    + simpl. apply list_lookup_insert_eq. by eapply lookup_lt_Some.
    + intros t' Hne. simpl. by rewrite list_lookup_insert_ne.
  - intros tr c Hrun Hfin.
    pose proof (counter_final M N tr c ltac:(lia) Hrun Hfin) as Hc.
    split; [done|]. intros Hle. rewrite Hc. apply Int32.wrap_id.
    unfold Int32.in_range, Int32.INT_MIN. lia.
Qed.

Lemma worker_atomic_counts_witness :
  0 ≤ 1000000 ≤ Int32.INT_MAX ∧
  ∀ tr c, run (worker_atomic 1000000) (init 4) tr = Some c → finished 1000000 c →
          shared c = 4000000.
Proof.
  assert (0 ≤ 1000000 ≤ Int32.INT_MAX) as HM by (unfold Int32.INT_MAX; lia).
  split; [exact HM|]. intros tr c Hrun Hfin.
  destruct (worker_atomic_counts 1000000 4 HM) as (_ & H & _).
  destruct (H tr c Hrun Hfin) as [_ H']. apply H'. unfold Int32.INT_MAX. lia.
Defined.

(** Every step of a run is one increment. *)
Lemma counter_steps M tr c c' :
  run (worker_atomic M) c tr = Some c' →
  sumZ (pool c') = sumZ (pool c) + Z.of_nat (length tr).
Proof.
  revert c. induction tr as [|e tr IH]; intros c Hrun; simpl in Hrun.
  - injection Hrun as <-. simpl. lia.
  - destruct (step (worker_atomic M) c e) as [c1|] eqn:He; [|done]. simpl in Hrun.
    rewrite (IH _ Hrun). apply step_Some in He as (i & s' & i' & Hi & Ht & ->).
    unfold worker_atomic in Ht. case_decide; [|done]. injection Ht as <- <-.
    simpl pool. rewrite (sumZ_insert _ _ i) by done. simpl length. lia.
Qed.

(** X18: [fetch_add] never retries.  Every step of every run of the
    workers is a completed increment: after a run of [n] steps the counter
    holds [n] (reduced to the range of [int]), and the runs that end with
    all [N] workers of [M] increments out of their loops are those of
    exactly [N * M] steps. *)
Theorem worker_atomic_wait_free (M : Z) (N : nat) tr c :
  0 ≤ M → run (worker_atomic M) (init N) tr = Some c →
  shared c = Int32.wrap (Z.of_nat (length tr)) ∧
  (Z.of_nat (length tr) ≤ Z.of_nat N * M) ∧
  (finished M c ↔ Z.of_nat (length tr) = Z.of_nat N * M).
Proof.
  intros HM Hrun.
  assert (counter_inv M c) as [Hs Hb].
  { eapply run_invariant; [apply counter_inv_step|by apply counter_inv_init|done]. }
  pose proof (counter_steps M tr _ _ Hrun) as Hsum. simpl in Hsum.
  rewrite sumZ_replicate in Hsum.
  pose proof (run_length _ _ _ _ Hrun) as Hlen. simpl in Hlen. rewrite length_replicate in Hlen.
  assert (Z.of_nat (length tr) = sumZ (pool c)) as -> by lia. clear Hsum Hrun.
  split; [done|]. unfold finished. rewrite <- Hlen. clear Hlen Hs.
  induction Hb as [|i l Hi Hb IH]; simpl.
  - split; [lia|]. split; [lia|constructor].
  - destruct IH as (Hle & Hiff). split; [lia|]. rewrite list.Forall_cons, Hiff. lia.
Qed.

Lemma worker_atomic_wait_free_witness :
  0 ≤ 2 ∧
  run (worker_atomic 2) (init 2) [(0, ()); (1, ()); (1, ()); (0, ())]%nat =
    Some (Config 4 [2; 2]) ∧
  finished 2 (Config 4 [2; 2]).
Proof.
  assert (0 ≤ 2) as HM by lia. split; [exact HM|]. split; [reflexivity|].
  apply (proj2 (proj2 (worker_atomic_wait_free 2 2 [(0, ()); (1, ()); (1, ()); (0, ())]%nat
                         (Config 4 [2; 2]) HM eq_refl))).
  reflexivity.
Defined.

End AtomicCounter.

(** ** [compare_exchange_weak]

    [compare_exchange_weak spurious cur expected desired] is the effect of
    [a.compare_exchange_weak(expected, desired)] when [a] holds [cur]: the
    new content of [a], the new content of [expected] and the result.  The
    exchange takes place when [cur = expected], unless it fails spuriously
    ([spurious], decided by the environment); on failure [expected] receives
    the content of [a]. *)
Definition compare_exchange_weak {A : Type} `{EqDecision A}
    (spurious : bool) (cur expected desired : A) : A * A * bool :=
  if decide (cur = expected)
  then (if spurious then (cur, cur, false) else (desired, expected, true))
  else (cur, cur, false).

Example cas_exchanges : compare_exchange_weak false 5 5 6 = (6, 5, true).
Proof. reflexivity. Qed.

Example cas_fails_spuriously : compare_exchange_weak true 5 5 6 = (5, 5, false).
Proof. reflexivity. Qed.

Example cas_fails_reloads : compare_exchange_weak false 7 5 6 = (7, 7, false).
Proof. reflexivity. Qed.

Lemma cas_success {A : Type} `{EqDecision A} b (cur expected desired a e : A) :
  compare_exchange_weak b cur expected desired = (a, e, true) →
  b = false ∧ cur = expected ∧ a = desired ∧ e = expected.
Proof.
  unfold compare_exchange_weak. case_decide; [destruct b|]; intros [=]; by subst.
Qed.

Lemma cas_failure {A : Type} `{EqDecision A} b (cur expected desired a e : A) :
  compare_exchange_weak b cur expected desired = (a, e, false) →
  a = cur ∧ e = cur ∧ (b = true ∨ cur ≠ expected).
Proof.
  unfold compare_exchange_weak. case_decide; [destruct b|]; intros [=]; subst; auto.
Qed.

(** ** src/04_cas_bounded.cpp: increment while below 100 *)

Module BoundedCas.

(** Where a worker stands: at the head of the [for] loop of [worker_cas],
    about to call [bounded_increment] (whose first action is the load), or
    inside [bounded_increment] at the test of its [while] loop with [old]
    as last observed. *)
Inductive pc := Call | Loop (old : Z).

Record local := Local { iter : Z; at_pc : pc }.

(** [bounded_increment(v)]: one step of a call that stands at [p], when
    the counter holds [v].  The result is the new content of the counter
    and, while the call goes on, the new content of [old]; [None] once the
    call has returned.  At [Loop old] the test [old < 100] is local; only
    when it holds is the exchange attempted, with [old + 1] (at most 100) as
    proposal. *)
Definition bounded_increment (spurious : bool) (v : Z) (p : pc) : Z * option Z :=
  match p with
  | Call => (v, Some v)
  | Loop old =>
      if decide (old < 100) then
        match compare_exchange_weak spurious v old (old + 1) with
        | (v', _, true) => (v', None)
        | (v', old', false) => (v', Some old')
        end
      else (v, None)
  end.

(** The worker after a step of its call: still in the call, or back at the
    head of the [for] loop after [++i]. *)
Definition resume (l : local) (r : Z * option Z) : Z * local :=
  (r.1, match r.2 with
        | Some old => Local (iter l) (Loop old)
        | None => Local (iter l + 1) Call
        end).

(** One step of [worker_cas], [M] being the bound [1'000'000] of its [for]
    loop: a call is made while [i < M]. *)
Definition worker_cas (M : Z) (spurious : bool) (counter : Z) (l : local)
    : option (Z * local) :=
  match at_pc l with
  | Call =>
      if decide (iter l < M)
      then Some (resume l (bounded_increment spurious counter Call))
      else None
  | Loop old => Some (resume l (bounded_increment spurious counter (Loop old)))
  end.

Definition init (v0 : Z) (N : nat) : config := Config v0 (replicate N (Local 0 Call)).

Lemma bounded_step_le M b v l v' l' :
  worker_cas M b v l = Some (v', l') → v ≤ 100 → v' ≤ 100.
Proof.
  unfold worker_cas, resume, bounded_increment. destruct (at_pc l) as [|old].
  - case_decide; [|done]. by intros [= <- <-].
  - case_decide as Hlt; [|by intros [= <- <-]].
    destruct (compare_exchange_weak b v old (old + 1)) as [[a e] [|]] eqn:Hcas.
    + apply cas_success in Hcas as (_ & _ & -> & _). intros [= <- <-]. lia.
    + apply cas_failure in Hcas as (-> & _ & _). by intros [= <- <-].
Qed.

Lemma bounded_step_at_ceiling M b v l v' l' :
  worker_cas M b v l = Some (v', l') → 100 ≤ v → v' = v.
Proof.
  unfold worker_cas, resume, bounded_increment. destruct (at_pc l) as [|old].
  - case_decide; [|done]. by intros [= <- <-].
  - case_decide as Hlt; [|by intros [= <- <-]].
    destruct (compare_exchange_weak b v old (old + 1)) as [[a e] [|]] eqn:Hcas.
    + apply cas_success in Hcas as (_ & -> & -> & _). lia.
    + apply cas_failure in Hcas as (-> & _ & _). by intros [= <- <-].
Qed.

(** C3: started at a value at most 100, the counter is at most 100 after
    every run of any number of workers; once the counter is at (or above) 100
    no step of any worker changes it; and a call that has observed a value at
    or above 100 returns at its next step, which is always possible and
    leaves the counter and the other threads as they are. *)
Theorem bounded_increment_ceiling (M v0 : Z) (N : nat) :
  v0 ≤ 100 →
  (∀ tr c, run (worker_cas M) (init v0 N) tr = Some c → shared c ≤ 100) ∧
  (∀ c e c', 100 ≤ shared c → step (worker_cas M) c e = Some c' → shared c' = shared c) ∧
  (∀ c t i old b, pool c !! t = Some (Local i (Loop old)) → 100 ≤ old →
     step (worker_cas M) c (t, b) =
       Some (Config (shared c) (<[t := Local (i + 1) Call]> (pool c)))).
Proof.
  intros Hv0. split; [|split].
  - intros tr c Hrun.
    apply (run_invariant (worker_cas M) (λ c, shared c ≤ 100)) with tr (init v0 N); [|done..].
    intros c0 e c1 Hle (l & s' & l' & _ & Ht & ->)%step_Some. simpl.
    by eapply bounded_step_le.
  - intros c e c' Hge (l & s' & l' & _ & Ht & ->)%step_Some. simpl.
    by eapply bounded_step_at_ceiling.
  - intros c t i old b Hl Hge. apply step_Some.
    exists (Local i (Loop old)), (shared c), (Local (i + 1) Call).
    split; [done|]. split; [|done]. unfold worker_cas, resume, bounded_increment. simpl.
    by rewrite decide_False by lia.
Qed.

Lemma bounded_increment_ceiling_witness :
  99 ≤ 100 ∧
  ∀ tr c, run (worker_cas 1000000) (init 99 4) tr = Some c → shared c ≤ 100.
Proof.
  assert (99 ≤ 100) as H by lia. split; [exact H|].
  exact (proj1 (bounded_increment_ceiling 1000000 99 4 H)).
Defined.

(** All workers have left their [for] loop. *)
Definition finished (M : Z) (c : @config Z local) : Prop :=
  Forall (λ l, at_pc l = Call ∧ ¬ iter l < M) (pool c).

(** The counter is the start value plus the number of calls that have
    returned, capped at 100; the value a call holds in [old] is not above
    the counter. *)
Definition bounded_inv (M v0 : Z) (c : @config Z local) : Prop :=
  shared c = Z.min 100 (v0 + sumZ (iter <$> pool c)) ∧
  Forall (λ l, 0 ≤ iter l ≤ M ∧
               match at_pc l with Call => True | Loop old => old ≤ shared c ∧ iter l < M end)
         (pool c).

Lemma bounded_step_mono M b v l v' l' :
  worker_cas M b v l = Some (v', l') → v ≤ v' ≤ v + 1.
Proof.
  unfold worker_cas, resume, bounded_increment. destruct (at_pc l) as [|old].
  - case_decide; [|done]. intros [= <- <-]. lia.
  - case_decide as Hlt; [|intros [= <- <-]; lia].
    destruct (compare_exchange_weak b v old (old + 1)) as [[a e] [|]] eqn:Hcas.
    + apply cas_success in Hcas as (_ & -> & -> & _). intros [= <- <-]. lia.
    + apply cas_failure in Hcas as (-> & _ & _). intros [= <- <-]. lia.
Qed.

Lemma bounded_inv_init M v0 N : 0 ≤ M → v0 ≤ 100 → bounded_inv M v0 (init v0 N).
Proof.
  intros HM Hv. split; simpl.
  - rewrite fmap_replicate, sumZ_replicate. simpl. lia.
  - apply Forall_replicate. simpl. lia.
Qed.

Lemma bounded_inv_step M v0 c e c' :
  bounded_inv M v0 c → step (worker_cas M) c e = Some c' → bounded_inv M v0 c'.
Proof.
  intros [Hs Hb] (l & s' & l' & Hl & Ht & ->)%step_Some.
  pose proof (bounded_step_mono _ _ _ _ _ _ Ht) as Hmono.
  pose proof Hb as Hb0. rewrite Forall_lookup in Hb0. specialize (Hb0 _ _ Hl).
  assert (Forall (λ l0, 0 ≤ iter l0 ≤ M ∧
            match at_pc l0 with Call => True | Loop old => old ≤ s' ∧ iter l0 < M end)
            (pool c)) as Hb'.
  { eapply list.Forall_impl; [exact Hb|]. intros l0 [? H0]. split; [done|].
    destruct (at_pc l0); [done|]. lia. }
  unfold bounded_inv. simpl.
  rewrite list_fmap_insert, (sumZ_insert _ _ (iter l)) by (by rewrite list_lookup_fmap, Hl).
  unfold worker_cas, resume, bounded_increment in Ht.
  destruct l as [i [|old]]; simpl in *.
  - case_decide; [|done]. injection Ht as <- <-. simpl. split; [rewrite Hs; f_equal; lia|].
    apply Forall_insert; [done|]. simpl. lia.
  - case_decide as Hlt.
    + destruct (compare_exchange_weak e.2 (shared c) old (old + 1)) as [[a x] [|]] eqn:Hcas.
      * apply cas_success in Hcas as (_ & Hc & -> & _). injection Ht as <- <-. simpl.
        split; [lia|]. apply Forall_insert; [done|]. simpl. lia.
      * apply cas_failure in Hcas as (-> & -> & _). injection Ht as <- <-. simpl.
        split; [rewrite Hs; f_equal; lia|]. apply Forall_insert; [done|]. simpl. lia.
    + injection Ht as <- <-. simpl. split; [lia|].
      apply Forall_insert; [done|]. simpl. lia.
Qed.

Lemma bounded_final M v0 N tr c :
  0 ≤ M → v0 ≤ 100 → run (worker_cas M) (init v0 N) tr = Some c → finished M c →
  shared c = Z.min 100 (v0 + Z.of_nat N * M).
Proof.
  intros HM Hv Hrun Hfin.
  assert (bounded_inv M v0 c) as [Hs Hb].
  { eapply run_invariant; [apply bounded_inv_step|by apply bounded_inv_init|done]. }
  rewrite Hs. do 2 f_equal.
  rewrite <- (length_replicate N (Local 0 Call)).
  change (replicate N (Local 0 Call)) with (pool (init v0 N)).
  rewrite <- (run_length _ _ _ _ Hrun), <- (length_fmap iter).
  apply sumZ_const. apply Forall_fmap. unfold finished in Hfin.
  rewrite Forall_lookup in Hb, Hfin |- *. intros t l Hl.
  specialize (Hb _ _ Hl). specialize (Hfin _ _ Hl). simpl in *. lia.
Qed.

(** Thread [t] making [k] more calls alone: each call is the load followed
    by the exchange, or by the return when the load gave 100 or more. *)
Fixpoint solo (t : nat) (k : nat) : list (nat * bool) :=
  match k with O => [] | S k => (t, false) :: (t, false) :: solo t k end.

Lemma bounded_solo M t (k : nat) c i :
  pool c !! t = Some (Local i Call) → i + Z.of_nat k ≤ M →
  ∃ s', run (worker_cas M) c (solo t k) =
          Some (Config s' (<[t := Local (i + Z.of_nat k) Call]> (pool c))).
Proof.
  revert c i. induction k as [|k IH]; intros c i Hi Hk.
  - exists (shared c). simpl. replace (i + Z.of_nat 0) with i by lia.
    rewrite list_insert_id by done. by destruct c.
  - simpl solo. simpl run.
    assert (step (worker_cas M) c (t, false) =
            Some (Config (shared c) (<[t := Local i (Loop (shared c))]> (pool c)))) as ->.
    { apply step_Some. exists (Local i Call), (shared c), (Local i (Loop (shared c))).
      split; [done|]. split; [|done]. unfold worker_cas. cbn [at_pc iter].
      rewrite decide_True by lia. done. }
    simpl.
    set (s1 := if decide (shared c < 100) then shared c + 1 else shared c).
    assert (step (worker_cas M)
              (Config (shared c) (<[t := Local i (Loop (shared c))]> (pool c))) (t, false) =
            Some (Config s1 (<[t := Local (i + 1) Call]> (pool c)))) as ->.
    { apply step_Some. exists (Local i (Loop (shared c))), s1, (Local (i + 1) Call).
      simpl. split; [apply list_lookup_insert_eq; by eapply lookup_lt_Some|].
      split; [|by rewrite list_insert_insert_eq].
      unfold worker_cas, resume, bounded_increment, compare_exchange_weak, s1. simpl.
      case_decide; [|done]. by rewrite decide_True by done. }
    simpl.
    edestruct (IH (Config s1 (<[t := Local (i + 1) Call]> (pool c))) (i + 1)) as (s' & Hrun).
    + simpl. apply list_lookup_insert_eq. by eapply lookup_lt_Some.
    + lia.
    + exists s'. rewrite Hrun. cbn [pool]. rewrite list_insert_insert_eq.
      by replace (i + 1 + Z.of_nat k) with (i + Z.of_nat (S k)) by lia.
Qed.

Lemma bounded_finish M v0 N :
  0 ≤ M → ∃ tr c, run (worker_cas M) (init v0 N) tr = Some c ∧ finished M c.
Proof.
  intros HM.
  apply (run_one_by_one (worker_cas M) (λ l, l = Local 0 Call)
           (λ l, at_pc l = Call ∧ ¬ iter l < M) (λ _ _, True))
    with (done_ := []) (todo := replicate N (Local 0 Call)) (s := v0); [|done| |done].
  - intros c t l k Hl -> _.
    destruct (bounded_solo M t (Z.to_nat M) c 0 Hl ltac:(lia)) as (s' & Hrun).
    exists (solo t (Z.to_nat M)), s', (Local (0 + Z.of_nat (Z.to_nat M)) Call).
    split; [done|]. split; [|done]. simpl. split; [done|lia].
  - by apply Forall_replicate.
Qed.

(** X2: along every run of the workers the counter never decreases, and it
    grows by at most one per step. *)
Theorem bounded_increment_monotone M tr c c' :
  run (worker_cas M) c tr = Some c' →
  shared c ≤ shared c' ≤ shared c + Z.of_nat (length tr).
Proof.
  revert c. induction tr as [|e tr IH]; intros c; simpl run.
  - intros [= <-]. simpl. lia.
  - destruct (step (worker_cas M) c e) as [c1|] eqn:He; [|done]. simpl. intros Hrun.
    apply IH in Hrun. apply step_Some in He as (l & s' & l' & _ & Ht & ->).
    apply bounded_step_mono in Ht. simpl in *. lia.
Qed.

(** X1: when every worker has left its loop, the counter holds the start
    value plus the number of calls made, capped at 100 (100 exactly for
    the four workers of a million calls of [main]); and some schedule lets
    them all leave it. *)
Theorem bounded_increment_final (M v0 : Z) (N : nat) :
  0 ≤ M → v0 ≤ 100 →
  (∀ tr c, run (worker_cas M) (init v0 N) tr = Some c → finished M c →
           shared c = Z.min 100 (v0 + Z.of_nat N * M)) ∧
  (∃ tr c, run (worker_cas M) (init v0 N) tr = Some c ∧ finished M c).
Proof.
  intros HM Hv. split.
  - intros tr c. by apply bounded_final.
  - by apply bounded_finish.
Qed.

Lemma bounded_increment_final_witness :
  0 ≤ 1000000 ∧ 0 ≤ 100 ∧
  ∀ tr c, run (worker_cas 1000000) (init 0 4) tr = Some c → finished 1000000 c →
          shared c = 100.
Proof.
  assert (0 ≤ 1000000) as HM by lia. assert (0 ≤ 100) as Hv by lia.
  split; [exact HM|]. split; [exact Hv|].
  exact (proj1 (bounded_increment_final 1000000 0 4 HM Hv)).
Defined.

Lemma bounded_increment_monotone_witness :
  run (worker_cas 1000000) (init 99 2) [(0%nat, false); (1%nat, false); (0%nat, false)] =
    Some (Config 100 [Local 1 Call; Local 0 (Loop 99)]) ∧
  99 ≤ 100 ≤ 99 + 3.
Proof.
  assert (run (worker_cas 1000000) (init 99 2) [(0%nat, false); (1%nat, false); (0%nat, false)] =
          Some (Config 100 [Local 1 Call; Local 0 (Loop 99)])) as Hrun by reflexivity.
  split; [exact Hrun|].
  exact (bounded_increment_monotone 1000000 _ _ _ Hrun).
Defined.

End BoundedCas.

(** [old + 1] on [int] as the retry loops without a ceiling compute it:
    signed overflow is undefined, so at [INT_MAX] the model has no step. *)
Definition int_succ (old : Z) : option Z :=
  if decide (old < Int32.INT_MAX) then Some (old + 1) else None.

(** ** src/05_lockfree_increment.cpp: [fetch_add] rebuilt from a CAS loop *)

Module LockFreeIncrement.

(** At the head of the [for] loop of [worker_lockfree] (the call of
    [lock_free_increment] starts with the load), or at the test of the
    [while] loop with [old] as last observed. *)
Inductive pc := Call | Loop (old : Z).

Record local := Local { iter : Z; at_pc : pc }.

(** [lock_free_increment()]: one step of a call, with the results of
    [BoundedCas.bounded_increment]; no step where [old + 1] is undefined. *)
Definition lock_free_increment (spurious : bool) (counter : Z) (p : pc)
    : option (Z * option Z) :=
  match p with
  | Call => Some (counter, Some counter)
  | Loop old =>
      desired ← int_succ old;
      match compare_exchange_weak spurious counter old desired with
      | (counter', _, true) => Some (counter', None)
      | (counter', old', false) => Some (counter', Some old')
      end
  end.

Definition resume (l : local) (r : Z * option Z) : Z * local :=
  (r.1, match r.2 with
        | Some old => Local (iter l) (Loop old)
        | None => Local (iter l + 1) Call
        end).

Definition worker_lockfree (M : Z) (spurious : bool) (counter : Z) (l : local)
    : option (Z * local) :=
  match at_pc l with
  | Call =>
      if decide (iter l < M)
      then resume l <$> lock_free_increment spurious counter Call
      else None
  | Loop old => resume l <$> lock_free_increment spurious counter (Loop old)
  end.

(** [main]: the counter starts at 0 and [N] workers are started. *)
Definition init (N : nat) : config := Config 0 (replicate N (Local 0 Call)).

Definition finished (M : Z) (c : @config Z local) : Prop :=
  Forall (λ l, at_pc l = Call ∧ ¬ iter l < M) (pool c).

(** The worker states of [AtomicCounter] that correspond: what is left of a
    worker when the position inside [lock_free_increment] is forgotten. *)
Definition erase (c : @config Z local) : @config Z Z := Config (shared c) (iter <$> pool c).

(** The counter is the number of calls that have returned. *)
Definition lockfree_inv (M : Z) (c : @config Z local) : Prop :=
  shared c = sumZ (iter <$> pool c) ∧
  Forall (λ l, 0 ≤ iter l ≤ M ∧
               match at_pc l with Call => True | Loop old => iter l < M end) (pool c).

Lemma lockfree_inv_init M N : 0 ≤ M → lockfree_inv M (init N).
Proof.
  intros HM. split; simpl.
  - rewrite fmap_replicate, sumZ_replicate. simpl. lia.
  - apply Forall_replicate. simpl. lia.
Qed.

(** A step of a worker either leaves the counter and the number of returned
    calls as they are, or it is a successful exchange: the counter, below
    [INT_MAX], gets its successor and the call returns. *)
Lemma lockfree_step_cases M b v l v' l' :
  worker_lockfree M b v l = Some (v', l') →
  (v' = v ∧ iter l' = iter l ∧ at_pc l' ≠ Call) ∨
  (v < Int32.INT_MAX ∧ v' = v + 1 ∧ l' = Local (iter l + 1) Call ∧ at_pc l = Loop v).
Proof.
  unfold worker_lockfree, resume, lock_free_increment, int_succ.
  destruct l as [i [|old]]; simpl.
  - case_decide; [|done]. intros [= <- <-]. left. done.
  - case_decide as Hlt; [|done]. simpl.
    destruct (compare_exchange_weak b v old (old + 1)) as [[a e] [|]] eqn:Hcas; simpl.
    + apply cas_success in Hcas as (_ & -> & -> & _). intros [= <- <-]. right. done.
    + apply cas_failure in Hcas as (-> & _ & _). intros [= <- <-]. left. done.
Qed.

Lemma lockfree_step_lt M b v l v' l' :
  worker_lockfree M b v l = Some (v', l') → at_pc l ≠ Call ∨ iter l < M.
Proof.
  unfold worker_lockfree. destruct (at_pc l); [|by left].
  case_decide; [by right|done].
Qed.

Lemma lockfree_inv_step M c e c' :
  lockfree_inv M c → step (worker_lockfree M) c e = Some c' → lockfree_inv M c'.
Proof.
  intros [Hs Hb] (l & s' & l' & Hl & Ht & ->)%step_Some.
  pose proof Hb as Hb0. rewrite Forall_lookup in Hb0. specialize (Hb0 _ _ Hl).
  pose proof (lockfree_step_lt _ _ _ _ _ _ Ht) as Hlt.
  unfold lockfree_inv. simpl.
  rewrite list_fmap_insert, (sumZ_insert _ _ (iter l)) by (by rewrite list_lookup_fmap, Hl).
  destruct (lockfree_step_cases _ _ _ _ _ _ Ht) as [(-> & Hi & Hpc)|(_ & -> & -> & Hpc)].
  - split; [lia|]. apply Forall_insert; [done|]. rewrite Hi.
    destruct (at_pc l'); [done|]. destruct (at_pc l); [|lia]. destruct Hlt; [done|lia].
  - simpl. split; [lia|]. apply Forall_insert; [done|]. simpl.
    rewrite Hpc in Hb0. lia.
Qed.

Lemma lockfree_final M N tr c :
  0 ≤ M → run (worker_lockfree M) (init N) tr = Some c → finished M c →
  shared c = Z.of_nat N * M.
Proof.
  intros HM Hrun Hfin.
  assert (lockfree_inv M c) as [Hs Hb].
  { eapply run_invariant; [apply lockfree_inv_step|by apply lockfree_inv_init|done]. }
  rewrite Hs.
  rewrite <- (length_replicate N (Local 0 Call)).
  change (replicate N (Local 0 Call)) with (pool (init N)).
  rewrite <- (run_length _ _ _ _ Hrun), <- (length_fmap iter).
  apply sumZ_const. apply Forall_fmap. unfold finished in Hfin.
  rewrite Forall_lookup in Hb, Hfin |- *. intros t l Hl.
  specialize (Hb _ _ Hl). specialize (Hfin _ _ Hl). simpl in *. lia.
Qed.

(** Thread [t] making [k] more calls alone: each is the load followed by a
    successful exchange. *)
Fixpoint solo (t : nat) (k : nat) : list (nat * bool) :=
  match k with O => [] | S k => (t, false) :: (t, false) :: solo t k end.

(** One call of [lock_free_increment] by thread [t], not interrupted. *)
Lemma lockfree_call M t c i :
  pool c !! t = Some (Local i Call) → i < M → shared c < Int32.INT_MAX →
  run (worker_lockfree M) c [(t, false); (t, false)] =
    Some (Config (shared c + 1) (<[t := Local (i + 1) Call]> (pool c))).
Proof.
  intros Hi Hlt Hmax. simpl run.
  assert (step (worker_lockfree M) c (t, false) =
          Some (Config (shared c) (<[t := Local i (Loop (shared c))]> (pool c)))) as ->.
  { apply step_Some. exists (Local i Call), (shared c), (Local i (Loop (shared c))).
    split; [done|]. split; [|done]. unfold worker_lockfree. cbn [at_pc iter].
    rewrite decide_True by lia. done. }
  simpl.
  assert (step (worker_lockfree M)
            (Config (shared c) (<[t := Local i (Loop (shared c))]> (pool c))) (t, false) =
          Some (Config (shared c + 1) (<[t := Local (i + 1) Call]> (pool c)))) as ->.
  { apply step_Some. exists (Local i (Loop (shared c))), (shared c + 1), (Local (i + 1) Call).
    simpl. split; [apply list_lookup_insert_eq; by eapply lookup_lt_Some|].
    split; [|by rewrite list_insert_insert_eq].
    unfold worker_lockfree, resume, lock_free_increment, int_succ, compare_exchange_weak.
    cbn [at_pc iter]. rewrite decide_True by done. simpl.
    by rewrite decide_True by done. }
  done.
Qed.

Lemma lockfree_solo M t (k : nat) c i :
  pool c !! t = Some (Local i Call) → i + Z.of_nat k ≤ M →
  shared c + Z.of_nat k ≤ Int32.INT_MAX →
  run (worker_lockfree M) c (solo t k) =
    Some (Config (shared c + Z.of_nat k) (<[t := Local (i + Z.of_nat k) Call]> (pool c))).
Proof.
  revert c i. induction k as [|k IH]; intros c i Hi Hk Hmax.
  - simpl. replace (i + Z.of_nat 0) with i by lia.
    replace (shared c + Z.of_nat 0) with (shared c) by lia.
    rewrite list_insert_id by done. by destruct c.
  - change (solo t (S k)) with ([(t, false); (t, false)] ++ solo t k).
    rewrite run_app, (lockfree_call M t c i) by (done || lia). cbn [mbind option_bind].
    rewrite (IH _ (i + 1)).
    + cbn [pool shared]. rewrite list_insert_insert_eq.
      replace (i + 1 + Z.of_nat k) with (i + Z.of_nat (S k)) by lia.
      by replace (shared c + 1 + Z.of_nat k) with (shared c + Z.of_nat (S k)) by lia.
    + simpl. apply list_lookup_insert_eq. by eapply lookup_lt_Some.
    + lia.
    + simpl. lia.
Qed.

Lemma lockfree_finish M N :
  0 ≤ M → Z.of_nat N * M ≤ Int32.INT_MAX →
  ∃ tr c, run (worker_lockfree M) (init N) tr = Some c ∧ finished M c.
Proof.
  intros HM Hmax.
  apply (run_one_by_one (worker_lockfree M) (λ l, l = Local 0 Call)
           (λ l, at_pc l = Call ∧ ¬ iter l < M)
           (λ s k, s + Z.of_nat k * M ≤ Int32.INT_MAX))
    with (done_ := []) (todo := replicate N (Local 0 Call)) (s := 0); [|done| |].
  - intros c t l k Hl -> HJ.
    exists (solo t (Z.to_nat M)), (shared c + Z.of_nat (Z.to_nat M)),
           (Local (0 + Z.of_nat (Z.to_nat M)) Call).
    assert (0 ≤ Z.of_nat k * M) by lia.
    split; [apply lockfree_solo; [done|lia..]|]. split; [split; [done|simpl; lia]|]. lia.
  - by apply Forall_replicate.
  - rewrite length_replicate. lia.
Qed.

(** X3: when every worker has left its loop the counter holds the number
    of calls made, [N * M], for every schedule; and some schedule lets them
    all leave it when [N * M] fits an [int]. *)
Theorem lock_free_increment_counts (M : Z) (N : nat) :
  0 ≤ M →
  (∀ tr c, run (worker_lockfree M) (init N) tr = Some c → finished M c →
           shared c = Z.of_nat N * M) ∧
  (Z.of_nat N * M ≤ Int32.INT_MAX →
   ∃ tr c, run (worker_lockfree M) (init N) tr = Some c ∧ finished M c).
Proof.
  intros HM. split.
  - intros tr c. by apply lockfree_final.
  - by apply lockfree_finish.
Qed.

(** Every run of the CAS-loop workers is a run of the [fetch_add] workers
    in which the loads and the failed exchanges are left out. *)
Lemma lockfree_refines_step M c e c' :
  lockfree_inv M c → Int32.in_range (shared c) →
  step (worker_lockfree M) c e = Some c' →
  Int32.in_range (shared c') ∧
  (erase c' = erase c ∨ step (AtomicCounter.worker_atomic M) (erase c) (e.1, ()) = Some (erase c')).
Proof.
  intros [Hs Hb] Hr (l & s' & l' & Hl & Ht & ->)%step_Some.
  rewrite Forall_lookup in Hb. specialize (Hb _ _ Hl).
  unfold erase. simpl. rewrite list_fmap_insert.
  destruct (lockfree_step_cases _ _ _ _ _ _ Ht) as [(-> & Hi & Hpc)|(Hlt & -> & -> & Hpc)].
  - split; [done|]. left. rewrite Hi, list_insert_id; [done|].
    by rewrite list_lookup_fmap, Hl.
  - rewrite Hpc in Hb. unfold Int32.in_range in *. split; [lia|]. right.
    apply step_Some. exists (iter l), (shared c + 1), (iter l + 1). simpl.
    split; [by rewrite list_lookup_fmap, Hl|]. split; [|done].
    unfold AtomicCounter.worker_atomic, AtomicCounter.fetch_add.
    rewrite decide_True by lia. simpl. rewrite Int32.wrap_id; [done|].
    unfold Int32.in_range. lia.
Qed.

Lemma lockfree_refines_run M tr c c' :
  lockfree_inv M c → Int32.in_range (shared c) →
  run (worker_lockfree M) c tr = Some c' →
  ∃ tr', run (AtomicCounter.worker_atomic M) (erase c) tr' = Some (erase c') ∧
         (length tr' ≤ length tr)%nat.
Proof.
  revert c. induction tr as [|e tr IH]; intros c Hinv Hr; simpl run.
  - intros [= <-]. exists []. done.
  - destruct (step (worker_lockfree M) c e) as [c1|] eqn:He; [|done]. simpl. intros Hrun.
    destruct (lockfree_refines_step _ _ _ _ Hinv Hr He) as [Hr1 Hc].
    destruct (IH c1) as (tr' & Hrun' & Hlen); [by eapply lockfree_inv_step|done..|].
    destruct Hc as [Heq|Hst].
    + exists tr'. rewrite <- Heq. split; [done|]. simpl. lia.
    + exists ((e.1, ()) :: tr'). simpl. rewrite Hst. split; [done|]. lia.
Qed.

(** Each [fetch_add] of a run that stays below [INT_MAX] is matched by an
    uninterrupted call of [lock_free_increment]. *)
Fixpoint calls (tr : list (nat * unit)) : list (nat * bool) :=
  match tr with [] => [] | e :: tr => (e.1, false) :: (e.1, false) :: calls tr end.

Definition at_call (c : @config Z Z) : @config Z local :=
  Config (shared c) ((λ i, Local i Call) <$> pool c).

Lemma sumZ_bounds (l : list Z) M :
  Forall (λ i, 0 ≤ i ≤ M) l → 0 ≤ sumZ l ≤ Z.of_nat (length l) * M.
Proof.
  induction 1 as [|x l Hx _ IH]; [simpl; lia|]. simpl sumZ. simpl length. lia.
Qed.

Lemma atomic_refines_run M tr (c c' : @config Z Z) :
  AtomicCounter.counter_inv M c →
  Z.of_nat (length (pool c)) * M ≤ Int32.INT_MAX →
  run (AtomicCounter.worker_atomic M) c tr = Some c' →
  run (worker_lockfree M) (at_call c) (calls tr) = Some (at_call c').
Proof.
  revert c. induction tr as [|e tr IH]; intros c Hinv Hmax Hrun; simpl in Hrun.
  - by injection Hrun as <-.
  - destruct (step (AtomicCounter.worker_atomic M) c e) as [c1|] eqn:He; [|done].
    simpl in Hrun.
    pose proof (AtomicCounter.counter_inv_step _ _ _ _ Hinv He) as Hinv1.
    pose proof (step_length _ _ _ _ He) as Hlen.
    apply step_Some in He as (i & s' & i' & Hi & Ht & ->).
    unfold AtomicCounter.worker_atomic, AtomicCounter.fetch_add in Ht.
    case_decide as Hlt; [|done]. injection Ht as <- <-.
    destruct Hinv as [Hs Hb]. destruct (Hinv1) as [Hs1 Hb1]. simpl in Hs1, Hb1, Hlen.
    pose proof (sumZ_bounds _ _ Hb) as Hsum. pose proof (sumZ_bounds _ _ Hb1) as Hsum1.
    rewrite (sumZ_insert _ _ i) in Hsum1 by done. rewrite length_insert in Hsum1.
    assert (shared c = sumZ (pool c)) as Hc.
    { rewrite Hs. apply Int32.wrap_id. unfold Int32.in_range, Int32.INT_MIN. lia. }
    change (calls (e :: tr)) with ([(e.1, false); (e.1, false)] ++ calls tr).
    rewrite run_app, (lockfree_call M e.1 (at_call c) i).
    + cbn [mbind option_bind]. rewrite <- (IH _ Hinv1 ltac:(simpl; lia) Hrun).
      unfold at_call. simpl. rewrite list_fmap_insert. do 2 f_equal.
      symmetry. apply Int32.wrap_id. unfold Int32.in_range, Int32.INT_MIN. lia.
    + simpl. by rewrite list_lookup_fmap, Hi.
    + done.
    + simpl. lia.
Qed.

(** X4: the CAS loop rebuilds [fetch_add].  Every run of the workers of
    src/05_lockfree_increment.cpp is, once the loads and the failed exchanges
    are left out, a run of the workers of src/02_atomic.cpp with the same
    counter and the same loop indices; and while [N * M] fits an [int],
    every run of the [fetch_add] workers is matched by the run of the
    CAS-loop workers that makes one uninterrupted call per [fetch_add]. *)
Theorem lock_free_increment_is_fetch_add (M : Z) (N : nat) :
  0 ≤ M →
  (∀ tr c, run (worker_lockfree M) (init N) tr = Some c →
     ∃ tr', run (AtomicCounter.worker_atomic M) (AtomicCounter.init N) tr' = Some (erase c) ∧
            (length tr' ≤ length tr)%nat) ∧
  (Z.of_nat N * M ≤ Int32.INT_MAX →
   ∀ tr c, run (AtomicCounter.worker_atomic M) (AtomicCounter.init N) tr = Some c →
     run (worker_lockfree M) (init N) (calls tr) = Some (at_call c)).
Proof.
  intros HM. split.
  - intros tr c Hrun.
    destruct (lockfree_refines_run M tr (init N) c) as (tr' & Hrun' & Hlen); [| |done|].
    + by apply lockfree_inv_init.
    + unfold Int32.in_range. simpl. done.
    + exists tr'. split; [|done]. rewrite <- Hrun'. f_equal.
      unfold erase, init, AtomicCounter.init. simpl. by rewrite fmap_replicate.
  - intros Hmax tr c Hrun.
    rewrite <- (atomic_refines_run M tr (AtomicCounter.init N) c); [| | |done].
    + f_equal. unfold at_call, init, AtomicCounter.init. simpl. by rewrite fmap_replicate.
    + by apply AtomicCounter.counter_inv_init.
    + simpl. by rewrite length_replicate.
Qed.

Lemma lock_free_increment_is_fetch_add_witness :
  0 ≤ 1000000 ∧ Z.of_nat 4 * 1000000 ≤ Int32.INT_MAX ∧
  ∀ tr c, run (AtomicCounter.worker_atomic 1000000) (AtomicCounter.init 4) tr = Some c →
          run (worker_lockfree 1000000) (init 4) (calls tr) = Some (at_call c).
Proof.
  assert (0 ≤ 1000000) as HM by lia.
  assert (Z.of_nat 4 * 1000000 ≤ Int32.INT_MAX) as Hmax by (unfold Int32.INT_MAX; lia).
  split; [exact HM|]. split; [exact Hmax|].
  exact (proj2 (lock_free_increment_is_fetch_add 1000000 4 HM) Hmax).
Defined.

Lemma lock_free_increment_counts_witness :
  0 ≤ 1000000 ∧
  ∀ tr c, run (worker_lockfree 1000000) (init 4) tr = Some c → finished 1000000 c →
          shared c = 4000000.
Proof.
  assert (0 ≤ 1000000) as HM by lia. split; [exact HM|].
  exact (proj1 (lock_free_increment_counts 1000000 4 HM)).
Defined.

(** The value a call holds in [old] is not above the counter. *)
Definition observed_below (c : @config Z local) : Prop :=
  Forall (λ l, match at_pc l with Call => True | Loop old => old ≤ shared c end) (pool c).

Lemma observed_below_step M c e c' :
  observed_below c → step (worker_lockfree M) c e = Some c' → observed_below c'.
Proof.
  intros Hb (l & s' & l' & Hl & Ht & ->)%step_Some. unfold observed_below in *. simpl.
  assert (shared c ≤ s' ∧ match at_pc l' with Call => True | Loop old => old ≤ s' end)
    as [Hle Hl'].
  { destruct (lockfree_step_cases _ _ _ _ _ _ Ht) as [(-> & _ & _)|(_ & -> & -> & _)].
    - split; [lia|]. unfold worker_lockfree, resume, lock_free_increment, int_succ in Ht.
      destruct l as [i [|old]]; simpl in Ht.
      + case_decide; [|done]. injection Ht as <-. simpl. lia.
      + case_decide; [|done]. simpl in Ht.
        destruct (compare_exchange_weak e.2 (shared c) old (old + 1)) as [[a x] [|]] eqn:Hcas;
          simpl in Ht; injection Ht as Ha <-; [done|].
        apply cas_failure in Hcas as (_ & -> & _). simpl. lia.
    - split; [lia|done]. }
  apply Forall_insert; [|done].
  eapply list.Forall_impl; [exact Hb|]. intros l0 H0. simpl in *.
  destruct (at_pc l0); [done|lia].
Qed.

Lemma observed_below_run M N tr c :
  run (worker_lockfree M) (init N) tr = Some c → observed_below c.
Proof.
  intros Hrun.
  eapply (run_invariant (worker_lockfree M) observed_below);
    [apply observed_below_step| |exact Hrun].
  by apply Forall_replicate.
Qed.

(** An exchange of thread [t] that can succeed, not interrupted. *)
Lemma lockfree_exchange M t c i :
  pool c !! t = Some (Local i (Loop (shared c))) → shared c < Int32.INT_MAX →
  step (worker_lockfree M) c (t, false) =
    Some (Config (shared c + 1) (<[t := Local (i + 1) Call]> (pool c))).
Proof.
  intros Hl Hmax. apply step_Some.
  exists (Local i (Loop (shared c))), (shared c + 1), (Local (i + 1) Call).
  split; [done|]. split; [|done].
  unfold worker_lockfree, resume, lock_free_increment, int_succ, compare_exchange_weak.
  cbn [at_pc iter]. rewrite decide_True by done. simpl. by rewrite decide_True by done.
Qed.

(** X5: the CAS loop does not block.  In every configuration that the
    workers reach, a worker that has a call to make or to complete does so
    in at most two steps of its own when the others are not scheduled,
    wherever they stand, provided the counter is below [INT_MAX]; and an
    exchange fails only spuriously or because the counter has grown since
    the worker observed it, that is, after another worker has completed an
    increment. *)
Theorem lock_free_increment_nonblocking (M : Z) (N : nat) tr c t i p :
  run (worker_lockfree M) (init N) tr = Some c →
  pool c !! t = Some (Local i p) → (p = Call → i < M) → shared c < Int32.INT_MAX →
  (∃ tr', (length tr' ≤ 2)%nat ∧ Forall (λ e, e.1 = t) tr' ∧
          run (worker_lockfree M) c tr' =
            Some (Config (shared c + 1) (<[t := Local (i + 1) Call]> (pool c)))) ∧
  (∀ b c' old old', p = Loop old → step (worker_lockfree M) c (t, b) = Some c' →
     pool c' !! t = Some (Local i (Loop old')) →
     old' = shared c ∧ shared c' = shared c ∧ (b = true ∨ old < shared c)).
Proof.
  intros Hrun Hl Hp Hmax.
  pose proof (observed_below_run M N tr c Hrun) as Hb.
  unfold observed_below in Hb. rewrite Forall_lookup in Hb. specialize (Hb _ _ Hl).
  assert (t < length (pool c))%nat as Hlt by by eapply lookup_lt_Some.
  simpl in Hb. split.
  - destruct p as [|old].
    + exists [(t, false); (t, false)]. split; [simpl; lia|]. split; [by repeat constructor|].
      apply lockfree_call; [done|by apply Hp|done].
    + destruct (decide (old = shared c)) as [->|Hne].
      * exists [(t, false)]. split; [simpl; lia|]. split; [by repeat constructor|].
        simpl run. by rewrite (lockfree_exchange M t c i).
      * exists [(t, false); (t, false)]. split; [simpl; lia|].
        split; [by repeat constructor|]. simpl run.
        assert (step (worker_lockfree M) c (t, false) =
                Some (Config (shared c) (<[t := Local i (Loop (shared c))]> (pool c)))) as ->.
        { apply step_Some. exists (Local i (Loop old)), (shared c), (Local i (Loop (shared c))).
          split; [done|]. split; [|done].
          unfold worker_lockfree, resume, lock_free_increment, int_succ, compare_exchange_weak.
          cbn [at_pc iter]. rewrite decide_True by lia. simpl.
          by rewrite decide_False by done. }
        simpl.
        rewrite (lockfree_exchange M t _ i); cbn [pool shared];
          [|by apply list_lookup_insert_eq|done].
        by rewrite list_insert_insert_eq.
  - intros b c' old old' -> (l & s' & l' & Hl' & Ht & ->)%step_Some Hl''.
    simpl in *. rewrite Hl in Hl'. injection Hl' as <-.
    rewrite list_lookup_insert_eq in Hl'' by done. injection Hl'' as ->.
    unfold worker_lockfree, resume, lock_free_increment, int_succ in Ht. simpl in Ht.
    case_decide; [|done]. simpl in Ht.
    destruct (compare_exchange_weak b (shared c) old (old + 1)) as [[a x] [|]] eqn:Hcas;
      simpl in Ht; [done|]. injection Ht as <- <-.
    apply cas_failure in Hcas as (-> & -> & Hwhy). split; [done|]. split; [done|].
    destruct Hwhy as [?|?]; [by left|right; lia].
Qed.

Lemma lock_free_increment_nonblocking_witness :
  ∃ tr', (length tr' ≤ 2)%nat ∧ Forall (λ e, e.1 = 1%nat) tr' ∧
         run (worker_lockfree 1000000)
             (Config 1 [Local 1 Call; Local 0 (Loop 0)]) tr' =
           Some (Config 2 [Local 1 Call; Local 1 Call]).
Proof.
  exact (proj1 (lock_free_increment_nonblocking 1000000 2
                  [(1%nat, false); (0%nat, false); (0%nat, false)]
                  (Config 1 [Local 1 Call; Local 0 (Loop 0)]) 1%nat 0 (Loop 0)
                  eq_refl eq_refl ltac:(done) ltac:(done))).
Defined.

End LockFreeIncrement.

(** ** src/09_cas_with_backoff.cpp: the CAS increment with and without backoff *)

Module Backoff.

(** The counter of a worker kind and its count of failed exchanges
    ([counter_no_backoff] and [failed_cas_count_no_backoff], or the pair of
    the backoff workers). *)
Record globals := Globals { counter : Z; failed_cas_count : Z }.

(** [worker_no_backoff]: at the head of the [for] loop (then the load), at
    the test of the [while] loop, or in its body before the [fetch_add] on
    the count of failures. *)
Inductive npc := NIter | NCas (old : Z) | NFail (old : Z).

Record nlocal := NLocal { niter : Z; n_pc : npc }.

Definition worker_no_backoff (M : Z) (spurious : bool) (g : globals) (l : nlocal)
    : option (globals * nlocal) :=
  match n_pc l with
  | NIter =>
      if decide (niter l < M) then Some (g, NLocal (niter l) (NCas (counter g))) else None
  | NCas old =>
      desired ← int_succ old;
      match compare_exchange_weak spurious (counter g) old desired with
      | (v, _, true) => Some (Globals v (failed_cas_count g), NLocal (niter l + 1) NIter)
      | (v, old', false) => Some (Globals v (failed_cas_count g), NLocal (niter l) (NFail old'))
      end
  | NFail old =>
      Some (Globals (counter g) (AtomicCounter.fetch_add (failed_cas_count g) 1).1,
            NLocal (niter l) (NCas old))
  end.

(** [worker_with_backoff]: as above, with the variable [backoff]; in the
    body of the [while] loop the worker is at the test [j < backoff] of the
    pause loop.  Each pause is a step; leaving the pause loop, updating
    [backoff] and the [fetch_add] on the count of failures are one step. *)
Inductive bpc := BIter | BCas (old backoff : Z) | BPause (old backoff j : Z).

Record blocal := BLocal { biter : Z; b_pc : bpc }.

Definition worker_with_backoff (M : Z) (spurious : bool) (g : globals) (l : blocal)
    : option (globals * blocal) :=
  match b_pc l with
  | BIter =>
      if decide (biter l < M) then Some (g, BLocal (biter l) (BCas (counter g) 1)) else None
  | BCas old backoff =>
      desired ← int_succ old;
      match compare_exchange_weak spurious (counter g) old desired with
      | (v, _, true) => Some (Globals v (failed_cas_count g), BLocal (biter l + 1) BIter)
      | (v, old', false) =>
          Some (Globals v (failed_cas_count g), BLocal (biter l) (BPause old' backoff 0))
      end
  | BPause old backoff j =>
      if decide (j < backoff)
      then Some (g, BLocal (biter l) (BPause old backoff (j + 1)))
      else Some (Globals (counter g) (AtomicCounter.fetch_add (failed_cas_count g) 1).1,
                 BLocal (biter l) (BCas old (Z.min (backoff * 2) 64)))
  end.

(** [main] stores 0 in both globals and starts [N] workers of one kind
    ([NUM_THREADS], 4 in the source). *)
Definition ninit (N : nat) : config := Config (Globals 0 0) (replicate N (NLocal 0 NIter)).
Definition binit (N : nat) : config := Config (Globals 0 0) (replicate N (BLocal 0 BIter)).

Definition nfinished (M : Z) (c : @config globals nlocal) : Prop :=
  Forall (λ l, n_pc l = NIter ∧ ¬ niter l < M) (pool c).
Definition bfinished (M : Z) (c : @config globals blocal) : Prop :=
  Forall (λ l, b_pc l = BIter ∧ ¬ biter l < M) (pool c).

(** *** The delay of the backoff worker *)

(** A step of a backoff worker is a failed exchange when it leads from the
    test of the [while] loop into its body. *)
Definition cas_failed (l l' : blocal) : bool :=
  match b_pc l, b_pc l' with
  | BCas _ _, BPause _ _ _ => true
  | _, _ => false
  end.

(** [retry_seq M k l l']: the worker goes from [l] to [l'] by steps that
    stay in one iteration of the [for] loop (one retry sequence), [k] of
    which are failed exchanges; the globals are arbitrary at each step. *)
Inductive retry_seq (M : Z) : nat → blocal → blocal → Prop :=
| retry_nil l : retry_seq M 0 l l
| retry_snoc k l l1 b g g' l2 :
    retry_seq M k l l1 →
    worker_with_backoff M b g l1 = Some (g', l2) →
    biter l2 = biter l1 →
    retry_seq M (if cas_failed l1 l2 then S k else k) l l2.

(** The delay state after [k] failures. *)
Definition delay_after (k : nat) : Z := Z.min (2 ^ Z.of_nat k) 64.

Example delay_after_values :
  delay_after <$> [0; 1; 2; 3; 4; 5; 6; 7; 8]%nat = [1; 2; 4; 8; 16; 32; 64; 64; 64].
Proof. reflexivity. Qed.

Lemma delay_after_S k : delay_after (S k) = Z.min (delay_after k * 2) 64.
Proof.
  unfold delay_after. rewrite Nat2Z.inj_succ, Z.pow_succ_r by lia.
  assert (0 < 2 ^ Z.of_nat k) by (apply Z.pow_pos_nonneg; lia). lia.
Qed.

(** Where a worker is in the retry sequence after [k] failures: at the
    exchange with delay [delay_after k], or pausing for the [k]-th failure
    with the preceding delay. *)
Definition delay_ok (k : nat) (l : blocal) : Prop :=
  match b_pc l with
  | BIter => False
  | BCas _ backoff => backoff = delay_after k
  | BPause _ backoff j =>
      ∃ k', k = S k' ∧ backoff = delay_after k' ∧ 0 ≤ j ≤ backoff
  end.

Lemma delay_after_pos k : 1 ≤ delay_after k ≤ 64.
Proof.
  unfold delay_after.
  assert (0 < 2 ^ Z.of_nat k) by (apply Z.pow_pos_nonneg; lia). lia.
Qed.

Lemma retry_seq_delay M k i old l :
  retry_seq M k (BLocal i (BCas old 1)) l → delay_ok k l.
Proof.
  remember (BLocal i (BCas old 1)) as l0 eqn:Hl0.
  induction 1 as [l|k l l1 b g g' l2 _ IH Hstep Hiter]; subst.
  - done.
  - specialize (IH eq_refl). unfold delay_ok in IH |- *.
    unfold worker_with_backoff in Hstep. unfold cas_failed.
    destruct (b_pc l1) as [|old1 bo|old1 bo j] eqn:Hpc; [done|..].
    + destruct (int_succ old1) as [d|]; [|done]. simpl in Hstep.
      destruct (compare_exchange_weak b (counter g) old1 d) as [[v e] [|]];
        injection Hstep as <- <-; simpl in *; [lia|].
      exists k. pose proof (delay_after_pos k). split; [done|]. split; [done|lia].
    + destruct IH as (k' & -> & -> & Hj). case_decide as Hlt;
        injection Hstep as <- <-; simpl.
      * exists k'. split; [done|]. split; [done|lia].
      * by rewrite delay_after_S.
Qed.

Definition delay_bounded (l : blocal) : Prop :=
  match b_pc l with
  | BIter => True
  | BCas _ backoff | BPause _ backoff _ => 1 ≤ backoff ≤ 64
  end.

Lemma delay_bounded_step M b g l g' l' :
  worker_with_backoff M b g l = Some (g', l') → delay_bounded l → delay_bounded l'.
Proof.
  unfold worker_with_backoff, delay_bounded.
  destruct (b_pc l) as [|old bo|old bo j].
  - case_decide; [|done]. intros [= <- <-]. simpl. lia.
  - destruct (int_succ old) as [d|]; [|done]. simpl.
    destruct (compare_exchange_weak b (counter g) old d) as [[v e] [|]];
      by intros [= <- <-].
  - case_decide; intros [= <- <-]; simpl; lia.
Qed.

(** *** The delay along the runs *)

(** A step of a backoff worker is a pause when it stays in the pause
    loop. *)
Definition paused (l l' : blocal) : bool :=
  match b_pc l, b_pc l' with
  | BPause _ _ _, BPause _ _ _ => true
  | _, _ => false
  end.

(** The number of steps of worker [t], in the run from [c] along [tr],
    that take it from [l] to [l'] with [mark l l']. *)
Fixpoint steps_of (M : Z) (mark : blocal → blocal → bool) (t : nat)
    (c : @config globals blocal) (tr : list (nat * bool)) : nat :=
  match tr with
  | [] => O
  | e :: tr' =>
      match step (worker_with_backoff M) c e with
      | Some c' =>
          ((if decide (e.1 = t) then
              match pool c !! t, pool c' !! t with
              | Some l, Some l' => if mark l l' then 1 else 0
              | _, _ => 0
              end
            else 0) + steps_of M mark t c' tr')%nat
      | None => O
      end
  end.

(** The pauses made for the first [k] failures of a retry sequence. *)
Fixpoint total_delay (k : nat) : Z :=
  match k with
  | O => 0
  | S k' => total_delay k' + delay_after k'
  end.

(** Where a worker stands in its retry sequence after [k] failed exchanges
    and [p] pauses: at the head of the loop with neither; at the exchange
    with the delay [delay_after k], all the pauses of the [k] failures made;
    in the pause loop of the [k]-th failure, with the delay of before and [j]
    of its pauses made. *)
Definition delay_exact (k : nat) (p : Z) (l : blocal) : Prop :=
  match b_pc l with
  | BIter => k = O ∧ p = 0
  | BCas _ backoff => backoff = delay_after k ∧ p = total_delay k
  | BPause _ backoff j =>
      ∃ k', k = S k' ∧ backoff = delay_after k' ∧ 0 ≤ j ≤ backoff ∧ p = total_delay k' + j
  end.

Lemma biter_step M b g l g' l' :
  worker_with_backoff M b g l = Some (g', l') →
  biter l ≤ biter l' ∧ (biter l' = biter l → b_pc l' ≠ BIter).
Proof.
  unfold worker_with_backoff. destruct l as [i [|old bo|old bo j]]; simpl.
  - case_decide; [|done]. intros [= <- <-]. simpl. split; [lia|done].
  - destruct (int_succ old) as [d|]; [|done]. simpl.
    destruct (compare_exchange_weak b (counter g) old d) as [[v e] [|]];
      intros [= <- <-]; simpl; (split; [lia|]); [lia|done].
  - case_decide; intros [= <- <-]; simpl; (split; [lia|done]).
Qed.

Lemma biter_run M t tr c c' l l' :
  run (worker_with_backoff M) c tr = Some c' →
  pool c !! t = Some l → pool c' !! t = Some l' → biter l ≤ biter l'.
Proof.
  revert c l. induction tr as [|e tr IH]; intros c l Hrun Hl Hl'; simpl in Hrun.
  - injection Hrun as <-. rewrite Hl in Hl'. injection Hl' as <-. lia.
  - destruct (step (worker_with_backoff M) c e) as [c1|] eqn:He; [|done]. simpl in Hrun.
    apply step_Some in He as (l0 & g' & l1 & Hl0 & Ht & ->).
    destruct (decide (e.1 = t)) as [Heq|Hne].
    + rewrite Heq in *. rewrite Hl in Hl0. injection Hl0 as <-.
      apply biter_step in Ht as [Hle _].
      etrans; [exact Hle|]. eapply (IH _ l1); [exact Hrun| |exact Hl']. simpl.
      apply list_lookup_insert_eq. by eapply lookup_lt_Some.
    + eapply (IH _ l); [exact Hrun| |exact Hl']. simpl. by rewrite list_lookup_insert_ne.
Qed.

(** One step of the worker inside its retry sequence. *)
Lemma delay_exact_step M b g l g' l' k p :
  worker_with_backoff M b g l = Some (g', l') → biter l' = biter l →
  delay_exact k p l →
  delay_exact (if cas_failed l l' then S k else k) (if paused l l' then p + 1 else p) l'.
Proof.
  unfold worker_with_backoff, delay_exact, cas_failed, paused.
  destruct l as [i [|old bo|old bo j]]; simpl.
  - case_decide; [|done]. intros [= <- <-] _ [-> ->]. simpl. done.
  - destruct (int_succ old) as [d|]; [|done]. simpl.
    destruct (compare_exchange_weak b (counter g) old d) as [[v e] [|]];
      intros [= <- <-]; simpl; [lia|]. intros _ [-> ->].
    exists k. pose proof (delay_after_pos k). split; [done|]. split; [done|]. lia.
  - case_decide as Hlt; intros [= <- <-] _ (k' & -> & -> & Hj & ->); simpl.
    + exists k'. split; [done|]. split; [done|]. lia.
    + rewrite delay_after_S. split; [done|]. simpl. lia.
Qed.

Lemma delay_exact_run M t tr :
  ∀ c c' l l' k p,
    run (worker_with_backoff M) c tr = Some c' →
    pool c !! t = Some l → pool c' !! t = Some l' → biter l' = biter l →
    delay_exact k p l →
    delay_exact (k + steps_of M cas_failed t c tr)
                (p + Z.of_nat (steps_of M paused t c tr)) l'.
Proof.
  induction tr as [|e tr IH]; intros c c' l l' k p Hrun Hl Hl' Hi Hd; simpl in Hrun.
  - injection Hrun as <-. rewrite Hl in Hl'. injection Hl' as <-. simpl.
    by rewrite Nat.add_0_r, Z.add_0_r.
  - cbn [steps_of].
    destruct (step (worker_with_backoff M) c e) as [c1|] eqn:He; [|done]. simpl in Hrun.
    apply step_Some in He as (l0 & g' & l1 & Hl0 & Ht & ->).
    assert (e.1 < length (pool c))%nat as Hlt by by eapply lookup_lt_Some.
    destruct (decide (e.1 = t)) as [Heq|Hne].
    + rewrite Heq in *. rewrite Hl in Hl0. injection Hl0 as <-.
      cbn [pool]. rewrite Hl, list_lookup_insert_eq by done.
      assert (biter l1 = biter l) as Hi1.
      { pose proof (proj1 (biter_step _ _ _ _ _ _ Ht)).
        pose proof (biter_run M t tr _ c' l1 l' Hrun
                      ltac:(simpl; by apply list_lookup_insert_eq) Hl'). lia. }
      pose proof (delay_exact_step _ _ _ _ _ _ k p Ht Hi1 Hd) as Hd1.
      pose proof (IH _ c' l1 l' _ _ Hrun ltac:(simpl; by apply list_lookup_insert_eq)
                    Hl' ltac:(lia) Hd1) as Hd'.
      set (n := steps_of M cas_failed t _ tr) in *.
      set (m := steps_of M paused t _ tr) in *.
      replace (k + ((if cas_failed l l1 then 1 else 0) + n))%nat
        with ((if cas_failed l l1 then S k else k) + n)%nat
        by (destruct (cas_failed l l1); lia).
      replace (p + Z.of_nat ((if paused l l1 then 1 else 0) + m))
        with ((if paused l l1 then p + 1 else p) + Z.of_nat m)
        by (destruct (paused l l1); lia).
      exact Hd'.
    + simpl. eapply (IH _ c' l l'); [exact Hrun| |exact Hl'|exact Hi|exact Hd].
      simpl. by rewrite list_lookup_insert_ne.
Qed.

(** *** A run with [k] failures in a row *)

(** Worker 1 makes a whole increment while worker 0 stands at its exchange:
    the exchange of worker 0 fails, worker 0 makes the [d] pauses of its
    delay [d] and comes back to the exchange. *)
Definition contend_once (d : Z) : list (nat * bool) :=
  [(1, false); (1, false); (0, false)]%nat ++ replicate (Z.to_nat d) (0%nat, false) ++
  [(0%nat, false)].

Fixpoint contend (k : nat) : list (nat * bool) :=
  match k with
  | O => []
  | S k' => contend k' ++ contend_once (delay_after k')
  end.

Lemma bstep M (c : @config globals blocal) t b l g' l' :
  pool c !! t = Some l → worker_with_backoff M b (shared c) l = Some (g', l') →
  step (worker_with_backoff M) c (t, b) = Some (Config g' (<[t := l']> (pool c))).
Proof. intros Hl Ht. apply step_Some. by exists l, g', l'. Qed.

Lemma run_pauses M t b (n : nat) :
  ∀ (c : @config globals blocal) i old bo j,
    pool c !! t = Some (BLocal i (BPause old bo j)) → j + Z.of_nat n = bo →
    run (worker_with_backoff M) c (replicate n (t, b)) =
      Some (Config (shared c) (<[t := BLocal i (BPause old bo bo)]> (pool c))).
Proof.
  induction n as [|n IH]; intros c i old bo j Hl Hn.
  - assert (bo = j) as -> by lia. simpl. rewrite list_insert_id by done. by destruct c.
  - cbn [replicate run].
    erewrite bstep; [|exact Hl|unfold worker_with_backoff; cbn [b_pc biter];
                               by rewrite decide_True by lia].
    cbn [mbind option_bind]. erewrite IH.
    + cbn [pool shared]. by rewrite list_insert_insert_eq.
    + cbn [pool]. apply list_lookup_insert_eq. by eapply lookup_lt_Some.
    + lia.
Qed.

Lemma run_contend_once M v d rest :
  v < M → v < Int32.INT_MAX → 0 ≤ v → 0 ≤ d →
  run (worker_with_backoff M)
      (Config (Globals v v) (BLocal 0 (BCas v d) :: BLocal v BIter :: rest))
      (contend_once d) =
    Some (Config (Globals (v + 1) (v + 1))
            (BLocal 0 (BCas (v + 1) (Z.min (d * 2) 64)) :: BLocal (v + 1) BIter :: rest)).
Proof.
  intros HM Hmax Hv Hd. unfold contend_once. rewrite run_app. cbn [run].
  erewrite bstep; [|reflexivity|unfold worker_with_backoff; cbn [b_pc biter shared];
                                by rewrite decide_True by done].
  cbn [mbind option_bind pool shared counter]. simpl (<[_:=_]> _).
  erewrite bstep; [|reflexivity
    |unfold worker_with_backoff, int_succ, compare_exchange_weak;
     cbn [b_pc biter shared counter failed_cas_count];
     rewrite decide_True by done; cbn [mbind option_bind];
     by rewrite decide_True by done].
  cbn [mbind option_bind pool shared]. simpl (<[_:=_]> _).
  erewrite bstep; [|reflexivity
    |unfold worker_with_backoff, int_succ, compare_exchange_weak;
     cbn [b_pc biter shared counter failed_cas_count];
     rewrite decide_True by done; cbn [mbind option_bind];
     by rewrite decide_False by lia].
  cbn [mbind option_bind pool shared]. simpl (<[_:=_]> _).
  rewrite run_app.
  erewrite (run_pauses M 0 false (Z.to_nat d) _ 0 (v + 1) d 0); [|reflexivity|lia].
  cbn [mbind option_bind pool shared run]. simpl (<[_:=_]> _).
  erewrite bstep; [|reflexivity
    |unfold worker_with_backoff, AtomicCounter.fetch_add;
     cbn [b_pc biter shared counter failed_cas_count fst];
     by rewrite decide_False by lia].
  cbn [mbind option_bind pool]. simpl (<[_:=_]> _).
  rewrite Int32.wrap_id; [done|]. unfold Int32.in_range, Int32.INT_MIN. lia.
Qed.

Lemma run_contend M (k : nat) rest :
  Z.of_nat k ≤ M → M ≤ Int32.INT_MAX →
  run (worker_with_backoff M)
      (Config (Globals 0 0) (BLocal 0 (BCas 0 1) :: BLocal 0 BIter :: rest)) (contend k) =
    Some (Config (Globals (Z.of_nat k) (Z.of_nat k))
            (BLocal 0 (BCas (Z.of_nat k) (delay_after k)) :: BLocal (Z.of_nat k) BIter :: rest)).
Proof.
  induction k as [|k IH]; intros Hk HM.
  - done.
  - cbn [contend]. rewrite run_app, IH by lia. cbn [mbind option_bind].
    pose proof (delay_after_pos k).
    rewrite run_contend_once by lia. rewrite <- delay_after_S.
    by replace (Z.of_nat k + 1) with (Z.of_nat (S k)) by lia.
Qed.

Lemma backoff_failures M N (k : nat) :
  0 < M → Z.of_nat k ≤ M → M ≤ Int32.INT_MAX →
  ∃ tr c, run (worker_with_backoff M) (binit (S (S N))) tr = Some c ∧
          pool c !! 0%nat = Some (BLocal 0 (BCas (Z.of_nat k) (delay_after k))) ∧
          shared c = Globals (Z.of_nat k) (Z.of_nat k).
Proof.
  intros HM Hk Hmax. exists ((0%nat, false) :: contend k). eexists.
  split; [|split].
  - unfold binit. cbn [replicate run].
    erewrite bstep; [|reflexivity|unfold worker_with_backoff; cbn [b_pc biter shared];
                                  by rewrite decide_True by done].
    cbn [mbind option_bind pool shared counter]. simpl (<[_:=_]> _).
    by apply run_contend.
  - reflexivity.
  - reflexivity.
Qed.

(** C7: the delay of [worker_with_backoff].  The steps of its loops are
    given in full: an iteration of the [for] loop enters its retry sequence
    with the delay set to 1; a failed exchange enters the pause loop with the
    delay as it is; the pause loop makes one pause per step while [j] is
    below the delay, and then the delay is doubled, capped at 64, and the
    worker is back at the exchange; a successful exchange ends the iteration,
    so that the next one starts with 1 again.  Hence, whatever the shared
    state is at each step, after [k] failed exchanges of one retry sequence
    the delay is [min (2^k) 64]: 1 at first, doubled at each failure up to
    64, and 64 ever after.  In every run, a worker that was at the head of
    its [for] loop and is still in that iteration stands at its exchange with
    the delay [min (2^k) 64], where [k] counts its failed exchanges since,
    having made exactly the pauses of the delays 1, 2, 4, ... of these
    failures (or it is in the pause loop of the last failure, with the
    previous delay); the delay of every worker is between 1 and 64
    throughout; and for every [k] up to the number of iterations there is a
    run of the workers of [main] in which a worker fails [k] times in a row,
    each time because another worker has incremented the counter, and stands
    at its exchange with the delay [min (2^k) 64]. *)
Theorem backoff_delay_doubles (M : Z) :
  (∀ b g i, i < M →
     worker_with_backoff M b g (BLocal i BIter) = Some (g, BLocal i (BCas (counter g) 1))) ∧
  (∀ b g i old backoff, old < Int32.INT_MAX →
     worker_with_backoff M b g (BLocal i (BCas old backoff)) =
       Some (if decide (counter g = old ∧ b = false)
             then (Globals (old + 1) (failed_cas_count g), BLocal (i + 1) BIter)
             else (g, BLocal i (BPause (counter g) backoff 0)))) ∧
  (∀ b g i old backoff j, j < backoff →
     worker_with_backoff M b g (BLocal i (BPause old backoff j)) =
       Some (g, BLocal i (BPause old backoff (j + 1)))) ∧
  (∀ b g i old backoff j, ¬ j < backoff →
     worker_with_backoff M b g (BLocal i (BPause old backoff j)) =
       Some (Globals (counter g) (Int32.wrap (failed_cas_count g + 1)),
             BLocal i (BCas old (Z.min (backoff * 2) 64)))) ∧
  (∀ k i old l, retry_seq M k (BLocal i (BCas old 1)) l → delay_ok k l) ∧
  (delay_after 0 = 1 ∧
   (∀ k, (k < 6)%nat → delay_after (S k) = 2 * delay_after k) ∧
   (∀ k, (6 ≤ k)%nat → delay_after k = 64)) ∧
  (∀ tr c c' t i l',
     run (worker_with_backoff M) c tr = Some c' →
     pool c !! t = Some (BLocal i BIter) → pool c' !! t = Some l' → biter l' = i →
     delay_exact (steps_of M cas_failed t c tr)
                 (Z.of_nat (steps_of M paused t c tr)) l') ∧
  (∀ N tr c, run (worker_with_backoff M) (binit N) tr = Some c →
     Forall delay_bounded (pool c)) ∧
  (0 < M → M ≤ Int32.INT_MAX → ∀ N (k : nat), Z.of_nat k ≤ M →
     ∃ tr c, run (worker_with_backoff M) (binit (S (S N))) tr = Some c ∧
             pool c !! 0%nat = Some (BLocal 0 (BCas (Z.of_nat k) (delay_after k))) ∧
             shared c = Globals (Z.of_nat k) (Z.of_nat k)).
Proof.
  split; [|split; [|split; [|split; [|split; [|split; [|split; [|split]]]]]]].
  - intros b g i Hlt. unfold worker_with_backoff. cbn [b_pc biter].
    by rewrite decide_True by done.
  - intros b g i old bo Hmax. unfold worker_with_backoff, int_succ, compare_exchange_weak.
    cbn [b_pc biter]. rewrite decide_True by done. cbn [mbind option_bind].
    destruct g as [v f]. cbn [counter failed_cas_count].
    destruct (decide (v = old)) as [->|Hne], b.
    + by rewrite decide_False by (by intros [_ ?]).
    + by rewrite decide_True.
    + by rewrite decide_False by (by intros [? _]).
    + by rewrite decide_False by (by intros [? _]).
  - intros b g i old bo j Hlt. unfold worker_with_backoff. cbn [b_pc biter].
    by rewrite decide_True by done.
  - intros b g i old bo j Hlt. unfold worker_with_backoff. cbn [b_pc biter].
    by rewrite decide_False by done.
  - intros k i old l. apply retry_seq_delay.
  - split; [done|]. split.
    + intros k Hk. rewrite delay_after_S. unfold delay_after.
      assert (2 ^ Z.of_nat k ≤ 2 ^ 5) by (apply Z.pow_le_mono_r; lia). lia.
    + intros k Hk. unfold delay_after.
      assert (2 ^ 6 ≤ 2 ^ Z.of_nat k) by (apply Z.pow_le_mono_r; lia). lia.
  - intros tr c c' t i l' Hrun Hl Hl' Hi.
    apply (delay_exact_run M t tr c c' (BLocal i BIter) l' 0 0 Hrun Hl Hl' Hi).
    by split.
  - intros N tr c Hrun.
    apply (run_invariant (worker_with_backoff M) (λ c, Forall delay_bounded (pool c)))
      with tr (binit N); [|by apply Forall_replicate|done].
    intros c0 e c1 HI (l & g' & l' & Hl & Ht & ->)%step_Some. simpl.
    apply Forall_insert; [done|]. eapply delay_bounded_step; [done|].
    rewrite Forall_lookup in HI. by eapply HI.
  - intros HM Hmax N k Hk. by apply backoff_failures.
Qed.

(** Two workers of [main]: worker 0 has loaded the counter when worker 1
    makes an increment; the exchange of worker 0 fails, worker 0 pauses once
    and comes back with the delay 2; worker 1 makes another increment, the
    exchange of worker 0 fails again, worker 0 pauses twice and comes back
    with the delay 4. *)
Definition fails_twice : list (nat * bool) := (0%nat, false) :: contend 2.

Lemma backoff_delay_doubles_witness :
  run (worker_with_backoff 100000) (binit 2) fails_twice =
    Some (Config (Globals 2 2) [BLocal 0 (BCas 2 4); BLocal 2 BIter]) ∧
  steps_of 100000 cas_failed 0 (binit 2) fails_twice = 2%nat ∧
  steps_of 100000 paused 0 (binit 2) fails_twice = 3%nat ∧
  delay_exact 2 3 (BLocal 0 (BCas 2 4)).
Proof.
  assert (run (worker_with_backoff 100000) (binit 2) fails_twice =
          Some (Config (Globals 2 2) [BLocal 0 (BCas 2 4); BLocal 2 BIter])) as Hrun
    by (vm_compute; reflexivity).
  assert (steps_of 100000 cas_failed 0 (binit 2) fails_twice = 2%nat) as Hk
    by (vm_compute; reflexivity).
  assert (steps_of 100000 paused 0 (binit 2) fails_twice = 3%nat) as Hp
    by (vm_compute; reflexivity).
  split; [exact Hrun|]. split; [exact Hk|]. split; [exact Hp|].
  pose proof (proj1 (proj2 (proj2 (proj2 (proj2 (proj2 (proj2
                (backoff_delay_doubles 100000)))))))
                fails_twice (binit 2) _ 0%nat 0 (BLocal 0 (BCas 2 4))
                Hrun eq_refl eq_refl eq_refl) as H.
  rewrite Hk, Hp in H. exact H.
Defined.

(** *** Erasing the delay: a backoff worker seen as a plain worker *)

Definition erase_pc (p : bpc) : npc :=
  match p with
  | BIter => NIter
  | BCas old _ => NCas old
  | BPause old _ _ => NFail old
  end.

Definition erase (l : blocal) : nlocal := NLocal (biter l) (erase_pc (b_pc l)).

Definition erase_config (c : @config globals blocal) : @config globals nlocal :=
  Config (shared c) (erase <$> pool c).

Lemma erase_binit N : erase_config (binit N) = ninit N.
Proof. unfold erase_config, binit, ninit. simpl. by rewrite fmap_replicate. Qed.

(** A step of the backoff worker is a pause, invisible once the delay is
    erased, or the same step of the plain worker. *)
Lemma erase_step M b g l g' l' :
  worker_with_backoff M b g l = Some (g', l') →
  (g' = g ∧ erase l' = erase l) ∨ worker_no_backoff M b g (erase l) = Some (g', erase l').
Proof.
  unfold worker_with_backoff, worker_no_backoff, erase.
  destruct l as [i [|old bo|old bo j]]; simpl.
  - case_decide; [|done]. intros [= <- <-]. by right.
  - destruct (int_succ old) as [d|]; [|done]. simpl.
    destruct (compare_exchange_weak b (counter g) old d) as [[v e] [|]];
      intros [= <- <-]; by right.
  - case_decide; intros [= <- <-]; [by left|by right].
Qed.

Lemma erase_run M tr c c' :
  run (worker_with_backoff M) c tr = Some c' →
  ∃ tr', run (worker_no_backoff M) (erase_config c) tr' = Some (erase_config c').
Proof.
  revert c. induction tr as [|[t b] tr IH]; intros c; simpl.
  - intros [= <-]. by exists [].
  - destruct (step _ c (t, b)) as [c1|] eqn:He; [|done]. simpl. intros Hrun.
    destruct (IH _ Hrun) as (tr' & Hr').
    apply step_Some in He as (l & g' & l' & Hl & Ht & ->). simpl in *.
    destruct (erase_step _ _ _ _ _ _ Ht) as [[-> He]|Hn].
    + exists tr'. rewrite <- Hr'. f_equal. unfold erase_config. simpl. f_equal.
      rewrite list_fmap_insert, He. symmetry. apply list_insert_id.
      by rewrite list_lookup_fmap, Hl.
    + exists ((t, b) :: tr'). simpl.
      assert (step (worker_no_backoff M) (erase_config c) (t, b) =
              Some (erase_config (Config g' (<[t := l']> (pool c))))) as ->; [|done].
      apply step_Some. exists (erase l), g', (erase l'). simpl.
      split; [by rewrite list_lookup_fmap, Hl|]. split; [done|].
      unfold erase_config. simpl. by rewrite list_fmap_insert.
Qed.

(** A pausing worker left alone reaches the [fetch_add] that ends its pause. *)
Lemma pause_drain M t (b : bool) (n : nat) (c : @config globals blocal) i old bo j :
  pool c !! t = Some (BLocal i (BPause old bo j)) → Z.to_nat (bo - j) = n →
  ∃ tr, run (worker_with_backoff M) c tr =
          Some (Config (Globals (counter (shared c))
                                (AtomicCounter.fetch_add (failed_cas_count (shared c)) 1).1)
                       (<[t := BLocal i (BCas old (Z.min (bo * 2) 64))]> (pool c))).
Proof.
  revert c j. induction n as [|n IH]; intros c j Hl Hn.
  - exists [(t, b)]. simpl.
    match goal with |- context [step ?f c ?e] =>
      assert (step f c e =
        Some (Config (Globals (counter (shared c))
                              (AtomicCounter.fetch_add (failed_cas_count (shared c)) 1).1)
                     (<[t := BLocal i (BCas old (Z.min (bo * 2) 64))]> (pool c)))) as ->;
      [|done] end.
    apply step_Some. eexists _, _, _. split; [exact Hl|]. split; [|done].
    unfold worker_with_backoff. simpl. by rewrite decide_False by lia.
  - destruct (IH (Config (shared c) (<[t := BLocal i (BPause old bo (j + 1))]> (pool c)))
                (j + 1)) as (tr & Hrun).
    + simpl. apply list_lookup_insert_eq. by eapply lookup_lt_Some.
    + lia.
    + exists ((t, b) :: tr). simpl.
      match goal with |- context [step ?f c ?e] =>
        assert (step f c e =
          Some (Config (shared c) (<[t := BLocal i (BPause old bo (j + 1))]> (pool c))))
          as ->
      end.
      { apply step_Some. eexists _, _, _. split; [exact Hl|]. split; [|done].
        unfold worker_with_backoff. simpl. by rewrite decide_True by lia. }
      simpl. rewrite Hrun. simpl. by rewrite list_insert_insert_eq.
Qed.

Lemma unerase_step M (c : @config globals blocal) (e : nat * bool) d :
  step (worker_no_backoff M) (erase_config c) e = Some d →
  ∃ tr c', run (worker_with_backoff M) c tr = Some c' ∧ erase_config c' = d.
Proof.
  intros (nl & g' & nl' & Hl & Ht & ->)%step_Some. simpl in *.
  rewrite list_lookup_fmap in Hl.
  destruct (pool c !! e.1) as [l|] eqn:Hpl; [|done]. simpl in Hl. injection Hl as <-.
  destruct l as [i [|old bo|old bo j]].
  - unfold worker_no_backoff, erase in Ht. simpl in Ht. case_decide as Hlt; [|done].
    injection Ht as <- <-.
    exists [e], (Config (shared c) (<[e.1 := BLocal i (BCas (counter (shared c)) 1)]> (pool c))).
    split.
    + simpl.
      match goal with |- (?x ≫= _) = _ => assert (x = Some
        (Config (shared c) (<[e.1 := BLocal i (BCas (counter (shared c)) 1)]> (pool c))))
        as ->; [|done] end.
      apply step_Some. eexists _, _, _. split; [exact Hpl|]. split; [|done].
      unfold worker_with_backoff. simpl. by rewrite decide_True by lia.
    + unfold erase_config. simpl. by rewrite list_fmap_insert.
  - unfold worker_no_backoff, erase in Ht. simpl in Ht.
    destruct (int_succ old) as [des|] eqn:Hd; [|done]. simpl in Ht.
    destruct (compare_exchange_weak e.2 (counter (shared c)) old des) as [[v o] r] eqn:Hcas.
    exists [e], (Config (Globals v (failed_cas_count (shared c)))
                   (<[e.1 := if r then BLocal (i + 1) BIter
                             else BLocal i (BPause o bo 0)]> (pool c))).
    split.
    + simpl.
      match goal with |- (?x ≫= _) = _ => assert (x = Some
        (Config (Globals v (failed_cas_count (shared c)))
                (<[e.1 := if r then BLocal (i + 1) BIter
                          else BLocal i (BPause o bo 0)]> (pool c))))
        as ->; [|done] end.
      apply step_Some. eexists _, _, _. split; [exact Hpl|]. split; [|done].
      unfold worker_with_backoff. simpl. rewrite Hd. simpl. rewrite Hcas.
      by destruct r.
    + unfold erase_config. simpl. rewrite list_fmap_insert.
      destruct r; by injection Ht as <- <-.
  - unfold worker_no_backoff, erase in Ht. simpl in Ht. injection Ht as <- <-.
    destruct (pause_drain M e.1 e.2 _ c i old bo j Hpl eq_refl) as (tr & Hrun).
    eexists tr, _. split; [exact Hrun|].
    unfold erase_config. simpl. by rewrite list_fmap_insert.
Qed.

Lemma unerase_run M tr c d :
  run (worker_no_backoff M) (erase_config c) tr = Some d →
  ∃ tr' c', run (worker_with_backoff M) c tr' = Some c' ∧ erase_config c' = d.
Proof.
  revert c. induction tr as [|e tr IH]; intros c; simpl.
  - intros [= <-]. by exists [], c.
  - destruct (step _ (erase_config c) e) as [d1|] eqn:He; [|done]. simpl. intros Hrun.
    destruct (unerase_step _ _ _ _ He) as (tr1 & c1 & Hr1 & <-).
    destruct (IH _ Hrun) as (tr2 & c2 & Hr2 & <-).
    exists (tr1 ++ tr2), c2. split; [|done]. by rewrite run_app, Hr1.
Qed.

(** *** The final value *)

Definition ncount_inv (M : Z) (c : @config globals nlocal) : Prop :=
  counter (shared c) = sumZ (niter <$> pool c) ∧
  Forall (λ l, 0 ≤ niter l ≤ M ∧ (n_pc l ≠ NIter → niter l < M)) (pool c).

Lemma ncount_inv_init M N : 0 ≤ M → ncount_inv M (ninit N).
Proof.
  intros HM. split; simpl.
  - rewrite fmap_replicate, sumZ_replicate. simpl. lia.
  - apply Forall_replicate. simpl. split; [lia|done].
Qed.

Lemma ncount_inv_step M c e c' :
  ncount_inv M c → step (worker_no_backoff M) c e = Some c' → ncount_inv M c'.
Proof.
  intros [Hs Hb] (l & g' & l' & Hl & Ht & ->)%step_Some.
  assert (0 ≤ niter l ≤ M ∧ (n_pc l ≠ NIter → niter l < M)) as [Hi Hin].
  { rewrite Forall_lookup in Hb. by eapply Hb. }
  assert (sumZ (niter <$> <[e.1 := l']> (pool c)) =
          sumZ (niter <$> pool c) - niter l + niter l') as Hsum.
  { rewrite list_fmap_insert. apply sumZ_insert. by rewrite list_lookup_fmap, Hl. }
  unfold ncount_inv. simpl. rewrite Hsum. clear Hsum.
  unfold worker_no_backoff in Ht. destruct (n_pc l) as [|old|old] eqn:Hpc.
  - case_decide as Hlt; [|done]. injection Ht as <- <-. simpl. split; [lia|].
    apply Forall_insert; [done|]. simpl. split; [lia|done].
  - unfold int_succ in Ht. case_decide as Hmax; [|done]. simpl in Ht.
    destruct (compare_exchange_weak e.2 (counter (shared c)) old (old + 1))
      as [[v o] [|]] eqn:Hcas; injection Ht as <- <-; simpl.
    + apply cas_success in Hcas as (_ & Hc & -> & _). split; [lia|].
      apply Forall_insert; [done|]. simpl.
      assert (niter l < M) by (apply Hin; congruence). split; [lia|done].
    + apply cas_failure in Hcas as (-> & _ & _). split; [lia|].
      apply Forall_insert; [done|]. simpl. split; [done|].
      intros _. apply Hin. congruence.
  - injection Ht as <- <-. simpl. split; [lia|].
    apply Forall_insert; [done|]. simpl. split; [done|].
    intros _. apply Hin. congruence.
Qed.

Lemma nfinal M N tr c :
  0 ≤ M → run (worker_no_backoff M) (ninit N) tr = Some c → nfinished M c →
  counter (shared c) = Z.of_nat N * M.
Proof.
  intros HM Hrun Hfin.
  assert (ncount_inv M c) as [Hs Hb].
  { eapply run_invariant; [apply ncount_inv_step|by apply ncount_inv_init|done]. }
  rewrite Hs. rewrite <- (length_replicate N (NLocal 0 NIter)).
  change (replicate N (NLocal 0 NIter)) with (pool (ninit N)).
  rewrite <- (run_length _ _ _ _ Hrun), <- (length_fmap niter).
  apply sumZ_const. apply Forall_fmap. unfold nfinished in Hfin.
  rewrite Forall_lookup in Hb, Hfin |- *. intros t l Hl.
  destruct (Hb _ _ Hl) as [? _]. destruct (Hfin _ _ Hl) as [_ ?]. simpl. lia.
Qed.

Lemma erase_finished M c : bfinished M c → nfinished M (erase_config c).
Proof.
  unfold bfinished, nfinished, erase_config. simpl. intros H.
  apply Forall_fmap. rewrite Forall_forall in H |- *.
  intros [i p] Hin. destruct (H _ Hin) as [Hp Hi]. simpl in *. subst. by split.
Qed.

(** *** Runs that finish *)

(** A worker without backoff left alone makes [k] more iterations, each
    with one load and one successful exchange. *)
Lemma nsolo M t (k : nat) (c : @config globals nlocal) i :
  pool c !! t = Some (NLocal i NIter) → i + Z.of_nat k ≤ M →
  counter (shared c) + Z.of_nat k ≤ Int32.INT_MAX →
  ∃ tr, run (worker_no_backoff M) c tr =
          Some (Config (Globals (counter (shared c) + Z.of_nat k) (failed_cas_count (shared c)))
                       (<[t := NLocal (i + Z.of_nat k) NIter]> (pool c))).
Proof.
  revert c i. induction k as [|k IH]; intros [[v f] ths] i Hi Hk Hmax; simpl in *.
  - exists []. simpl. rewrite !Z.add_0_r. by rewrite list_insert_id.
  - assert (t < length ths)%nat as Hlt by by eapply lookup_lt_Some.
    destruct (IH (Config (Globals (v + 1) f) (<[t := NLocal (i + 1) NIter]> ths)) (i + 1))
      as (tr & Hrun); simpl; [by apply list_lookup_insert_eq|lia..|].
    exists ((t, false) :: (t, false) :: tr). cbn [run].
    assert (step (worker_no_backoff M) (Config (Globals v f) ths) (t, false) =
            Some (Config (Globals v f) (<[t := NLocal i (NCas v)]> ths))) as ->.
    { apply step_Some. eexists _, _, _. split; [exact Hi|]. split; [|done].
      unfold worker_no_backoff. simpl. by rewrite decide_True by lia. }
    cbn [mbind option_bind].
    assert (step (worker_no_backoff M) (Config (Globals v f) (<[t := NLocal i (NCas v)]> ths))
              (t, false) =
            Some (Config (Globals (v + 1) f) (<[t := NLocal (i + 1) NIter]> ths))) as ->.
    { apply step_Some. eexists _, _, _. split; [by apply list_lookup_insert_eq|].
      split; [|simpl; by rewrite list_insert_insert_eq].
      unfold worker_no_backoff, int_succ, compare_exchange_weak. simpl.
      rewrite decide_True by lia. simpl. by rewrite decide_True. }
    cbn [mbind option_bind]. rewrite Hrun. cbn [shared pool counter failed_cas_count].
    rewrite list_insert_insert_eq.
    replace (v + 1 + Z.of_nat k) with (v + Z.of_nat (S k)) by lia.
    by replace (i + 1 + Z.of_nat k) with (i + Z.of_nat (S k)) by lia.
Qed.

Lemma nfinish M N :
  0 ≤ M → Z.of_nat N * M ≤ Int32.INT_MAX →
  ∃ tr c, run (worker_no_backoff M) (ninit N) tr = Some c ∧ nfinished M c.
Proof.
  intros HM Hmax.
  apply (run_one_by_one (worker_no_backoff M) (λ l, l = NLocal 0 NIter)
           (λ l, n_pc l = NIter ∧ ¬ niter l < M)
           (λ g k, counter g + Z.of_nat k * M ≤ Int32.INT_MAX))
    with (done_ := []) (todo := replicate N (NLocal 0 NIter)) (s := Globals 0 0).
  - intros c t l k Hl -> HJ.
    destruct (nsolo M t (Z.to_nat M) c 0 Hl) as (tr & Hrun); [lia|nia|].
    eexists tr, _, _. split; [exact Hrun|]. simpl. split; [split; [done|lia]|nia].
  - done.
  - by apply Forall_replicate.
  - rewrite length_replicate. simpl. lia.
Qed.

Lemma unerase_finished M c : nfinished M (erase_config c) → bfinished M c.
Proof.
  unfold bfinished, nfinished, erase_config. simpl. intros H.
  apply Forall_fmap in H. eapply list.Forall_impl; [exact H|].
  intros [i [| |]] [Hp Hi]; simpl in *; try done.
Qed.

Lemma bfinish M N :
  0 ≤ M → Z.of_nat N * M ≤ Int32.INT_MAX →
  ∃ tr c, run (worker_with_backoff M) (binit N) tr = Some c ∧ bfinished M c.
Proof.
  intros HM Hmax. destruct (nfinish M N HM Hmax) as (tr & d & Hrun & Hfin).
  rewrite <- erase_binit in Hrun.
  destruct (unerase_run _ _ _ _ Hrun) as (tr' & c & Hrun' & <-).
  exists tr', c. split; [done|]. by apply unerase_finished.
Qed.

(** C8: every run of the backoff workers is, once the delay is erased, a
    run of the workers without backoff ending with the same globals and the
    same places in the loops; every run of the workers without backoff is
    matched in the same way by a run of the backoff workers; and when [N]
    workers of either kind have finished their [M] iterations from 0, both
    counters hold [N * M]; as long as [N * M] is an [int], some schedule lets
    the workers of either kind finish. *)
Theorem backoff_non_interference (M : Z) (N : nat) :
  0 ≤ M →
  (∀ tr c, run (worker_with_backoff M) (binit N) tr = Some c →
     ∃ tr', run (worker_no_backoff M) (ninit N) tr' = Some (erase_config c)) ∧
  (∀ tr d, run (worker_no_backoff M) (ninit N) tr = Some d →
     ∃ tr' c, run (worker_with_backoff M) (binit N) tr' = Some c ∧ erase_config c = d) ∧
  (∀ trn cn trb cb,
     run (worker_no_backoff M) (ninit N) trn = Some cn → nfinished M cn →
     run (worker_with_backoff M) (binit N) trb = Some cb → bfinished M cb →
     counter (shared cn) = counter (shared cb) ∧ counter (shared cb) = Z.of_nat N * M) ∧
  (Z.of_nat N * M ≤ Int32.INT_MAX →
     (∃ tr c, run (worker_no_backoff M) (ninit N) tr = Some c ∧ nfinished M c) ∧
     (∃ tr c, run (worker_with_backoff M) (binit N) tr = Some c ∧ bfinished M c)).
Proof.
  intros HM. split; [|split; [|split]]; [| | |split; [by apply nfinish|by apply bfinish]].
  - intros tr c Hrun. rewrite <- erase_binit. by eapply erase_run.
  - intros tr d Hrun. rewrite <- erase_binit in Hrun. by eapply unerase_run.
  - intros trn cn trb cb Hn Hfn Hb Hfb.
    destruct (erase_run _ _ _ _ Hb) as (tr' & Hb'). rewrite erase_binit in Hb'.
    pose proof (nfinal M N _ _ HM Hb' (erase_finished _ _ Hfb)) as Hcb.
    pose proof (nfinal M N _ _ HM Hn Hfn) as Hcn. simpl in Hcb. by rewrite Hcn, Hcb.
Qed.

(** Two workers of one iteration each.  Without backoff: both load 0, the
    first exchange succeeds, the second fails, is counted and is retried.
    With backoff the same schedule has one more step: the pause. *)
Definition sched_no_backoff : list (nat * bool) :=
  [(0, false); (1, false); (0, false); (1, false); (1, false); (1, false)]%nat.
Definition sched_with_backoff : list (nat * bool) :=
  [(0, false); (1, false); (0, false); (1, false); (1, false); (1, false); (1, false)]%nat.

Lemma backoff_non_interference_witness :
  0 ≤ 1 ∧
  ∃ cn cb, run (worker_no_backoff 1) (ninit 2) sched_no_backoff = Some cn ∧
           run (worker_with_backoff 1) (binit 2) sched_with_backoff = Some cb ∧
           shared cn = Globals 2 1 ∧ shared cb = Globals 2 1 ∧
           counter (shared cn) = counter (shared cb).
Proof.
  assert (0 ≤ 1) as HM by lia. split; [exact HM|].
  eexists _, _. split; [reflexivity|]. split; [reflexivity|].
  split; [reflexivity|]. split; [reflexivity|].
  refine (proj1 (proj1 (proj2 (proj2 (backoff_non_interference 1 2 HM)))
                   sched_no_backoff _ sched_with_backoff _ eq_refl _ eq_refl _)).
  - repeat constructor; simpl; lia.
  - repeat constructor; simpl; lia.
Defined.

(** *** What the count of failures counts *)

(** A step of a worker without backoff is a failed exchange when it leads
    from the test of the [while] loop into its body. *)
Definition ncas_failed (l l' : nlocal) : bool :=
  match n_pc l, n_pc l' with
  | NCas _, NFail _ => true
  | _, _ => false
  end.

(** The number of steps of a run from [c] along [tr] that take a thread
    from [l] to [l'] with [mark l l']. *)
Fixpoint count_steps {Sh Lo Ev : Type} (tstep : Ev → Sh → Lo → option (Sh * Lo))
    (mark : Lo → Lo → bool) (c : @config Sh Lo) (tr : list (nat * Ev)) : nat :=
  match tr with
  | [] => O
  | e :: tr' =>
      match step tstep c e with
      | Some c' =>
          (match pool c !! e.1, pool c' !! e.1 with
           | Some l, Some l' => if mark l l' then 1 else 0
           | _, _ => 0
           end + count_steps tstep mark c' tr')%nat
      | None => O
      end
  end.

(** The failures that are not counted yet: the workers in the body of
    their [while] loop. *)
Definition npending (l : nlocal) : Z := match n_pc l with NFail _ => 1 | _ => 0 end.
Definition bpending (l : blocal) : Z := match b_pc l with BPause _ _ _ => 1 | _ => 0 end.

Lemma wrap_wrap z : Int32.wrap (Int32.wrap z) = Int32.wrap z.
Proof. apply Int32.wrap_id. apply Int32.wrap_in_range. Qed.

Lemma nfailed_step M g l b g' l' :
  worker_no_backoff M b g l = Some (g', l') →
  Int32.wrap (failed_cas_count g' + npending l') =
  Int32.wrap (failed_cas_count g + npending l + if ncas_failed l l' then 1 else 0) ∧
  (Int32.in_range (failed_cas_count g) → Int32.in_range (failed_cas_count g')).
Proof.
  unfold worker_no_backoff, ncas_failed, npending. destruct l as [i [|old|old]]; simpl.
  - case_decide; [|done]. intros [= <- <-]. simpl. split; [f_equal; lia|done].
  - destruct (int_succ old) as [d|]; [|done]. simpl.
    destruct (compare_exchange_weak b (counter g) old d) as [[v e] [|]];
      intros [= <- <-]; simpl; (split; [f_equal; lia|done]).
  - intros [= <- <-]. simpl. unfold AtomicCounter.fetch_add. simpl.
    split; [|intros _; apply Int32.wrap_in_range].
    rewrite Z.add_0_r, wrap_wrap. f_equal. lia.
Qed.

Lemma bfailed_step M g l b g' l' :
  worker_with_backoff M b g l = Some (g', l') →
  Int32.wrap (failed_cas_count g' + bpending l') =
  Int32.wrap (failed_cas_count g + bpending l + if cas_failed l l' then 1 else 0) ∧
  (Int32.in_range (failed_cas_count g) → Int32.in_range (failed_cas_count g')).
Proof.
  unfold worker_with_backoff, cas_failed, bpending. destruct l as [i [|old bo|old bo j]]; simpl.
  - case_decide; [|done]. intros [= <- <-]. simpl. split; [f_equal; lia|done].
  - destruct (int_succ old) as [d|]; [|done]. simpl.
    destruct (compare_exchange_weak b (counter g) old d) as [[v e] [|]];
      intros [= <- <-]; simpl; (split; [f_equal; lia|done]).
  - case_decide; intros [= <- <-]; simpl; [split; [f_equal; lia|done]|].
    unfold AtomicCounter.fetch_add. simpl.
    split; [|intros _; apply Int32.wrap_in_range].
    rewrite Z.add_0_r, wrap_wrap. f_equal. lia.
Qed.

(** The count of failures, with the failures not counted yet, follows the
    number of failed exchanges along every run. *)
Lemma count_run {Lo : Type} (tstep : bool → globals → Lo → option (globals * Lo))
    (mark : Lo → Lo → bool) (pending : Lo → Z) :
  (∀ g l b g' l', tstep b g l = Some (g', l') →
     Int32.wrap (failed_cas_count g' + pending l') =
     Int32.wrap (failed_cas_count g + pending l + if mark l l' then 1 else 0) ∧
     (Int32.in_range (failed_cas_count g) → Int32.in_range (failed_cas_count g'))) →
  ∀ tr c c', run tstep c tr = Some c' →
    Int32.wrap (failed_cas_count (shared c') + sumZ (pending <$> pool c')) =
    Int32.wrap (failed_cas_count (shared c) + sumZ (pending <$> pool c) +
                Z.of_nat (count_steps tstep mark c tr)) ∧
    (Int32.in_range (failed_cas_count (shared c)) →
     Int32.in_range (failed_cas_count (shared c'))).
Proof.
  intros Hstep. induction tr as [|e tr IH]; intros c c' Hrun; simpl in Hrun.
  - injection Hrun as <-. simpl. split; [f_equal; lia|done].
  - cbn [count_steps].
    destruct (step tstep c e) as [c1|] eqn:He; [|done]. simpl in Hrun.
    destruct (IH _ _ Hrun) as [Heq Hr]. rewrite Heq.
    apply step_Some in He as (l & g' & l' & Hl & Ht & ->).
    destruct (Hstep _ _ _ _ _ Ht) as [Heq1 Hr1]. split; [|auto].
    assert (e.1 < length (pool c))%nat as Hlt by by eapply lookup_lt_Some.
    cbn [pool shared]. rewrite Hl, list_lookup_insert_eq by done.
    rewrite list_fmap_insert, (sumZ_insert _ _ (pending l)) by (by rewrite list_lookup_fmap, Hl).
    set (k := count_steps tstep mark _ tr). set (S0 := sumZ (pending <$> pool c)).
    replace (failed_cas_count g' + (S0 - pending l + pending l') + Z.of_nat k)
      with ((failed_cas_count g' + pending l') + (S0 - pending l + Z.of_nat k)) by lia.
    rewrite <- Int32.wrap_add_l, Heq1, Int32.wrap_add_l. f_equal.
    destruct (mark l l'); lia.
Qed.

Lemma count_exact {Lo : Type} (tstep : bool → globals → Lo → option (globals * Lo))
    (mark : Lo → Lo → bool) (pending : Lo → Z) :
  (∀ g l b g' l', tstep b g l = Some (g', l') →
     Int32.wrap (failed_cas_count g' + pending l') =
     Int32.wrap (failed_cas_count g + pending l + if mark l l' then 1 else 0) ∧
     (Int32.in_range (failed_cas_count g) → Int32.in_range (failed_cas_count g'))) →
  ∀ tr c c', run tstep c tr = Some c' →
    failed_cas_count (shared c) = 0 → Forall (λ l, pending l = 0) (pool c) →
    failed_cas_count (shared c') =
    Int32.wrap (Z.of_nat (count_steps tstep mark c tr) - sumZ (pending <$> pool c')).
Proof.
  intros Hstep tr c c' Hrun H0 Hp.
  destruct (count_run tstep mark pending Hstep tr c c' Hrun) as [Heq Hr].
  rewrite H0 in Heq, Hr.
  rewrite (sumZ_const (pending <$> pool c) 0) in Heq by by apply Forall_fmap.
  rewrite <- (Int32.wrap_id (failed_cas_count (shared c'))) by by apply Hr.
  replace (failed_cas_count (shared c'))
    with (failed_cas_count (shared c') + sumZ (pending <$> pool c') +
          - sumZ (pending <$> pool c')) at 1 by lia.
  rewrite <- Int32.wrap_add_l, Heq, Int32.wrap_add_l. f_equal. lia.
Qed.

(** X19: the count of failed exchanges is exact.  At every point of every
    run of the workers of either kind, [failed_cas_count] holds (reduced to
    the range of [int]) the number of exchanges that have failed so far in
    the run, minus those whose worker has not reached its [fetch_add] yet;
    when all workers have left their loops it is the number of exchanges
    that failed. *)
Theorem failed_cas_count_exact (M : Z) (N : nat) :
  (∀ tr c, run (worker_no_backoff M) (ninit N) tr = Some c →
     failed_cas_count (shared c) =
       Int32.wrap (Z.of_nat (count_steps (worker_no_backoff M) ncas_failed (ninit N) tr) -
                   sumZ (npending <$> pool c)) ∧
     (nfinished M c →
      failed_cas_count (shared c) =
        Int32.wrap (Z.of_nat (count_steps (worker_no_backoff M) ncas_failed (ninit N) tr)))) ∧
  (∀ tr c, run (worker_with_backoff M) (binit N) tr = Some c →
     failed_cas_count (shared c) =
       Int32.wrap (Z.of_nat (count_steps (worker_with_backoff M) cas_failed (binit N) tr) -
                   sumZ (bpending <$> pool c)) ∧
     (bfinished M c →
      failed_cas_count (shared c) =
        Int32.wrap (Z.of_nat (count_steps (worker_with_backoff M) cas_failed (binit N) tr)))).
Proof.
  split.
  - intros tr c Hrun.
    pose proof (count_exact (worker_no_backoff M) ncas_failed npending (nfailed_step M)
                  tr _ _ Hrun eq_refl) as Heq.
    rewrite Heq by by apply Forall_replicate. split; [done|]. intros Hfin.
    rewrite (sumZ_const (npending <$> pool c) 0); [f_equal; lia|].
    apply Forall_fmap. eapply list.Forall_impl; [exact Hfin|].
    intros l [Hpc _]. unfold npending. simpl. by rewrite Hpc.
  - intros tr c Hrun.
    pose proof (count_exact (worker_with_backoff M) cas_failed bpending (bfailed_step M)
                  tr _ _ Hrun eq_refl) as Heq.
    rewrite Heq by by apply Forall_replicate. split; [done|]. intros Hfin.
    rewrite (sumZ_const (bpending <$> pool c) 0); [f_equal; lia|].
    apply Forall_fmap. eapply list.Forall_impl; [exact Hfin|].
    intros l [Hpc _]. unfold bpending. simpl. by rewrite Hpc.
Qed.

Lemma failed_cas_count_exact_witness :
  run (worker_with_backoff 1) (binit 2) sched_with_backoff =
    Some (Config (Globals 2 1) [BLocal 1 BIter; BLocal 1 BIter]) ∧
  count_steps (worker_with_backoff 1) cas_failed (binit 2) sched_with_backoff = 1%nat ∧
  failed_cas_count (Globals 2 1) = 1.
Proof.
  split; [reflexivity|]. split; [reflexivity|].
  refine (proj2 (proj2 (failed_cas_count_exact 1 2) sched_with_backoff
                   (Config (Globals 2 1) [BLocal 1 BIter; BLocal 1 BIter]) eq_refl) _).
  repeat constructor; simpl; lia.
Defined.

End Backoff.

(** ** src/06_lockfree_stack.cpp: the lock-free stack

    [head] is the only atomic object; the nodes are plain memory, in a free
    store where [delete] makes an address available to [new] again.

    The scope of the model.  [pop] loads [head] with [memory_order_relaxed]
    and then reads [old_head->next]: that read is not ordered after the
    write of [next] by the thread that pushed the node, whose exchange
    releases what no acquire has yet matched.  When a worker pops beside
    other workers, the read need not return what an interleaving of steps on
    one store gives.  The runs of this model are all the executions of the
    source in two cases, [race_free] below: a single worker, whose accesses
    are ordered by its program; and any number of workers that only push,
    which share nothing but [head], a node being accessed by the worker that
    allocated it alone.  The theorems about every run are stated for these
    workers.  The theorems that exhibit one run (the loss of a value by ABA,
    the access to a deleted node) are about workers that pop concurrently:
    an interleaving is one of their executions. *)

Module Stack.

(** Addresses of nodes; a [Node*] is an address or [nullptr] ([None]). *)
Abbreviation loc := positive.
Abbreviation ptr := (option positive).

Record Node := mkNode { value : Z; next : ptr }.

(** The free store and the member [head] of the global [stack]. *)
Record store := Store { heap : gmap loc Node; head : ptr }.

(** The calls a worker makes, and what a completed call has returned:
    [Popped None] is [pop] returning [false], [Popped (Some v)] is [pop]
    returning [true] with [v] in the variable passed as [value]. *)
Inductive op := Push (v : Z) | Pop.
Inductive ret := Pushed (v : Z) | Popped (r : option Z).

(** Where a worker stands.
    - [Idle]: between two calls.
    - [PushLoad v a]: in [push(v)], [new_node = a] constructed, before the
      load of [head].
    - [PushLink v a old_head]: at the top of the [do] body.
    - [PushCas v a old_head]: at the exchange of the [while] condition.
    - [PopTest old_head]: in [pop], at the test of the [while] loop.
    - [PopCas old_head next]: at the exchange.
    - [PopTake old_head]: the exchange has succeeded, before
      [value = old_head->value].
    - [PopDelete old_head]: before [delete old_head].
    - [Crashed]: the worker has accessed or deleted a node that is not
      allocated (undefined behaviour). *)
Inductive pc :=
| Idle
| PushLoad (v : Z) (a : loc)
| PushLink (v : Z) (a : loc) (old_head : ptr)
| PushCas (v : Z) (a : loc) (old_head : ptr)
| PopTest (old_head : ptr)
| PopCas (old_head : loc) (next : ptr)
| PopTake (old_head : loc)
| PopDelete (old_head : loc)
| Crashed.

(** A worker: the calls still to make, where it stands, the content of
    its variable [value] (the argument of [pop]) and the results of the
    calls it has completed, oldest first. *)
Record local := Local { todo : list op; at_pc : pc; out : Z; log : list ret }.

(** What the environment decides for a step: whether an exchange fails
    spuriously, and the address [new] returns. *)
Record choice := Choice { spurious : bool; new_addr : loc }.

Definition goto (l : local) (p : pc) : local := Local (todo l) p (out l) (log l).
Definition finish (l : local) (r : ret) : local := Local (todo l) Idle (out l) (log l ++ [r]).

(** [LockFreeStack::push(value)]: one step of a call.  The worker enters
    at [Idle], where [new Node(value)] runs: [new] returns an address that is
    not allocated (a step choosing an allocated address does not exist) and
    the constructor of [Node] sets [next] to [nullptr]. *)
Definition push (value0 : Z) (e : choice) (s : store) (l : local) : option (store * local) :=
  match at_pc l with
  | Idle =>
      match heap s !! new_addr e with
      | Some _ => None
      | None =>
          Some (Store (<[new_addr e := mkNode value0 None]> (heap s)) (head s),
                goto l (PushLoad value0 (new_addr e)))
      end
  | PushLoad v a => Some (s, goto l (PushLink v a (head s)))
  | PushLink v a old_head =>
      match heap s !! a with
      | None => Some (s, goto l Crashed)
      | Some n =>
          Some (Store (<[a := mkNode (value n) old_head]> (heap s)) (head s),
                goto l (PushCas v a old_head))
      end
  | PushCas v a old_head =>
      match compare_exchange_weak (spurious e) (head s) old_head (Some a) with
      | (h, _, true) => Some (Store (heap s) h, finish l (Pushed v))
      | (h, old_head', false) => Some (Store (heap s) h, goto l (PushLink v a old_head'))
      end
  | _ => None
  end.

(** [LockFreeStack::pop(value)]: one step of a call, entered at [Idle]
    with the load of [head].  The step at [PopTest] reads [old_head->next]
    in the one store of the model: this is what the source reads when no
    other worker has written the node since (see the scope above). *)
Definition pop (e : choice) (s : store) (l : local) : option (store * local) :=
  match at_pc l with
  | Idle => Some (s, goto l (PopTest (head s)))
  | PopTest None => Some (s, finish l (Popped None))
  | PopTest (Some x) =>
      match heap s !! x with
      | None => Some (s, goto l Crashed)
      | Some n => Some (s, goto l (PopCas x (next n)))
      end
  | PopCas x nx =>
      match compare_exchange_weak (spurious e) (head s) (Some x) nx with
      | (h, _, true) => Some (Store (heap s) h, goto l (PopTake x))
      | (h, old_head', false) => Some (Store (heap s) h, goto l (PopTest old_head'))
      end
  | PopTake x =>
      match heap s !! x with
      | None => Some (s, goto l Crashed)
      | Some n => Some (s, Local (todo l) (PopDelete x) (value n) (log l))
      end
  | PopDelete x =>
      match heap s !! x with
      | None => Some (s, goto l Crashed)
      | Some _ => Some (Store (delete x (heap s)) (head s), finish l (Popped (Some (out l))))
      end
  | _ => None
  end.

(** One step of a worker ([worker_push] and [worker_pop] of the source
    make 100'000 calls of one kind each): between two calls it enters the
    next one, inside a call it goes on with it. *)
Definition tstep (e : choice) (s : store) (l : local) : option (store * local) :=
  match at_pc l with
  | Idle =>
      match todo l with
      | [] => None
      | Push v :: rest => push v e s (Local rest Idle (out l) (log l))
      | Pop :: rest => pop e s (Local rest Idle (out l) (log l))
      end
  | PushLoad v _ | PushLink v _ _ | PushCas v _ _ => push v e s l
  | PopTest _ | PopCas _ _ | PopTake _ | PopDelete _ => pop e s l
  | Crashed => None
  end.

(** The stack is constructed empty; each worker is given its calls and
    the indeterminate first content of its variable [value]. *)
Definition init (ws : list (Z * list op)) : config :=
  Config (Store ∅ None) ((λ w, Local w.2 Idle w.1 []) <$> ws).

(** The payloads met by following [next] from a pointer, [None] when the
    walk reaches a node that is not allocated or does not end within
    [fuel] nodes. *)
Fixpoint walk (fuel : nat) (h : gmap loc Node) (p : ptr) : option (list Z) :=
  match p with
  | None => Some []
  | Some x =>
      match fuel with
      | O => None
      | S fuel' => n ← h !! x; (value n ::.) <$> walk fuel' h (next n)
      end
  end.

(** The payloads reachable from [head], top first. *)
Definition contents (s : store) : option (list Z) := walk (size (heap s)) (heap s) (head s).

(** The multisets of conservation: the values returned by the successful
    pops and the values passed to the completed pushes, over all workers. *)
Definition popped_of (rs : list ret) : gmultiset Z :=
  list_to_set_disj (omap (λ r, match r with Popped (Some v) => Some v | _ => None end) rs).
Definition pushed_of (rs : list ret) : gmultiset Z :=
  list_to_set_disj (omap (λ r, match r with Pushed v => Some v | _ => None end) rs).

Definition msum (Xs : list (gmultiset Z)) : gmultiset Z := foldr (⊎) ∅ Xs.

Definition popped (c : @config store local) : gmultiset Z := msum (popped_of ∘ log <$> pool c).
Definition pushed (c : @config store local) : gmultiset Z := msum (pushed_of ∘ log <$> pool c).

(** Every worker has made all its calls (and none has crashed). *)
Definition quiescent (c : @config store local) : Prop :=
  Forall (λ l, at_pc l = Idle ∧ todo l = []) (pool c).

(** *** The sequential stack the workers implement *)

(** The effect of a completed call on the sequence of payloads, top first;
    [None] when a stack with that content cannot return that result. *)
Definition apply (r : ret) (st : list Z) : option (list Z) :=
  match r, st with
  | Pushed v, _ => Some (v :: st)
  | Popped None, [] => Some []
  | Popped (Some v), w :: st' => if decide (v = w) then Some st' else None
  | _, _ => None
  end.

Fixpoint replay (rs : list ret) (st : list Z) : option (list Z) :=
  match rs with
  | [] => Some st
  | r :: rs' => st' ← apply r st; replay rs' st'
  end.

(** The results of a sequence of calls made one after the other. *)
Fixpoint seq_run (ops : list op) (st : list Z) : list ret * list Z :=
  match ops with
  | [] => ([], st)
  | Push v :: ops' => let r := seq_run ops' (v :: st) in (Pushed v :: r.1, r.2)
  | Pop :: ops' =>
      match st with
      | [] => let r := seq_run ops' [] in (Popped None :: r.1, r.2)
      | w :: st' => let r := seq_run ops' st' in (Popped (Some w) :: r.1, r.2)
      end
  end.

Definition op_of (r : ret) : op :=
  match r with Pushed v => Push v | Popped _ => Pop end.

(** The results of thread [t] in a history of the results of all threads. *)
Definition proj (t : nat) (H : list (nat * ret)) : list ret :=
  (filter (λ e, e.1 = t) H).*2.

(** *** The invariant of the runs with a single popping worker *)

(** [is_chain h p L]: following [next] from [p] in [h] meets the nodes
    [L] (address and payload) and then [nullptr]. *)
Fixpoint is_chain (h : gmap loc Node) (p : ptr) (L : list (loc * Z)) : Prop :=
  match L with
  | [] => p = None
  | xv :: L' => p = Some xv.1 ∧ ∃ nx, h !! xv.1 = Some (mkNode xv.2 nx) ∧ is_chain h nx L'
  end.

(** The node a worker holds outside the stack: the one it is pushing, or
    the one it has unlinked. *)
Definition owned (l : local) : option loc :=
  match at_pc l with
  | PushLoad _ a | PushLink _ a _ | PushCas _ a _ => Some a
  | PopTake x | PopDelete x => Some x
  | _ => None
  end.

(** The call in progress. *)
Definition cur_op (p : pc) : list op :=
  match p with
  | Idle | Crashed => []
  | PushLoad v _ | PushLink v _ _ | PushCas v _ _ => [Push v]
  | PopTest _ | PopCas _ _ | PopTake _ | PopDelete _ => [Pop]
  end.

(** The result a [pop] has already taken effect with, before it returns. *)
Definition pending (h : gmap loc Node) (l : local) : list ret :=
  match at_pc l with
  | PopTest None => [Popped None]
  | PopTake x => match h !! x with Some n => [Popped (Some (value n))] | None => [] end
  | PopDelete _ => [Popped (Some (out l))]
  | _ => []
  end.

(** What holds of worker [t], whose calls are [prog], when the stack is
    the chain [L] and the calls have taken effect in the order [H]. *)
Definition thread_ok (prog : list op) (h : gmap loc Node) (L : list (loc * Z))
    (H : list (nat * ret)) (t : nat) (l : local) : Prop :=
  prog = (op_of <$> log l) ++ cur_op (at_pc l) ++ todo l ∧
  proj t H = log l ++ pending h l ∧
  (∀ a, owned l = Some a → is_Some (h !! a) ∧ a ∉ L.*1) ∧
  match at_pc l with
  | PushLoad v a | PushLink v a _ => ∃ nx, h !! a = Some (mkNode v nx)
  | PushCas v a old_head => h !! a = Some (mkNode v old_head)
  | PopTest (Some x) => x ∈ L.*1
  | PopCas x nx => x ∈ L.*1 ∧ ∃ n, h !! x = Some n ∧ next n = nx
  | Crashed => False
  | _ => True
  end.

(** The nodes a worker reads without holding them. *)
Definition observed (l : local) : option loc :=
  match at_pc l with
  | PopTest (Some x) | PopCas x _ => Some x
  | _ => None
  end.

Definition linearised (ws : list (Z * list op)) (c : @config store local) : Prop :=
  ∃ (L : list (loc * Z)) (H : list (nat * ret)),
    is_chain (heap (shared c)) (head (shared c)) L ∧
    NoDup L.*1 ∧
    replay H.*2 [] = Some L.*2 ∧
    (∀ t l, pool c !! t = Some l →
       ∃ w, ws !! t = Some w ∧ thread_ok w.2 (heap (shared c)) L H t l) ∧
    (∀ t1 t2 l1 l2 a, pool c !! t1 = Some l1 → pool c !! t2 = Some l2 →
       owned l1 = Some a → owned l2 = Some a → t1 = t2) ∧
    (∀ e, e ∈ H → (e.1 < length (pool c))%nat).

Lemma is_chain_alloc h p L x : is_chain h p L → x ∈ L.*1 → is_Some (h !! x).
Proof.
  revert p. induction L as [|[y v] L IH]; intros p; simpl.
  - intros _ Hx. by apply elem_of_nil in Hx.
  - intros (-> & nx & Hy & Hch) [->|Hx]%elem_of_cons; eauto.
Qed.

Lemma is_chain_frame h h' p L :
  is_chain h p L → (∀ x, x ∈ L.*1 → h' !! x = h !! x) → is_chain h' p L.
Proof.
  revert p. induction L as [|[y v] L IH]; intros p; simpl; [done|].
  intros (-> & nx & Hy & Hch) Hsame. split; [done|]. exists nx. split.
  - rewrite Hsame; [done|]. apply elem_of_cons. by left.
  - apply IH; [done|]. intros x Hx. apply Hsame. apply elem_of_cons. by right.
Qed.

Lemma thread_ok_frame prog h h' L L' H H' t l :
  thread_ok prog h L H t l →
  (∀ a, owned l = Some a → h' !! a = h !! a ∧ a ∉ L'.*1) →
  (∀ x, observed l = Some x → h' !! x = h !! x ∧ x ∈ L'.*1) →
  proj t H' = proj t H →
  thread_ok prog h' L' H' t l.
Proof.
  intros (Hprog & Hproj & Hown & Hpc) Ho Hobs HH.
  assert (pending h' l = pending h l) as Hpend.
  { unfold pending. destruct (at_pc l) eqn:Hp; try done.
    destruct (Ho old_head) as [-> _]; [|done]. unfold owned. by rewrite Hp. }
  split; [done|]. split; [by rewrite HH, Hpend|]. split.
  - intros a Ha. destruct (Ho a Ha) as [-> ?]. split; [|done]. by apply Hown.
  - unfold owned, observed in *. destruct (at_pc l) as [| | | |[x|]| | | |]; try done.
    + destruct (Ho a) as [-> _]; done.
    + destruct (Ho a) as [-> _]; done.
    + destruct (Ho a) as [-> _]; done.
    + by destruct (Hobs x) as [_ ?].
    + destruct (Hobs old_head) as [-> ?]; [done|]. by destruct Hpc.
Qed.

Lemma thread_ok_observed prog h L H t l x :
  thread_ok prog h L H t l → observed l = Some x → x ∈ L.*1.
Proof.
  intros (_ & _ & _ & Hpc). unfold observed.
  destruct (at_pc l) as [| | | |[y|]| | | |]; try done.
  - by intros [= ->].
  - intros [= ->]. by destruct Hpc.
Qed.

Lemma thread_ok_not_crashed prog h L H t l : thread_ok prog h L H t l → at_pc l ≠ Crashed.
Proof. intros (_ & _ & _ & Hpc) Hc. by rewrite Hc in Hpc. Qed.

Lemma is_chain_None h L : is_chain h None L → L = [].
Proof. destruct L as [|xv L]; [done|]. by intros [? _]. Qed.

Lemma is_chain_Some h x L :
  is_chain h (Some x) L →
  ∃ v nx L', L = (x, v) :: L' ∧ h !! x = Some (mkNode v nx) ∧ is_chain h nx L'.
Proof.
  destruct L as [|[y v] L]; [done|]. simpl. intros ([= ->] & nx & Hy & Hch). eauto 6.
Qed.

Lemma proj_snoc_eq t H r : proj t (H ++ [(t, r)]) = proj t H ++ [r].
Proof.
  unfold proj. rewrite list.filter_app, fmap_app. f_equal.
  rewrite filter_cons_True by done. done.
Qed.

Lemma proj_snoc_ne t t' H r : t' ≠ t → proj t (H ++ [(t', r)]) = proj t H.
Proof.
  intros Hne. unfold proj. rewrite list.filter_app, fmap_app.
  rewrite filter_cons_False by done. simpl. by rewrite app_nil_r.
Qed.

Lemma replay_snoc rs r st : replay (rs ++ [r]) st = replay rs st ≫= apply r.
Proof.
  revert st. induction rs as [|r' rs IH]; intros st; simpl.
  - by destruct (apply r st).
  - destruct (apply r' st) as [st'|]; simpl; [apply IH|done].
Qed.

(** The invariant after a step of thread [t], from what the step
    establishes for [t] and what it keeps for the others. *)
Lemma linearised_update ws (c : @config store local) t l w h' hd' l' L L' H H' :
  pool c !! t = Some l → ws !! t = Some w →
  (∀ t2 l2, pool c !! t2 = Some l2 →
     ∃ w2, ws !! t2 = Some w2 ∧ thread_ok w2.2 (heap (shared c)) L H t2 l2) →
  (∀ t1 t2 l1 l2 a, pool c !! t1 = Some l1 → pool c !! t2 = Some l2 →
     owned l1 = Some a → owned l2 = Some a → t1 = t2) →
  is_chain h' hd' L' → NoDup L'.*1 → replay H'.*2 [] = Some L'.*2 →
  thread_ok w.2 h' L' H' t l' →
  (∀ t2 l2 w2, t2 ≠ t → pool c !! t2 = Some l2 →
     thread_ok w2 (heap (shared c)) L H t2 l2 → thread_ok w2 h' L' H' t2 l2) →
  (∀ a t2 l2, owned l' = Some a → t2 ≠ t → pool c !! t2 = Some l2 → owned l2 ≠ Some a) →
  (∀ e, e ∈ H' → (e.1 < length (pool c))%nat) →
  linearised ws (Config (Store h' hd') (<[t := l']> (pool c))).
Proof.
  intros Hl Hw Hok Hdis Hch Hnd Hrep Hokt Hframe Hnew Htid.
  assert (t < length (pool c))%nat as Hlt by by eapply lookup_lt_Some.
  exists L', H'. simpl. split; [done|]. split; [done|]. split; [done|].
  split; [|split].
  - intros t2 l2 Hl2. destruct (decide (t2 = t)) as [->|Hne].
    + rewrite list_lookup_insert_eq in Hl2 by done. injection Hl2 as <-. eauto.
    + rewrite list_lookup_insert_ne in Hl2 by done.
      destruct (Hok _ _ Hl2) as (w2 & Hw2 & Hok2). eauto.
  - intros t1 t2 l1 l2 a Hl1 Hl2 Ho1 Ho2.
    destruct (decide (t1 = t)) as [->|Hne1], (decide (t2 = t)) as [->|Hne2]; [done|..].
    + rewrite list_lookup_insert_eq in Hl1 by done. injection Hl1 as <-.
      rewrite list_lookup_insert_ne in Hl2 by done. by destruct (Hnew a t2 l2).
    + rewrite list_lookup_insert_eq in Hl2 by done. injection Hl2 as <-.
      rewrite list_lookup_insert_ne in Hl1 by done. by destruct (Hnew a t1 l1).
    + rewrite list_lookup_insert_ne in Hl1, Hl2 by done. eauto.
  - intros e He. rewrite length_insert. auto.
Qed.

Lemma observe_head h hd L (H : list (nat * ret)) t (n : nat) :
  is_chain h hd L → replay H.*2 [] = Some L.*2 →
  (∀ e, e ∈ H → (e.1 < n)%nat) → (t < n)%nat →
  ∃ H', replay H'.*2 [] = Some L.*2 ∧
        proj t H' = proj t H ++ (if hd is None then [Popped None] else []) ∧
        (∀ t2, t2 ≠ t → proj t2 H' = proj t2 H) ∧
        (∀ e, e ∈ H' → (e.1 < n)%nat) ∧
        (∀ x, hd = Some x → x ∈ L.*1).
Proof.
  intros Hch Hrep Htid Ht. destruct hd as [x|].
  - exists H. rewrite app_nil_r. split; [done|]. split; [done|]. split; [done|].
    split; [done|]. intros ? [= <-].
    apply is_chain_Some in Hch as (v & nx & L' & -> & _). simpl. apply elem_of_cons. by left.
  - apply is_chain_None in Hch as ->. exists (H ++ [(t, Popped None)]).
    split; [|split; [|split; [|split]]].
    + rewrite fmap_app. simpl. rewrite replay_snoc, Hrep. done.
    + apply proj_snoc_eq.
    + intros t2 Hne. by apply proj_snoc_ne.
    + intros e [He|He]%elem_of_app; [auto|]. apply list_elem_of_singleton in He as ->. done.
    + done.
Qed.

(** The worker is inside a call of [pop]. *)
Definition in_pop (l : local) : Prop :=
  match at_pc l with
  | PopTest _ | PopCas _ _ | PopTake _ | PopDelete _ => True
  | _ => False
  end.

(** No two calls of [pop] are in progress at the same time. *)
Definition pop_exclusive (c : @config store local) : Prop :=
  ∀ t1 t2 l1 l2, pool c !! t1 = Some l1 → pool c !! t2 = Some l2 →
                 in_pop l1 → in_pop l2 → t1 = t2.

(** Only worker [p] pops. *)
Definition single_popper (ws : list (Z * list op)) (p : nat) : Prop :=
  ∀ t w, ws !! t = Some w → t ≠ p → Pop ∉ w.2.

(** No worker pops. *)
Definition push_only (ws : list (Z * list op)) : Prop :=
  ∀ t w, ws !! t = Some w → Pop ∉ w.2.

(** The workers whose executions are the runs of this model: a single
    worker, or any number of workers that only push. *)
Definition race_free (ws : list (Z * list op)) : Prop :=
  length ws = 1%nat ∨ push_only ws.

Lemma race_free_single_popper ws : race_free ws → single_popper ws 0.
Proof.
  intros [Hlen|Hpush] t w Hw Hne.
  - apply lookup_lt_Some in Hw. lia.
  - by eapply Hpush.
Qed.

Lemma observed_in_pop l x : observed l = Some x → in_pop l.
Proof. unfold observed, in_pop. by destruct (at_pc l) as [| | | |[y|]| | | |]. Qed.

Lemma single_popper_in_pop ws p c t l :
  single_popper ws p → linearised ws c → pool c !! t = Some l → in_pop l → t = p.
Proof.
  intros Hsp (L & H & _ & _ & _ & Hok & _) Hl Hin.
  destruct (Hok _ _ Hl) as (w & Hw & Hprog & _).
  destruct (decide (t = p)) as [|Hne]; [done|].
  exfalso. apply (Hsp t w Hw Hne). rewrite Hprog. unfold in_pop in Hin.
  apply elem_of_app. right. apply elem_of_app. left.
  destruct (at_pc l); try done; apply elem_of_cons; by left.
Qed.

Lemma single_popper_exclusive ws p c :
  single_popper ws p → linearised ws c → pop_exclusive c.
Proof.
  intros Hsp Hlin t1 t2 l1 l2 Hl1 Hl2 Hin1 Hin2.
  by rewrite (single_popper_in_pop ws p c t1 l1), (single_popper_in_pop ws p c t2 l2).
Qed.

(** Workers that only push are never inside a call of [pop]. *)
Lemma push_only_not_in_pop ws c t l :
  push_only ws → linearised ws c → pool c !! t = Some l → ¬ in_pop l.
Proof.
  intros Hpush Hlin Hl Hin.
  assert (t = 0%nat) as H0.
  { eapply (single_popper_in_pop ws 0); [|done..]. intros t' w Hw _. by eapply Hpush. }
  assert (t = 1%nat) as H1.
  { eapply (single_popper_in_pop ws 1); [|done..]. intros t' w Hw _. by eapply Hpush. }
  lia.
Qed.

Ltac frame_others Hothers :=
  let t2 := fresh "t2" in let l2 := fresh "l2" in let w2 := fresh "w2" in
  intros t2 l2 w2 Hne Hl2 Hok2;
  destruct (Hothers _ _ _ Hne Hl2 Hok2) as [Ho1 Ho2];
  eapply thread_ok_frame; [exact Hok2| | |].

Lemma linearised_step ws c e c' :
  pop_exclusive c → linearised ws c → step tstep c e = Some c' → linearised ws c'.
Proof.
  intros Hex (L & H & Hch & Hnd & Hrep & Hok & Hdis & Htid)
         (l & s' & l' & Hl & Ht & ->)%step_Some.
  destruct c as [[h hd] ths]. destruct e as [t e]. simpl in *.
  destruct (Hok _ _ Hl) as (w & Hw & Hokl).
  pose proof Hokl as (Hprog & Hproj & Hown & Hpc).
  assert (t < length ths)%nat as Hlt by by eapply lookup_lt_Some.
  assert (∀ t2 l2 w2, t2 ≠ t → ths !! t2 = Some l2 → thread_ok w2 h L H t2 l2 →
            (∀ a, owned l2 = Some a → is_Some (h !! a) ∧ (a ∉ L.*1) ∧ owned l ≠ Some a) ∧
            (∀ x, observed l2 = Some x → x ∈ L.*1 ∧ is_Some (h !! x))) as Hothers.
  { intros t2 l2 w2 Hne Hl2 Hok2. split.
    - intros a Ha. destruct Hok2 as (_ & _ & Hown2 & _). destruct (Hown2 a Ha).
      split; [done|]. split; [done|]. intros Ha'. apply Hne. eapply Hdis; eauto.
    - intros x Hx. pose proof (thread_ok_observed _ _ _ _ _ _ _ Hok2 Hx).
      split; [done|]. by eapply is_chain_alloc. }
  assert (∀ a t2 l2, owned l = Some a → t2 ≠ t → ths !! t2 = Some l2 → owned l2 ≠ Some a)
    as Hkeep.
  { intros a t2 l2 Ha Hne Hl2 Ha2. apply Hne. eapply Hdis; eauto. }
  unfold tstep, push, pop in Ht. destruct l as [td pc0 o lg]. simpl in *.
  destruct pc0 as [|v a|v a oh|v a oh|[x|]|x nx|x|x|].
  - (* Idle *)
    destruct td as [|[v|] rest]; [done|..].
    + (* new Node(v) *)
      destruct (h !! new_addr e) as [?|] eqn:Hfresh; [done|]. injection Ht as <- <-.
      assert (new_addr e ∉ L.*1) as HaL.
      { intros Hin. apply (is_chain_alloc _ _ _ _ Hch) in Hin. rewrite Hfresh in Hin.
        by destruct Hin. }
      eapply (linearised_update ws (Config (Store h hd) ths) t _ w _ _ _ L L H H
                Hl Hw Hok Hdis); try done.
      * eapply is_chain_frame; [done|]. intros x Hx. apply lookup_insert_ne. congruence.
      * split; [done|]. split; [done|]. split.
        -- unfold owned. simpl. intros ? [= <-]. by rewrite lookup_insert_eq.
        -- simpl. rewrite lookup_insert_eq. eauto.
      * intros t2 l2 w2 Hne Hl2 Hok2. destruct (Hothers _ _ _ Hne Hl2 Hok2) as [Ho1 Ho2].
        eapply thread_ok_frame; [exact Hok2| | |done].
        -- intros a Ha. destruct (Ho1 a Ha) as (Hal & ? & _). split; [|done].
           apply lookup_insert_ne. intros <-. rewrite Hfresh in Hal. by destruct Hal.
        -- intros x Hx. destruct (Ho2 x Hx) as (? & Hal). split; [|done].
           apply lookup_insert_ne. intros <-. rewrite Hfresh in Hal. by destruct Hal.
      * unfold owned at 1. simpl. intros a t2 l2 [= <-] Hne Hl2 Ha.
        destruct (Hok _ _ Hl2) as (w2 & _ & Hok2).
        destruct (Hothers _ _ _ Hne Hl2 Hok2) as [Ho1 _].
        destruct (Ho1 _ Ha) as (Hal & _). rewrite Hfresh in Hal. by destruct Hal.
    + (* pop: the load *)
      injection Ht as <- <-.
      destruct (observe_head h hd L H t (length ths) Hch Hrep Htid Hlt)
        as (H' & Hrep' & Hproj' & Hproj2 & Htid' & Hobs).
      eapply (linearised_update ws (Config (Store h hd) ths) t _ w _ _ _ L L H H'
                Hl Hw Hok Hdis); try done.
      * split; [done|]. split; [|split].
        -- rewrite Hproj', Hproj. unfold pending. simpl. rewrite app_nil_r.
           by destruct hd.
        -- unfold owned. simpl. done.
        -- simpl. destruct hd; [|done]. by apply Hobs.
      * intros t2 l2 w2 Hne Hl2 Hok2. destruct (Hothers _ _ _ Hne Hl2 Hok2) as [Ho1 Ho2].
        eapply thread_ok_frame; [exact Hok2| | |by apply Hproj2].
        -- intros a Ha. by destruct (Ho1 a Ha) as (? & ? & _).
        -- intros x Hx. by destruct (Ho2 x Hx).
  - (* push: the load *)
    injection Ht as <- <-.
    eapply (linearised_update ws (Config (Store h hd) ths) t _ w _ _ _ L L H H Hl Hw Hok Hdis);
      try done.
  - (* new_node->next = old_head *)
    destruct (Hown a eq_refl) as [[n Hn] HaL]. rewrite Hn in Ht. injection Ht as <- <-.
    destruct Hpc as [nx Hpc]. rewrite Hn in Hpc. injection Hpc as ->. simpl.
    eapply (linearised_update ws (Config (Store h hd) ths) t _ w _ _ _ L L H H Hl Hw Hok Hdis);
      try done.
    + eapply is_chain_frame; [done|]. intros x Hx. apply lookup_insert_ne. by intros <-.
    + split; [done|]. split; [done|]. split.
      * intros ? [= <-]. by rewrite lookup_insert_eq.
      * simpl. by rewrite lookup_insert_eq.
    + frame_others Hothers; [| |done].
      * intros a0 Ha0. destruct (Ho1 a0 Ha0) as (? & ? & Hna). split; [|done].
        apply lookup_insert_ne. intros <-. by apply Hna.
      * intros x Hx. destruct (Ho2 x Hx) as (? & ?). split; [|done].
        apply lookup_insert_ne. by intros <-.
  - (* push: the exchange *)
    destruct (Hown a eq_refl) as [_ HaL].
    destruct (compare_exchange_weak (spurious e) hd oh (Some a)) as [[h1 o1] [|]] eqn:Hcas;
      injection Ht as <- <-.
    + apply cas_success in Hcas as (_ & -> & -> & _).
      eapply (linearised_update ws (Config (Store h oh) ths) t _ w _ _ _
                L ((a, v) :: L) H (H ++ [(t, Pushed v)]) Hl Hw Hok Hdis).
      * simpl. split; [done|]. eauto.
      * simpl. apply list.NoDup_cons. done.
      * rewrite fmap_app. simpl. rewrite replay_snoc, Hrep. done.
      * split; [|split; [|split]]; simpl; [| |done..].
        -- rewrite Hprog, fmap_app. simpl. by rewrite <- app_assoc.
        -- rewrite proj_snoc_eq, Hproj. unfold pending. simpl. by rewrite !app_nil_r.
      * frame_others Hothers; [| |by apply proj_snoc_ne].
        -- intros a0 Ha0. destruct (Ho1 a0 Ha0) as (? & ? & Hna). split; [done|].
           simpl. apply not_elem_of_cons. split; [|done]. intros ->. by apply Hna.
        -- intros x Hx. destruct (Ho2 x Hx) as (? & ?). split; [done|].
           simpl. apply elem_of_cons. by right.
      * done.
      * intros e0 [He0|He0]%elem_of_app; [auto|].
        apply list_elem_of_singleton in He0 as ->. done.
    + apply cas_failure in Hcas as (-> & -> & _).
      eapply (linearised_update ws (Config (Store h hd) ths) t _ w _ _ _ L L H H Hl Hw Hok Hdis);
        try done.
      * split; [done|]. split; [done|]. split; [done|]. simpl. eauto.
  - (* pop: old_head->next *)
    destruct (is_chain_alloc _ _ _ _ Hch Hpc) as [n Hn]. rewrite Hn in Ht.
    injection Ht as <- <-.
    eapply (linearised_update ws (Config (Store h hd) ths) t _ w _ _ _ L L H H Hl Hw Hok Hdis);
      try done.
    + split; [done|]. split; [done|]. split; [done|]. simpl. eauto.
  - (* pop: return false *)
    injection Ht as <- <-.
    eapply (linearised_update ws (Config (Store h hd) ths) t _ w _ _ _ L L H H Hl Hw Hok Hdis);
      try done.
    + split; [|split; [|split]]; simpl; [| |done..].
      * rewrite Hprog, fmap_app. simpl. by rewrite <- app_assoc.
      * rewrite Hproj. unfold pending. simpl. by rewrite app_nil_r.
  - (* pop: the exchange *)
    destruct Hpc as (HxL & n & Hn & Hnx).
    destruct (compare_exchange_weak (spurious e) hd (Some x) nx) as [[h1 o1] [|]] eqn:Hcas;
      injection Ht as <- <-.
    + apply cas_success in Hcas as (_ & -> & -> & _).
      apply is_chain_Some in Hch as (v & nx2 & L2 & -> & Hx & Hch2).
      rewrite Hx in Hn. injection Hn as <-. simpl in Hnx. subst nx2.
      simpl in Hnd. apply list.NoDup_cons in Hnd as [HxL2 Hnd2].
      eapply (linearised_update ws (Config (Store h (Some x)) ths) t _ w _ _ _
                ((x, v) :: L2) L2 H (H ++ [(t, Popped (Some v))]) Hl Hw Hok Hdis);
        try done.
      * rewrite fmap_app. simpl. rewrite replay_snoc, Hrep. simpl.
        by rewrite decide_True.
      * split; [done|]. split; [|split]; simpl.
        -- rewrite proj_snoc_eq, Hproj. unfold pending. simpl. rewrite Hx. simpl.
           by rewrite app_nil_r.
        -- unfold owned. simpl. intros ? [= <-]. by rewrite Hx.
        -- done.
      * intros t2 l2 w2 Hne Hl2 Hok2.
        destruct (Hothers _ _ _ Hne Hl2 Hok2) as [Ho1 _].
        eapply thread_ok_frame; [exact Hok2| | |by apply proj_snoc_ne].
        -- intros a0 Ha0. destruct (Ho1 a0 Ha0) as (? & HaL & _). split; [done|].
           intros Hin. apply HaL. simpl. apply elem_of_cons. by right.
        -- intros x0 Hx0%observed_in_pop. exfalso. apply Hne.
           by apply (Hex _ _ _ _ Hl2 Hl).
      * unfold owned at 1. simpl. intros a0 t2 l2 [= <-] Hne Hl2 Ha2.
        destruct (Hok _ _ Hl2) as (w2 & _ & Hok2).
        destruct (Hothers _ _ _ Hne Hl2 Hok2) as [Ho1 _].
        destruct (Ho1 _ Ha2) as (_ & HaL & _). apply HaL. simpl. apply elem_of_cons. by left.
      * intros e0 [He0|He0]%elem_of_app; [auto|].
        apply list_elem_of_singleton in He0 as ->. done.
    + apply cas_failure in Hcas as (-> & -> & _).
      destruct (observe_head h hd L H t (length ths) Hch Hrep Htid Hlt)
        as (H' & Hrep' & Hproj' & Hproj2 & Htid' & Hobs).
      eapply (linearised_update ws (Config (Store h hd) ths) t _ w _ _ _ L L H H' Hl Hw Hok Hdis);
        try done.
      * split; [done|]. split; [|split].
        -- rewrite Hproj', Hproj. unfold pending. simpl. rewrite app_nil_r.
           by destruct hd.
        -- done.
        -- simpl. destruct hd; [|done]. by apply Hobs.
      * frame_others Hothers; [| |by apply Hproj2].
        -- intros a0 Ha0. by destruct (Ho1 a0 Ha0) as (? & ? & _).
        -- intros x0 Hx0. by destruct (Ho2 x0 Hx0).
  - (* value = old_head->value *)
    destruct (Hown x eq_refl) as [[n Hn] HxL]. rewrite Hn in Ht. injection Ht as <- <-.
    eapply (linearised_update ws (Config (Store h hd) ths) t _ w _ _ _ L L H H Hl Hw Hok Hdis);
      try done.
    + split; [done|]. split; [|done]. rewrite Hproj. unfold pending. simpl. by rewrite Hn.
  - (* delete old_head *)
    destruct (Hown x eq_refl) as [[n Hn] HxL]. rewrite Hn in Ht. injection Ht as <- <-.
    eapply (linearised_update ws (Config (Store h hd) ths) t _ w _ _ _ L L H H Hl Hw Hok Hdis);
      try done.
    + eapply is_chain_frame; [done|]. intros y Hy. apply lookup_delete_ne. by intros <-.
    + split; [|split; [|split]]; simpl; [| |done..].
      * rewrite Hprog, fmap_app. simpl. by rewrite <- app_assoc.
      * rewrite Hproj. unfold pending. simpl. by rewrite app_nil_r.
    + frame_others Hothers; [| |done].
      * intros a0 Ha0. destruct (Ho1 a0 Ha0) as (? & ? & Hna). split; [|done].
        apply lookup_delete_ne. intros <-. by apply Hna.
      * intros y Hy. destruct (Ho2 y Hy) as (? & ?). split; [|done].
        apply lookup_delete_ne. by intros <-.
  - done.
Qed.

Lemma linearised_init ws : linearised ws (init ws).
Proof.
  exists [], []. simpl. split; [done|]. split; [constructor|]. split; [done|].
  split; [|split].
  - intros t l Hl. rewrite list_lookup_fmap in Hl.
    destruct (ws !! t) as [w|] eqn:Hw; [|done]. simpl in Hl. injection Hl as <-.
    exists w. split; [done|]. by repeat split.
  - intros t1 t2 l1 l2 a Hl1 _ Ho. rewrite list_lookup_fmap in Hl1.
    destruct (ws !! t1) as [w|]; [|done]. simpl in Hl1. by injection Hl1 as <-.
  - intros e He. by apply elem_of_nil in He.
Qed.

Lemma linearised_run ws p tr c :
  single_popper ws p → run tstep (init ws) tr = Some c → linearised ws c.
Proof.
  intros Hsp Hrun.
  eapply (run_invariant tstep (linearised ws)); [|apply linearised_init|exact Hrun].
  intros c0 e c1 Hlin. apply linearised_step; [|done]. by eapply single_popper_exclusive.
Qed.

(** At an exchange the proposal is the one computed from the expected
    value: the node being pushed is linked to [old_head], and the pointer
    proposed by [pop] is the successor of [old_head]. *)
Lemma proposal_from_observation ws p tr c t l :
  single_popper ws p → run tstep (init ws) tr = Some c →
  pool c !! t = Some l →
  match at_pc l with
  | PushCas v a old_head => heap (shared c) !! a = Some (mkNode v old_head)
  | PopCas x nx => ∃ n, heap (shared c) !! x = Some n ∧ next n = nx
  | _ => True
  end.
Proof.
  intros Hsp Hrun Hl.
  destruct (linearised_run ws p tr c Hsp Hrun) as (L & H & _ & _ & _ & Hok & _).
  destruct (Hok _ _ Hl) as (w & _ & _ & _ & _ & Hpc).
  destruct (at_pc l); try done. by destruct Hpc.
Qed.

(** *** The content of the stack *)

Lemma walk_chain h p L fuel :
  is_chain h p L → (length L ≤ fuel)%nat → walk fuel h p = Some L.*2.
Proof.
  revert p fuel. induction L as [|[x v] L IH]; intros p fuel; simpl.
  - intros -> _. by destruct fuel.
  - intros (-> & nx & Hx & Hch) Hlen. destruct fuel as [|fuel]; [lia|].
    simpl. rewrite Hx. simpl. rewrite (IH nx fuel Hch); [done|lia].
Qed.

Lemma chain_length h p L : is_chain h p L → NoDup L.*1 → (length L ≤ size h)%nat.
Proof.
  intros Hch Hnd. rewrite <- (length_fmap fst L), <- (size_dom (D := gset loc) h).
  rewrite <- (size_list_to_set (C := gset loc) L.*1) by done.
  apply subseteq_size. intros x Hx. rewrite elem_of_list_to_set in Hx.
  apply elem_of_dom. by eapply is_chain_alloc.
Qed.

Lemma contents_chain s L :
  is_chain (heap s) (head s) L → NoDup L.*1 → contents s = Some L.*2.
Proof. intros Hch Hnd. apply walk_chain; [done|]. by eapply chain_length. Qed.

(** *** Nothing is lost, nothing is duplicated *)

Lemma popped_of_cons r rs :
  popped_of (r :: rs) =
  (match r with Popped (Some v) => {[+ v +]} | _ => ∅ end) ⊎ popped_of rs.
Proof. unfold popped_of. destruct r as [v|[v|]]; simpl; multiset_solver. Qed.

Lemma pushed_of_cons r rs :
  pushed_of (r :: rs) =
  (match r with Pushed v => {[+ v +]} | _ => ∅ end) ⊎ pushed_of rs.
Proof. unfold pushed_of. destruct r as [v|[v|]]; simpl; multiset_solver. Qed.

Lemma popped_of_app rs1 rs2 : popped_of (rs1 ++ rs2) = popped_of rs1 ⊎ popped_of rs2.
Proof.
  induction rs1 as [|r rs1 IH]; simpl.
  - unfold popped_of at 2. simpl. multiset_solver.
  - rewrite !popped_of_cons, IH. multiset_solver.
Qed.

Lemma pushed_of_app rs1 rs2 : pushed_of (rs1 ++ rs2) = pushed_of rs1 ⊎ pushed_of rs2.
Proof.
  induction rs1 as [|r rs1 IH]; simpl.
  - unfold pushed_of at 2. simpl. multiset_solver.
  - rewrite !pushed_of_cons, IH. multiset_solver.
Qed.

Lemma replay_conserved rs st0 st :
  replay rs st0 = Some st →
  list_to_set_disj st ⊎ popped_of rs = list_to_set_disj st0 ⊎ pushed_of rs.
Proof.
  revert st0. induction rs as [|r rs IH]; intros st0; simpl.
  - intros [= ->]. done.
  - destruct (apply r st0) as [st1|] eqn:Hap; [|done]. simpl. intros Hrep.
    specialize (IH _ Hrep). rewrite popped_of_cons, pushed_of_cons.
    destruct r as [v|[v|]]; simpl in Hap.
    + injection Hap as <-. simpl in IH. multiset_solver.
    + destruct st0 as [|w st0]; [done|]. case_decide; [|done]. injection Hap as <-.
      subst. simpl. multiset_solver.
    + destruct st0; [|done]. injection Hap as <-. simpl. multiset_solver.
Qed.

Lemma msum_app Xs Ys : msum (Xs ++ Ys) = msum Xs ⊎ msum Ys.
Proof. induction Xs as [|X Xs IH]; simpl; [|rewrite IH]; multiset_solver. Qed.

Lemma msum_fmap_union {A} (f g : A → gmultiset Z) (l : list A) :
  msum ((λ x, f x ⊎ g x) <$> l) = msum (f <$> l) ⊎ msum (g <$> l).
Proof.
  induction l as [|x l IH]; [done|].
  rewrite !fmap_cons. change (msum (?X :: ?Xs)) with (X ⊎ msum Xs). rewrite IH.
  multiset_solver.
Qed.

Lemma msum_fmap_empty {A} (f : A → gmultiset Z) (l : list A) :
  (∀ x, x ∈ l → f x = ∅) → msum (f <$> l) = ∅.
Proof.
  induction l as [|x l IH]; intros Hf; [done|].
  rewrite fmap_cons. change (msum (?X :: ?Xs)) with (X ⊎ msum Xs).
  rewrite Hf, IH; [multiset_solver| |].
  - intros y Hy. apply Hf. apply elem_of_cons. by right.
  - apply elem_of_cons. by left.
Qed.

Section merge.
Variable F : list ret → gmultiset Z.
Hypothesis F_nil : F [] = ∅.
Hypothesis F_cons : ∀ r rs, F (r :: rs) = F [r] ⊎ F rs.

Lemma F_app rs1 rs2 : F (rs1 ++ rs2) = F rs1 ⊎ F rs2.
Proof.
  induction rs1 as [|r rs1 IH]; simpl.
  - rewrite F_nil. multiset_solver.
  - rewrite F_cons, (F_cons r rs1), IH. multiset_solver.
Qed.

Lemma merge_split (n : nat) (H : list (nat * ret)) :
  F (filter (λ e, (e.1 < S n)%nat) H).*2 =
  F (filter (λ e, (e.1 < n)%nat) H).*2 ⊎ F (proj n H).
Proof.
  unfold proj. induction H as [|[t r] H IH].
  - simpl. rewrite F_nil. multiset_solver.
  - rewrite !filter_cons. cbn [fst]. repeat case_decide; try lia;
      rewrite ?fmap_cons; cbn [snd];
      repeat match goal with
             | |- context [F (r :: ?rs)] =>
                 lazymatch rs with [] => fail | _ => rewrite (F_cons r rs) end
             end;
      rewrite IH; multiset_solver.
Qed.

Lemma merge_below (n : nat) (H : list (nat * ret)) :
  F (filter (λ e, (e.1 < n)%nat) H).*2 = msum ((λ t, F (proj t H)) <$> seq 0 n).
Proof.
  induction n as [|n IH].
  - simpl. assert (filter (λ e : nat * ret, (e.1 < 0)%nat) H = []) as ->; [|done].
    induction H as [|e H IHH]; [done|]. rewrite filter_cons_False by lia. done.
  - rewrite merge_split, IH, seq_S, fmap_app, msum_app. simpl. multiset_solver.
Qed.

Lemma merge_logs (ths : list local) (h : gmap loc Node) (H : list (nat * ret)) :
  (∀ t l, ths !! t = Some l → proj t H = log l ++ pending h l) →
  (∀ e, e ∈ H → (e.1 < length ths)%nat) →
  F H.*2 = msum (F ∘ log <$> ths) ⊎ msum (F ∘ pending h <$> ths).
Proof.
  intros Hproj Htid.
  assert (filter (λ e : nat * ret, (e.1 < length ths)%nat) H = H) as HH.
  { clear Hproj. induction H as [|e H IH]; [done|].
    rewrite filter_cons_True by (apply Htid; apply elem_of_cons; by left).
    f_equal. apply IH. intros e' He'. apply Htid. apply elem_of_cons. by right. }
  rewrite <- HH at 1. rewrite merge_below, <- msum_fmap_union. f_equal.
  apply list_eq. intros i. rewrite !list_lookup_fmap.
  destruct (ths !! i) as [l|] eqn:Hl; simpl.
  - rewrite lookup_seq_lt by by eapply lookup_lt_Some. simpl.
    by rewrite (Hproj _ _ Hl), F_app.
  - rewrite lookup_seq_ge; [done|]. by apply lookup_ge_None.
Qed.

End merge.

(** The payloads of the nodes that a [pop] has unlinked and not returned
    yet. *)
Definition in_flight (c : @config store local) : gmultiset Z :=
  msum (popped_of ∘ pending (heap (shared c)) <$> pool c).

Lemma pushed_pending h l : pushed_of (pending h l) = ∅.
Proof.
  unfold pending. destruct (at_pc l) as [| | | |[x|]| |x| |]; try done.
  by destruct (h !! x).
Qed.

Lemma linearised_conserved ws c :
  linearised ws c →
  (∀ l, l ∈ pool c → at_pc l ≠ Crashed) ∧
  ∃ vs, contents (shared c) = Some vs ∧
        list_to_set_disj vs ⊎ popped c ⊎ in_flight c = pushed c.
Proof.
  intros (L & H & Hch & Hnd & Hrep & Hok & _ & Htid). split.
  - intros l (t & Hl)%list_elem_of_lookup. destruct (Hok _ _ Hl) as (w & _ & Hokl).
    by eapply thread_ok_not_crashed.
  - exists L.*2. split; [by apply contents_chain|].
    pose proof (replay_conserved _ _ _ Hrep) as Hcons.
    assert (∀ t l, pool c !! t = Some l →
              proj t H = log l ++ pending (heap (shared c)) l) as Hproj.
    { intros t l Hl. by destruct (Hok _ _ Hl) as (w & _ & _ & ? & _). }
    rewrite (merge_logs popped_of eq_refl (λ r rs, popped_of_app [r] rs) _ _ _ Hproj Htid)
      in Hcons.
    rewrite (merge_logs pushed_of eq_refl (λ r rs, pushed_of_app [r] rs) _ _ _ Hproj Htid)
      in Hcons.
    rewrite (msum_fmap_empty (pushed_of ∘ pending (heap (shared c)))) in Hcons.
    + unfold popped, pushed, in_flight. multiset_solver.
    + intros l _. apply pushed_pending.
Qed.

Lemma quiescent_in_flight c : quiescent c → in_flight c = ∅.
Proof.
  intros Hq. unfold in_flight. apply msum_fmap_empty. intros l Hl.
  unfold quiescent in Hq. rewrite list.Forall_forall in Hq. destruct (Hq l Hl) as [Hpc _].
  unfold pending. simpl. by rewrite Hpc.
Qed.

(** *** The ABA run

    Worker 1 builds the stack 1, 2, 3 (top first) in the nodes 3, 2 and 1.
    Worker 0 starts a [pop]: it observes node 3 and its successor 2, and is
    delayed before its exchange.  Worker 1 pops 1 and 2, which frees the
    nodes 3 and 2, then pushes 4, 5 and 6, for which [new] returns the
    addresses 2, 4 and 3: node 3 is the top again, above node 4.  The
    exchange of worker 0 succeeds on the address 3 and installs 2 as the top:
    node 4, with the payload 5, is not reachable any more. *)

(** Schedule entries: a step of worker [t] whose exchange, if it makes
    one, does not fail spuriously; the step of [t] in which [new] returns
    [a]; a whole [push] and a whole [pop] of a non-empty stack by [t] when no
    other worker interferes. *)
Definition go (t : nat) : nat * choice := (t, Choice false 1%positive).
Definition alloc (t : nat) (a : loc) : nat * choice := (t, Choice false a).

Definition aba_workers : list (Z * list op) :=
  [(0, [Pop]); (0, [Push 3; Push 2; Push 1; Pop; Pop; Push 4; Push 5; Push 6])].

Definition push_alone (t : nat) (a : loc) : list (nat * choice) :=
  [alloc t a; go t; go t; go t].
Definition pop_alone (t : nat) : list (nat * choice) := [go t; go t; go t; go t; go t].

Definition aba_schedule : list (nat * choice) :=
  push_alone 1 1 ++ push_alone 1 2 ++ push_alone 1 3 ++
  [go 0; go 0]%nat ++
  pop_alone 1 ++ pop_alone 1 ++
  push_alone 1 2 ++ push_alone 1 4 ++ push_alone 1 3 ++
  [go 0; go 0; go 0]%nat.

(** C1, the claim as stated fails: at the end of the ABA run every call
    has returned and no worker has crashed, 5 has been pushed and never
    popped, and it is not in the stack. *)
Lemma stack_conservation_aba :
  ∃ c, run tstep (init aba_workers) aba_schedule = Some c ∧
       quiescent c ∧
       (∀ l, l ∈ pool c → at_pc l ≠ Crashed) ∧
       contents (shared c) = Some [4; 3] ∧
       multiplicity 5 (pushed c) = 1%nat ∧
       multiplicity 5 (popped c) = 0%nat ∧
       list_to_set_disj [4; 3] ⊎ popped c ≠ pushed c.
Proof.
  eexists. split; [vm_compute; reflexivity|].
  split; [|split; [|split; [|split; [|split]]]].
  - repeat constructor.
  - intros l Hl. repeat (apply elem_of_cons in Hl as [->|Hl]; [done|]).
    by apply elem_of_nil in Hl.
  - vm_compute. reflexivity.
  - vm_compute. reflexivity.
  - vm_compute. reflexivity.
  - intros Heq. apply (f_equal (multiplicity 5)) in Heq. vm_compute in Heq. discriminate.
Qed.

(** C1 (amended): for a single worker making any calls of [push] and
    [pop], and for any number of workers that only push, in every run (any
    interleaving, whatever addresses [new] returns and whichever exchanges
    fail spuriously) no worker ever accesses a node that is not allocated,
    the nodes reachable from [head] form a finite chain, and the payloads of
    that chain, those returned by the successful pops and those of the nodes
    unlinked by a [pop] that has not returned yet are together exactly the
    payloads of the completed pushes; when every worker has made all its
    calls, the payloads in the stack and the payloads popped are exactly the
    payloads pushed. *)
Theorem stack_conservation ws tr c :
  race_free ws → run tstep (init ws) tr = Some c →
  (∀ l, l ∈ pool c → at_pc l ≠ Crashed) ∧
  ∃ vs, contents (shared c) = Some vs ∧
        list_to_set_disj vs ⊎ popped c ⊎ in_flight c = pushed c ∧
        (quiescent c → list_to_set_disj vs ⊎ popped c = pushed c).
Proof.
  intros Hrf%race_free_single_popper Hrun.
  destruct (linearised_conserved ws c (linearised_run ws 0 tr c Hrf Hrun))
    as [Hsafe (vs & Hvs & Heq)].
  split; [done|]. exists vs. split; [done|]. split; [done|].
  intros Hq. rewrite (quiescent_in_flight c Hq) in Heq. multiset_solver.
Qed.

(** Worker 0 pushes 1 and 3 while worker 1 pushes 2: both have loaded
    [head] when the stack is empty; the exchange of worker 0 succeeds, the
    exchange of worker 1 fails because [head] has changed, and worker 1 links
    its node to the head it has re-observed before its exchange succeeds. *)
Definition pushers : list (Z * list op) := [(0, [Push 1; Push 3]); (0, [Push 2])].

Definition pushers_schedule : list (nat * choice) :=
  [alloc 0 1; alloc 1 2; go 0; go 1; go 0; go 1; go 0; go 1; go 1; go 1;
   alloc 0 3; go 0; go 0; go 0]%nat.

Lemma race_free_pushers : race_free pushers.
Proof.
  right. intros [|[|t]] w Hw; [| |done]; simpl in Hw; injection Hw as <-; simpl;
    intros Hin; repeat (apply elem_of_cons in Hin as [Hin|Hin]; [done|]);
    by apply elem_of_nil in Hin.
Qed.

Lemma stack_conservation_witness :
  race_free pushers ∧
  ∃ c, run tstep (init pushers) pushers_schedule = Some c ∧
       quiescent c ∧
       contents (shared c) = Some [3; 2; 1] ∧
       list_to_set_disj [3; 2; 1] ⊎ popped c = pushed c.
Proof.
  split; [exact race_free_pushers|].
  eexists. split; [vm_compute; reflexivity|].
  split; [repeat constructor|]. split; [vm_compute; reflexivity|].
  match goal with |- _ ⊎ popped ?c = _ =>
    destruct (stack_conservation pushers pushers_schedule c race_free_pushers)
      as [_ (vs & Hvs & _ & Hq)]; [vm_compute; reflexivity|]
  end.
  vm_compute in Hvs. injection Hvs as <-. apply Hq. repeat constructor.
Defined.

(** *** A single worker: the stack is last in, first out *)

Lemma replay_seq_run rs st st' :
  replay rs st = Some st' → seq_run (op_of <$> rs) st = (rs, st').
Proof.
  revert st. induction rs as [|r rs IH]; intros st.
  - simpl. by intros [= ->].
  - rewrite fmap_cons. cbn [replay].
    destruct (apply r st) as [st1|] eqn:Hap; [|done]. cbn [mbind option_bind]. intros Hrep.
    specialize (IH _ Hrep).
    destruct r as [v|[v|]]; simpl in Hap; cbn [op_of seq_run].
    + injection Hap as <-. by rewrite IH.
    + destruct st as [|w st]; [done|]. case_decide; [|done]. injection Hap as <-.
      subst. by rewrite IH.
    + destruct st; [|done]. injection Hap as <-. by rewrite IH.
Qed.

Lemma seq_run_app ops1 ops2 st :
  seq_run (ops1 ++ ops2) st =
  ((seq_run ops1 st).1 ++ (seq_run ops2 (seq_run ops1 st).2).1,
   (seq_run ops2 (seq_run ops1 st).2).2).
Proof.
  revert st. induction ops1 as [|[v|] ops1 IH]; intros st; simpl.
  - by destruct (seq_run ops2 st).
  - by rewrite IH.
  - destruct st as [|w st]; simpl; by rewrite IH.
Qed.

Lemma seq_run_pushes vs st :
  seq_run (Push <$> vs) st = (Pushed <$> vs, reverse vs ++ st).
Proof.
  revert st. induction vs as [|v vs IH]; intros st; simpl; [done|].
  rewrite IH. simpl. by rewrite reverse_cons, <- app_assoc.
Qed.

Lemma seq_run_pops k st :
  seq_run (replicate k Pop) st =
  ((Popped ∘ Some <$> take k st) ++ replicate (k - length st) (Popped None), drop k st).
Proof.
  revert st. induction k as [|k IH]; intros st; simpl.
  - by rewrite drop_0.
  - destruct st as [|w st]; simpl.
    + rewrite IH. simpl. by rewrite take_nil, drop_nil, Nat.sub_0_r.
    + by rewrite IH.
Qed.

Lemma single_worker_sequential junk prog tr c :
  run tstep (init [(junk, prog)]) tr = Some c → quiescent c →
  ∃ l, pool c = [l] ∧ log l = (seq_run prog []).1 ∧
       contents (shared c) = Some (seq_run prog []).2.
Proof.
  intros Hrun Hq.
  assert (single_popper [(junk, prog)] 0) as Hsp.
  { intros [|t] w Hw Hne; [done|]. by destruct t. }
  pose proof (linearised_run _ _ _ _ Hsp Hrun) as (L & H & Hch & Hnd & Hrep & Hok & _ & Htid).
  pose proof (run_length _ _ _ _ Hrun) as Hlen. simpl in Hlen.
  destruct (pool c) as [|l [|]] eqn:Hpool; try done.
  exists l. split; [done|].
  destruct (Hok 0%nat l eq_refl) as (w & [= <-] & Hprog & Hproj & _).
  unfold quiescent in Hq. rewrite Hpool in Hq.
  apply list.Forall_cons in Hq as [[Hpc Htodo] _].
  unfold pending in Hproj. rewrite Hpc in Hproj, Hprog. rewrite Htodo in Hprog.
  simpl in *. rewrite !app_nil_r in *.
  assert (proj 0 H = H.*2) as HH.
  { unfold proj. f_equal. clear -Htid. induction H as [|e H IH]; [done|].
    rewrite filter_cons_True.
    - f_equal. apply IH. intros e' He'. apply Htid. apply elem_of_cons. by right.
    - specialize (Htid e). simpl in Htid.
      assert (e.1 < 1)%nat by (apply Htid; apply elem_of_cons; by left). lia. }
  rewrite HH in Hproj. rewrite Hproj in Hrep.
  apply replay_seq_run in Hrep. rewrite <- Hprog in Hrep. rewrite Hrep. simpl.
  split; [done|]. by apply contents_chain.
Qed.

(** *** A call made without interference *)

Lemma step_thread (c : @config store local) t e l s' l' :
  pool c !! t = Some l → tstep e (shared c) l = Some (s', l') →
  step tstep c (t, e) = Some (Config s' (<[t := l']> (pool c))).
Proof. intros Hl Ht. apply step_Some. by exists l, s', l'. Qed.

Lemma run_push_alone (c : @config store local) t a v rest o lg :
  pool c !! t = Some (Local (Push v :: rest) Idle o lg) →
  heap (shared c) !! a = None →
  run tstep c (push_alone t a) =
    Some (Config (Store (<[a := mkNode v (head (shared c))]> (heap (shared c))) (Some a))
                 (<[t := Local rest Idle o (lg ++ [Pushed v])]> (pool c))).
Proof.
  intros Hl Ha. destruct c as [[h hd] ths]. simpl in *.
  assert (t < length ths)%nat as Hlt by by eapply lookup_lt_Some.
  unfold push_alone, alloc, go. cbn [run].
  erewrite step_thread; [|exact Hl|unfold tstep, push, pop; simpl; by rewrite Ha].
  cbn [mbind option_bind pool shared].
  erewrite step_thread;
    [|cbn [pool]; by apply list_lookup_insert_eq|unfold tstep, push, pop; simpl; done].
  cbn [mbind option_bind pool shared]. rewrite list_insert_insert_eq.
  erewrite step_thread;
    [|cbn [pool]; by apply list_lookup_insert_eq
     |unfold tstep, push, pop; simpl; by rewrite lookup_insert_eq].
  cbn [mbind option_bind pool shared]. rewrite list_insert_insert_eq, insert_insert_eq.
  erewrite step_thread;
    [|cbn [pool]; by apply list_lookup_insert_eq
     |unfold tstep, push, pop, compare_exchange_weak; simpl; by rewrite decide_True].
  cbn [mbind option_bind pool shared]. by rewrite list_insert_insert_eq.
Qed.

Lemma run_pop_alone (c : @config store local) t x n rest o lg :
  pool c !! t = Some (Local (Pop :: rest) Idle o lg) →
  head (shared c) = Some x → heap (shared c) !! x = Some n →
  run tstep c (pop_alone t) =
    Some (Config (Store (delete x (heap (shared c))) (next n))
                 (<[t := Local rest Idle (value n) (lg ++ [Popped (Some (value n))])]> (pool c))).
Proof.
  intros Hl Hhd Hx. destruct c as [[h hd] ths]. simpl in *. subst hd.
  assert (t < length ths)%nat as Hlt by by eapply lookup_lt_Some.
  unfold pop_alone, go. cbn [run].
  erewrite step_thread; [|exact Hl|unfold tstep, push, pop; simpl; done].
  cbn [mbind option_bind pool shared].
  erewrite step_thread;
    [|cbn [pool]; by apply list_lookup_insert_eq|unfold tstep, push, pop; simpl; by rewrite Hx].
  cbn [mbind option_bind pool shared]. rewrite list_insert_insert_eq.
  erewrite step_thread;
    [|cbn [pool]; by apply list_lookup_insert_eq
     |unfold tstep, push, pop, compare_exchange_weak; simpl; by rewrite decide_True].
  cbn [mbind option_bind pool shared]. rewrite list_insert_insert_eq.
  erewrite step_thread;
    [|cbn [pool]; by apply list_lookup_insert_eq|unfold tstep, push, pop; simpl; by rewrite Hx].
  cbn [mbind option_bind pool shared]. rewrite list_insert_insert_eq.
  erewrite step_thread;
    [|cbn [pool]; by apply list_lookup_insert_eq|unfold tstep, push, pop; simpl; by rewrite Hx].
  cbn [mbind option_bind pool shared]. by rewrite list_insert_insert_eq.
Qed.

Lemma run_pop_empty (c : @config store local) t e1 e2 rest o lg :
  pool c !! t = Some (Local (Pop :: rest) Idle o lg) →
  head (shared c) = None →
  run tstep c [(t, e1); (t, e2)] =
    Some (Config (shared c) (<[t := Local rest Idle o (lg ++ [Popped None])]> (pool c))).
Proof.
  intros Hl Hhd. destruct c as [[h hd] ths]. simpl in *. subst hd.
  assert (t < length ths)%nat as Hlt by by eapply lookup_lt_Some.
  cbn [run].
  erewrite step_thread; [|exact Hl|unfold tstep, push, pop; simpl; done].
  cbn [mbind option_bind pool shared].
  erewrite step_thread;
    [|cbn [pool]; by apply list_lookup_insert_eq|unfold tstep, push, pop; simpl; done].
  cbn [mbind option_bind pool shared]. by rewrite list_insert_insert_eq.
Qed.

Lemma single_worker_completes junk prog todo_ :
  ∀ tr0 c o lg,
    run tstep (init [(junk, prog)]) tr0 = Some c →
    pool c = [Local todo_ Idle o lg] →
    ∃ tr c', run tstep (init [(junk, prog)]) tr = Some c' ∧ quiescent c'.
Proof.
  assert (single_popper [(junk, prog)] 0) as Hsp.
  { intros [|t] w Hw Hne; [done|]. by destruct t. }
  induction todo_ as [|[v|] rest IH]; intros tr0 c o lg Hrun Hpool.
  - exists tr0, c. split; [done|]. unfold quiescent. rewrite Hpool. by repeat constructor.
  - set (a := fresh (dom (heap (shared c)))).
    assert (heap (shared c) !! a = None) as Ha.
    { apply not_elem_of_dom. apply is_fresh. }
    eapply (IH (tr0 ++ push_alone 0 a)).
    + rewrite run_app, Hrun. simpl mbind.
      apply (run_push_alone c 0 a v rest o lg); [by rewrite Hpool|done].
    + simpl. by rewrite Hpool.
  - destruct (head (shared c)) as [x|] eqn:Hhd.
    + pose proof (linearised_run _ _ _ _ Hsp Hrun) as (L & H & Hch & _).
      rewrite Hhd in Hch. apply is_chain_Some in Hch as (v & nx & L' & _ & Hx & _).
      eapply (IH (tr0 ++ pop_alone 0)).
      * rewrite run_app, Hrun. simpl mbind.
        apply (run_pop_alone c 0 x (mkNode v nx) rest o lg); [by rewrite Hpool|done|exact Hx].
      * simpl. by rewrite Hpool.
    + eapply (IH (tr0 ++ [go 0; go 0])).
      * rewrite run_app, Hrun. simpl mbind.
        apply (run_pop_empty c 0 _ _ rest o lg); [by rewrite Hpool|done].
      * simpl. by rewrite Hpool.
Qed.

(** C2: a single worker that pushes the values [vs] and then pops [k]
    times can always complete its calls, and whenever it has, in whatever way
    its exchanges failed spuriously and whatever addresses [new] returned,
    its pops have returned the values pushed in reverse order of the pushes
    ([false] once they are exhausted), the remaining ones being in the stack,
    last pushed on top. *)
Theorem stack_lifo (junk : Z) (vs : list Z) (k : nat) :
  (∃ tr c, run tstep (init [(junk, (Push <$> vs) ++ replicate k Pop)]) tr = Some c ∧
           quiescent c) ∧
  (∀ tr c, run tstep (init [(junk, (Push <$> vs) ++ replicate k Pop)]) tr = Some c →
     quiescent c →
     ∃ l, pool c = [l] ∧
          log l = (Pushed <$> vs) ++ (Popped ∘ Some <$> take k (reverse vs)) ++
                  replicate (k - length vs) (Popped None) ∧
          contents (shared c) = Some (drop k (reverse vs))).
Proof.
  split.
  - eapply (single_worker_completes junk _ _ [] _ junk []); [done|done].
  - intros tr c Hrun Hq.
    destruct (single_worker_sequential _ _ _ _ Hrun Hq) as (l & Hp & Hlog & Hc).
    exists l. split; [done|].
    rewrite seq_run_app, seq_run_pushes, app_nil_r in Hlog, Hc. simpl in Hlog, Hc.
    rewrite seq_run_pops in Hlog, Hc. simpl in Hlog, Hc.
    rewrite length_reverse in Hlog. done.
Qed.

(** Push 1, 2, 3 and pop three times; the exchange of the second push
    fails spuriously once and is tried again after the node is linked anew. *)
Definition lifo_schedule : list (nat * choice) :=
  push_alone 0 1 ++
  [alloc 0 2; go 0; go 0; (0%nat, Choice true 1%positive); go 0; go 0] ++
  push_alone 0 3 ++ pop_alone 0 ++ pop_alone 0 ++ pop_alone 0.

Lemma stack_lifo_witness :
  ∃ c l, run tstep (init [(0, [Push 1; Push 2; Push 3; Pop; Pop; Pop])]) lifo_schedule
           = Some c ∧
         quiescent c ∧ pool c = [l] ∧
         log l = [Pushed 1; Pushed 2; Pushed 3;
                  Popped (Some 3); Popped (Some 2); Popped (Some 1)].
Proof.
  eexists. eexists. split; [vm_compute; reflexivity|].
  split; [repeat constructor|].
  match goal with |- pool ?c = _ ∧ _ =>
    destruct (proj2 (stack_lifo 0 [1; 2; 3] 3) lifo_schedule c) as (l & Hp & Hl & _);
      [vm_compute; reflexivity|repeat constructor|]
  end.
  split; [reflexivity|]. reflexivity.
Defined.

(** *** [pop] on the empty stack, and the variable passed to [pop] *)

(** C5: when [head] is [nullptr] and a worker calls [pop] and runs its two
    steps (the load, then the test of the loop), whatever the environment
    decides, the call returns [false] ([Popped None] is logged, and the
    worker has not crashed), the free store and [head] are what they were,
    and so are the variable [value] of the worker and the other workers.
    Whatever the other workers do after the load, a [pop] that has loaded
    [nullptr] returns [false] at its next step without changing the store. *)
Theorem pop_empty (c : @config store local) t e1 e2 rest o lg :
  pool c !! t = Some (Local (Pop :: rest) Idle o lg) →
  head (shared c) = None →
  run tstep c [(t, e1); (t, e2)] =
    Some (Config (shared c) (<[t := Local rest Idle o (lg ++ [Popped None])]> (pool c))) ∧
  (∀ e s, tstep e s (Local rest (PopTest None) o lg) =
            Some (s, Local rest Idle o (lg ++ [Popped None]))).
Proof.
  intros Hl Hhd. split; [by apply run_pop_empty|]. done.
Qed.

Lemma pop_empty_witness :
  run tstep (init [(7, [Pop])]) [go 0; go 0] =
    Some (Config (Store ∅ None) [Local [] Idle 7 [Popped None]]).
Proof.
  exact (proj1 (pop_empty (init [(7, [Pop])]) 0 (Choice false 1) (Choice false 1)
                  [] 7 [] eq_refl eq_refl)).
Defined.

(** What holds of a worker in and after the call it makes from the state
    whose log is [lg0] and whose variable [value] holds [o0]. *)
Definition call_inv (lg0 : list ret) (o0 : Z) (l : local) : Prop :=
  match at_pc l with
  | Idle =>
      (log l = lg0 ∧ out l = o0) ∨
      (∃ r, log l = lg0 ++ [r] ∧ (r = Popped None → out l = o0)) ∨
      (length lg0 + 2 ≤ length (log l))%nat
  | PopTake _ | PopDelete _ | Crashed =>
      log l = lg0 ∨ (length lg0 + 1 ≤ length (log l))%nat
  | _ => (log l = lg0 ∧ out l = o0) ∨ (length lg0 + 1 ≤ length (log l))%nat
  end.

Lemma call_inv_step lg0 o0 e s l s' l' :
  call_inv lg0 o0 l → tstep e s l = Some (s', l') → call_inv lg0 o0 l'.
Proof.
  unfold call_inv, tstep, push, pop. destruct l as [td pc0 o lg]. simpl.
  destruct pc0 as [|v a|v a oh|v a oh|[x|]|x nx|x|x|]; intros Hinv Ht;
    repeat (case_match; simplify_eq); simplify_eq; simpl in *;
    rewrite ?length_app in *; simpl in *;
    try (destruct Hinv as [[-> ->]|[(r & -> & Hr)|Hlen]]);
    try (destruct Hinv as [[-> ->]|Hlen]);
    try (destruct Hinv as [->|Hlen]);
    rewrite ?length_app in *; simpl in *;
    try (by auto); try (right; lia); try (right; right; lia);
    try (right; left; eexists; split; [done|]; done).
Qed.

Lemma call_inv_path lg0 o0 l l' :
  call_inv lg0 o0 l → tpath tstep l l' → call_inv lg0 o0 l'.
Proof.
  intros Hinv Hpath. induction Hpath as [|l e s s' l1 l2 Hstep _ IH]; [done|].
  apply IH. by eapply call_inv_step.
Qed.

(** A call that returns [false] has not written the variable, whatever
    the shared state was at each of its steps. *)
Lemma pop_false_keeps_out l0 l1 :
  at_pc l0 = Idle → tpath tstep l0 l1 → at_pc l1 = Idle →
  log l1 = log l0 ++ [Popped None] → out l1 = out l0.
Proof.
  intros Hpc0 Hpath Hpc1 Hlog.
  assert (call_inv (log l0) (out l0) l0) as Hinv.
  { unfold call_inv. rewrite Hpc0. by left. }
  apply (call_inv_path _ _ _ _ Hinv) in Hpath. unfold call_inv in Hpath.
  rewrite Hpc1 in Hpath. destruct Hpath as [[Heq _]|[(r & Heq & Hr)|Hlen]].
  - rewrite Heq in Hlog. apply (f_equal length) in Hlog.
    rewrite length_app in Hlog. simpl in Hlog. lia.
  - rewrite Heq in Hlog. apply app_inv_head in Hlog. injection Hlog as ->. by apply Hr.
  - rewrite Hlog, length_app in Hlen. simpl in Hlen. lia.
Qed.

(** C10: in every run, from any configuration and whatever the other
    workers do meanwhile, a worker that was between two calls and is so again
    after one more call, a [pop] that has returned [false], has in its
    variable [value] what it had there before the call; the only step of a
    worker that writes this variable is the one that follows a successful
    exchange of [pop], which stores the payload of the node that the exchange
    has unlinked from [head]; in particular a [pop] running without
    interference on a stack whose top node is [x] returns [true] with the
    payload of [x] in the variable, [head] moved to the successor of [x] and
    [x] deleted. *)
Theorem pop_out_param :
  (∀ tr (c c' : @config store local) t l0 l1,
     run tstep c tr = Some c' → pool c !! t = Some l0 → pool c' !! t = Some l1 →
     at_pc l0 = Idle → at_pc l1 = Idle → log l1 = log l0 ++ [Popped None] →
     out l1 = out l0) ∧
  (∀ e s l s' l', tstep e s l = Some (s', l') →
     match at_pc l with
     | PopTake x => ∀ n, heap s !! x = Some n → out l' = value n
     | _ => out l' = out l
     end) ∧
  (∀ e s l s' l' x, tstep e s l = Some (s', l') → at_pc l' = PopTake x →
     ∃ nx, at_pc l = PopCas x nx ∧ head s = Some x ∧ head s' = nx) ∧
  (∀ (c : @config store local) t x n rest o lg,
     pool c !! t = Some (Local (Pop :: rest) Idle o lg) →
     head (shared c) = Some x → heap (shared c) !! x = Some n →
     run tstep c (pop_alone t) =
       Some (Config (Store (delete x (heap (shared c))) (next n))
               (<[t := Local rest Idle (value n) (lg ++ [Popped (Some (value n))])]>
                  (pool c)))).
Proof.
  split; [|split; [|split]].
  - intros tr c c' t l0 l1 Hrun Hl0 Hl1 Hpc0 Hpc1 Hlog.
    apply pop_false_keeps_out; [done| |done..]. by eapply run_tpath.
  - intros e s l s' l'. unfold tstep, push, pop. destruct l as [td pc0 o lg]. simpl.
    destruct pc0 as [|v a|v a oh|v a oh|[x|]|x nx|x|x|]; intros Ht;
      repeat (case_match; simplify_eq); simplify_eq; simpl; try done.
    intros n' [= <-]. done.
  - intros e s l s' l' x. unfold tstep, push, pop. destruct l as [td pc0 o lg]. simpl.
    destruct pc0 as [|v a|v a oh|v a oh|[y|]|y nx|y|y|]; intros Ht Hpc;
      repeat (case_match; simplify_eq); simplify_eq; simpl in *; try done.
    injection Hpc as ->. exists nx.
    match goal with H : compare_exchange_weak _ _ _ _ = _ |- _ =>
      apply cas_success in H as (_ & ? & ? & _) end.
    by subst.
  - intros c t x n rest o lg. apply run_pop_alone.
Qed.

(** A worker whose variable holds 0 pops twice from the stack that holds
    5 alone: the first call leaves 5 in the variable, the second returns
    [false] and leaves the 5 there. *)
Lemma pop_out_param_witness :
  run tstep (Config (Store {[1%positive := mkNode 5 None]} (Some 1%positive))
               [Local [Pop; Pop] Idle 0 []]) (pop_alone 0) =
    Some (Config (Store (delete 1%positive {[1%positive := mkNode 5 None]}) None)
            [Local [Pop] Idle 5 [Popped (Some 5)]]) ∧
  run tstep (Config (Store (delete 1%positive {[1%positive := mkNode 5 None]}) None)
               [Local [Pop] Idle 5 [Popped (Some 5)]]) [go 0; go 0] =
    Some (Config (Store (delete 1%positive {[1%positive := mkNode 5 None]}) None)
            [Local [] Idle 5 [Popped (Some 5); Popped None]]) ∧
  out (Local [] Idle 5 [Popped (Some 5); Popped None]) =
    out (Local [Pop] Idle 5 [Popped (Some 5)]).
Proof.
  split; [|split].
  - exact (proj2 (proj2 (proj2 pop_out_param))
             (Config (Store {[1%positive := mkNode 5 None]} (Some 1%positive))
                [Local [Pop; Pop] Idle 0 []])
             0%nat 1%positive (mkNode 5 None) [Pop] 0 [] eq_refl eq_refl eq_refl).
  - reflexivity.
  - exact (proj1 pop_out_param [go 0; go 0]
             (Config (Store (delete 1%positive {[1%positive := mkNode 5 None]}) None)
                [Local [Pop] Idle 5 [Popped (Some 5)]])
             (Config (Store (delete 1%positive {[1%positive := mkNode 5 None]}) None)
                [Local [] Idle 5 [Popped (Some 5); Popped None]])
             0%nat _ _ eq_refl eq_refl eq_refl eq_refl eq_refl eq_refl).
Defined.

(** *** A [push] followed by a [pop] *)

Lemma run_push_pop_alone (c : @config store local) t a v rest o lg :
  pool c !! t = Some (Local (Push v :: Pop :: rest) Idle o lg) →
  heap (shared c) !! a = None →
  run tstep c (push_alone t a ++ pop_alone t) =
    Some (Config (shared c)
            (<[t := Local rest Idle v (lg ++ [Pushed v; Popped (Some v)])]> (pool c))).
Proof.
  intros Hl Ha.
  assert (t < length (pool c))%nat as Hlt by by eapply lookup_lt_Some.
  rewrite run_app, (run_push_alone c t a v (Pop :: rest) o lg Hl Ha).
  cbn [mbind option_bind].
  erewrite run_pop_alone; cbn [pool shared head heap];
    [|by apply list_lookup_insert_eq|done|by apply lookup_insert_eq].
  cbn [value next]. rewrite list_insert_insert_eq, delete_insert_id by done.
  rewrite <- app_assoc. by destruct c as [[h hd] ths].
Qed.

(** *** Two calls of [pop] that overlap *)

Lemma run_pop_overlap (c : @config store local) t1 t2 x n rest1 rest2 o1 o2 lg1 lg2 :
  t1 ≠ t2 →
  pool c !! t1 = Some (Local (Pop :: rest1) Idle o1 lg1) →
  pool c !! t2 = Some (Local (Pop :: rest2) Idle o2 lg2) →
  head (shared c) = Some x → heap (shared c) !! x = Some n →
  run tstep c (go t1 :: pop_alone t2 ++ [go t1]) =
    Some (Config (Store (delete x (heap (shared c))) (next n))
            (<[t1 := Local rest1 Crashed o1 lg1]>
               (<[t2 := Local rest2 Idle (value n) (lg2 ++ [Popped (Some (value n))])]>
                  (pool c)))).
Proof.
  intros Hne Hl1 Hl2 Hhd Hx. destruct c as [[h hd] ths].
  cbn [shared pool head heap] in *. subst hd.
  assert (t1 < length ths)%nat as Hlt1 by by eapply lookup_lt_Some.
  assert (t2 < length ths)%nat as Hlt2 by by eapply lookup_lt_Some.
  unfold go. cbn [run].
  erewrite step_thread; [|exact Hl1|unfold tstep, push, pop; simpl; done].
  cbn [mbind option_bind pool shared]. rewrite run_app.
  erewrite run_pop_alone; cbn [pool shared head heap];
    [|by rewrite list_lookup_insert_ne|done|exact Hx].
  cbn [mbind option_bind run].
  erewrite step_thread; cbn [pool shared];
    [|rewrite list_lookup_insert_ne by done; by apply list_lookup_insert_eq
     |unfold tstep, push, pop; simpl; by rewrite lookup_delete_eq].
  cbn [mbind option_bind]. do 2 f_equal. unfold goto. simpl.
  rewrite list_insert_insert_ne by done. rewrite list_insert_insert_eq.
  by apply list_insert_insert_ne.
Qed.

(** *** No node is leaked *)

(** Worker-held nodes, and the property that every allocated node is
    either linked in the stack or held by a worker inside a call. *)
Definition held (c : @config store local) (x : loc) : Prop :=
  ∃ t l, pool c !! t = Some l ∧ owned l = Some x.

Definition no_leak (c : @config store local) : Prop :=
  ∀ L x, is_chain (heap (shared c)) (head (shared c)) L →
         is_Some (heap (shared c) !! x) → x ∈ L.*1 ∨ held c x.

Lemma is_chain_inj h p L1 L2 : is_chain h p L1 → is_chain h p L2 → L1 = L2.
Proof.
  revert p L2. induction L1 as [|[x v] L1 IH]; intros p [|[y w] L2]; simpl; try done.
  - by intros -> [? _].
  - by intros [-> _] ?.
  - intros (-> & nx & Hx & H1) ([= <-] & nx' & Hx' & H2).
    rewrite Hx in Hx'. injection Hx' as <- <-. f_equal. by eapply IH.
Qed.

(** The property after a step of thread [t], from the chain of the new
    store and the whereabouts of each node allocated in it. *)
Lemma no_leak_update (c : @config store local) t l h' hd' l' L' :
  pool c !! t = Some l →
  is_chain h' hd' L' →
  (∀ y, is_Some (h' !! y) →
        y ∈ L'.*1 ∨ owned l' = Some y ∨
        ∃ t2 l2, t2 ≠ t ∧ pool c !! t2 = Some l2 ∧ owned l2 = Some y) →
  no_leak (Config (Store h' hd') (<[t := l']> (pool c))).
Proof.
  intros Hl Hch Hall L x Hch' Hx. simpl in *.
  rewrite (is_chain_inj _ _ _ _ Hch' Hch).
  assert (t < length (pool c))%nat as Hlt by by eapply lookup_lt_Some.
  destruct (Hall x Hx) as [?|[Ho|(t2 & l2 & Hne & Hl2 & Ho)]]; [by left|right..].
  - exists t, l'. simpl. by rewrite list_lookup_insert_eq.
  - exists t2, l2. simpl. by rewrite list_lookup_insert_ne.
Qed.

Lemma no_leak_split (c : @config store local) t l L y :
  no_leak c → pool c !! t = Some l →
  is_chain (heap (shared c)) (head (shared c)) L → is_Some (heap (shared c) !! y) →
  y ∈ L.*1 ∨ owned l = Some y ∨
  ∃ t2 l2, t2 ≠ t ∧ pool c !! t2 = Some l2 ∧ owned l2 = Some y.
Proof.
  intros Hnl Hl Hch Hy. destruct (Hnl L y Hch Hy) as [?|(t2 & l2 & Hl2 & Ho)]; [by left|].
  right. destruct (decide (t2 = t)) as [->|Hne].
  - left. rewrite Hl in Hl2. by injection Hl2 as <-.
  - right. eauto.
Qed.

Lemma no_leak_step ws c e c' :
  linearised ws c → no_leak c → step tstep c e = Some c' → no_leak c'.
Proof.
  intros (L & H & Hch & Hnd & Hrep & Hok & Hdis & Htid) Hnl
         (l & s' & l' & Hl & Ht & ->)%step_Some.
  pose proof (λ y, no_leak_split c e.1 l L y Hnl Hl Hch) as Hall.
  destruct c as [[h hd] ths]. destruct e as [t e]. simpl in *.
  destruct (Hok _ _ Hl) as (w & Hw & Hokl).
  pose proof Hokl as (Hprog & Hproj & Hown & Hpc).
  unfold tstep, push, pop in Ht. destruct l as [td pc0 o lg]. simpl in *.
  destruct pc0 as [|v a|v a oh|v a oh|[x|]|x nx|x|x|].
  - (* Idle *)
    destruct td as [|[v|] rest]; [done|..].
    + destruct (h !! new_addr e) as [?|] eqn:Hfresh; [done|]. injection Ht as <- <-.
      apply (no_leak_update (Config (Store h hd) ths) t _ _ _ _ L Hl).
      * eapply is_chain_frame; [done|]. intros x Hx. apply lookup_insert_ne.
        intros <-. apply (is_chain_alloc _ _ _ _ Hch) in Hx. rewrite Hfresh in Hx.
        by destruct Hx.
      * intros y Hy. destruct (decide (y = new_addr e)) as [->|Hne]; [right; by left|].
        rewrite lookup_insert_ne in Hy by done.
        destruct (Hall y Hy) as [?|[?|?]]; [by left|done|by right; right].
    + injection Ht as <- <-.
      apply (no_leak_update (Config (Store h hd) ths) t _ _ _ _ L Hl); [done|].
      intros y Hy. destruct (Hall y Hy) as [?|[?|?]]; [by left|done|by right; right].
  - injection Ht as <- <-.
    apply (no_leak_update (Config (Store h hd) ths) t _ _ _ _ L Hl); [done|]. exact Hall.
  - destruct (Hown a eq_refl) as [[n Hn] HaL]. rewrite Hn in Ht. injection Ht as <- <-.
    apply (no_leak_update (Config (Store h hd) ths) t _ _ _ _ L Hl).
    + eapply is_chain_frame; [done|]. intros x Hx. apply lookup_insert_ne. by intros <-.
    + intros y Hy. apply Hall. destruct (decide (y = a)) as [->|Hne]; [by eexists|].
      by rewrite lookup_insert_ne in Hy.
  - destruct (compare_exchange_weak (spurious e) hd oh (Some a)) as [[h1 o1] [|]] eqn:Hcas;
      injection Ht as <- <-.
    + apply cas_success in Hcas as (_ & -> & -> & _).
      apply (no_leak_update (Config (Store h oh) ths) t _ _ _ _ ((a, v) :: L) Hl).
      * simpl. split; [done|]. eauto.
      * intros y Hy. destruct (Hall y Hy) as [?|[[= <-]|?]].
        -- left. simpl. apply elem_of_cons. by right.
        -- left. simpl. apply elem_of_cons. by left.
        -- by right; right.
    + apply cas_failure in Hcas as (-> & -> & _).
      apply (no_leak_update (Config (Store h hd) ths) t _ _ _ _ L Hl); [done|]. exact Hall.
  - destruct (h !! x) as [n|]; injection Ht as <- <-;
      (apply (no_leak_update (Config (Store h hd) ths) t _ _ _ _ L Hl); [done|]);
      intros y Hy; (destruct (Hall y Hy) as [?|[?|?]]; [by left|done|by right; right]).
  - injection Ht as <- <-.
    apply (no_leak_update (Config (Store h hd) ths) t _ _ _ _ L Hl); [done|].
    intros y Hy. destruct (Hall y Hy) as [?|[?|?]]; [by left|done|by right; right].
  - destruct Hpc as (HxL & n & Hn & Hnx).
    destruct (compare_exchange_weak (spurious e) hd (Some x) nx) as [[h1 o1] [|]] eqn:Hcas;
      injection Ht as <- <-.
    + apply cas_success in Hcas as (_ & -> & -> & _).
      apply is_chain_Some in Hch as (v & nx2 & L2 & -> & Hx & Hch2).
      rewrite Hx in Hn. injection Hn as <-. simpl in Hnx. subst nx2.
      apply (no_leak_update (Config (Store h (Some x)) ths) t _ _ _ _ L2 Hl); [done|].
      intros y Hy. destruct (Hall y Hy) as [Hin|[?|?]]; [|done|by right; right].
      simpl in Hin. apply elem_of_cons in Hin as [->|?]; [right; by left|by left].
    + apply cas_failure in Hcas as (-> & -> & _).
      apply (no_leak_update (Config (Store h hd) ths) t _ _ _ _ L Hl); [done|].
      intros y Hy. destruct (Hall y Hy) as [?|[?|?]]; [by left|done|by right; right].
  - destruct (Hown x eq_refl) as [[n Hn] HxL]. rewrite Hn in Ht. injection Ht as <- <-.
    apply (no_leak_update (Config (Store h hd) ths) t _ _ _ _ L Hl); [done|]. exact Hall.
  - destruct (Hown x eq_refl) as [[n Hn] HxL]. rewrite Hn in Ht. injection Ht as <- <-.
    apply (no_leak_update (Config (Store h hd) ths) t _ _ _ _ L Hl).
    + eapply is_chain_frame; [done|]. intros y Hy. apply lookup_delete_ne. by intros <-.
    + intros y Hy. destruct (decide (y = x)) as [->|Hne].
      { rewrite lookup_delete_eq in Hy. by destruct Hy. }
      rewrite lookup_delete_ne in Hy by done.
      destruct (Hall y Hy) as [?|[[= ?]|?]]; [by left|done|by right; right].
  - done.
Qed.

Lemma no_leak_init ws : no_leak (init ws).
Proof. intros L x _ Hx. simpl in Hx. rewrite lookup_empty in Hx. by destruct Hx. Qed.

Lemma no_leak_run ws p tr c :
  single_popper ws p → run tstep (init ws) tr = Some c →
  linearised ws c ∧ no_leak c.
Proof.
  intros Hsp Hrun.
  eapply (run_invariant tstep (λ c, linearised ws c ∧ no_leak c));
    [|split; [apply linearised_init|apply no_leak_init]|exact Hrun].
  intros c0 e c1 [Hlin Hnl] Hst. split.
  - eapply linearised_step; [|done..]. by eapply single_popper_exclusive.
  - by eapply no_leak_step.
Qed.

(** When no worker holds a node, the free store holds the nodes of the
    chain and nothing else. *)
Lemma no_leak_size (c : @config store local) L :
  no_leak c → (∀ x, ¬ held c x) →
  is_chain (heap (shared c)) (head (shared c)) L → NoDup L.*1 →
  dom (heap (shared c)) = list_to_set (C := gset loc) L.*1 ∧
  size (heap (shared c)) = length L.
Proof.
  intros Hnl Hnone Hch Hnd.
  assert (dom (heap (shared c)) = list_to_set (C := gset loc) L.*1) as Hdom.
  { apply set_eq. intros x. rewrite elem_of_dom, elem_of_list_to_set. split.
    - intros Hx. destruct (Hnl L x Hch Hx) as [?|Hh]; [done|]. by destruct (Hnone x).
    - by apply is_chain_alloc with (head (shared c)). }
  split; [done|].
  rewrite <- size_dom, Hdom, size_list_to_set by done. by rewrite length_fmap.
Qed.

Lemma quiescent_not_held c x : quiescent c → ¬ held c x.
Proof.
  intros Hq (t & l & Hl & Ho). unfold quiescent in Hq. rewrite Forall_lookup in Hq.
  destruct (Hq _ _ Hl) as [Hpc _]. unfold owned in Ho. by rewrite Hpc in Ho.
Qed.

(** *** The destructor *)

(** The last call of the thread has returned [false]. *)
Definition returned_false (l : local) : bool :=
  match list.last (log l) with Some (Popped None) => true | _ => false end.

(** [~LockFreeStack()]: [int dummy; while (pop(dummy)) {}].  Between two
    calls the thread calls [pop] again, unless the last call has returned
    [false]: then the loop, and the destructor, are over. *)
Definition destructor (e : choice) (s : store) (l : local) : option (store * local) :=
  match at_pc l with
  | Idle => if returned_false l then None else pop e s l
  | _ => pop e s l
  end.

(** The thread that runs the destructor, [dummy] holding [d]. *)
Definition destroying (s : store) (d : Z) : config := Config s [Local [] Idle d []].

(** The destructor has returned. *)
Definition destroyed (c : @config store local) : Prop :=
  Forall (λ l, at_pc l = Idle ∧ returned_false l = true) (pool c).

(** What holds while the destructor runs on the chain [L] in the free
    store [h0]: the nodes [D] have been deleted and their payloads returned,
    the nodes [R] are still to delete. *)
Definition draining (h0 : gmap loc Node) (L : list (loc * Z)) (s : store) (l : local) : Prop :=
  ∃ D R, L = D ++ R ∧
    (∀ y, heap s !! y = if decide (y ∈ D.*1) then None else h0 !! y) ∧
    match at_pc l with
    | Idle =>
        is_chain (heap s) (head s) R ∧
        ((log l = Popped ∘ Some <$> D.*2) ∨
         (R = [] ∧ log l = (Popped ∘ Some <$> D.*2) ++ [Popped None]))
    | PopTest oh =>
        is_chain (heap s) (head s) R ∧ oh = head s ∧ log l = Popped ∘ Some <$> D.*2
    | PopCas x nx =>
        is_chain (heap s) (head s) R ∧ head s = Some x ∧
        (∃ n, heap s !! x = Some n ∧ next n = nx) ∧ log l = Popped ∘ Some <$> D.*2
    | PopTake x =>
        ∃ v R', R = (x, v) :: R' ∧ is_chain (heap s) (head s) R' ∧
                (∃ nx, heap s !! x = Some (mkNode v nx)) ∧ log l = Popped ∘ Some <$> D.*2
    | PopDelete x =>
        ∃ v R', R = (x, v) :: R' ∧ is_chain (heap s) (head s) R' ∧
                (∃ nx, heap s !! x = Some (mkNode v nx)) ∧ log l = Popped ∘ Some <$> D.*2 ∧
                out l = v
    | _ => False
    end.

Lemma returned_false_popped (vs : list Z) l :
  log l = Popped ∘ Some <$> vs → returned_false l = false.
Proof.
  intros Hl. unfold returned_false. rewrite Hl.
  destruct vs as [|v vs _] using rev_ind; [done|].
  replace (Popped ∘ Some <$> vs ++ [v]) with ((Popped ∘ Some <$> vs) ++ [Popped (Some v)])
    by (by rewrite fmap_app).
  by rewrite last_snoc.
Qed.

Lemma draining_step h0 L e s l s' l' :
  NoDup L.*1 → draining h0 L s l → destructor e s l = Some (s', l') → draining h0 L s' l'.
Proof.
  intros Hnd (D & R & HL & Hheap & Hpc) Ht.
  unfold destructor, pop in Ht. destruct s as [h hd]. destruct l as [td pc0 o lg].
  simpl in *. destruct pc0 as [|v a|v a oh|v a oh|[x|]|x nx|x|x|]; try done.
  - destruct Hpc as [Hch [Hlog|[-> Hlog]]].
    + rewrite (returned_false_popped D.*2) in Ht by done. injection Ht as <- <-.
      exists D, R. simpl. done.
    + unfold returned_false in Ht. simpl in Ht. by rewrite Hlog, last_snoc in Ht.
  - destruct Hpc as (Hch & <- & Hlog).
    apply is_chain_Some in Hch as Hx. destruct Hx as (v & nx & R' & -> & Hx & Hch').
    rewrite Hx in Ht. injection Ht as <- <-. exists D, ((x, v) :: R'). simpl.
    split; [done|]. split; [done|]. split; [done|]. split; [done|]. split; [|done]. eauto.
  - destruct Hpc as (Hch & <- & Hlog). apply is_chain_None in Hch as Hr. subst R.
    injection Ht as <- <-. exists D, []. simpl. split; [done|]. split; [done|].
    split; [done|]. right. by rewrite Hlog.
  - destruct Hpc as (Hch & -> & (n & Hn & Hnx) & Hlog).
    destruct (compare_exchange_weak (spurious e) (Some x) (Some x) nx) as [[h1 o1] [|]] eqn:Hcas;
      injection Ht as <- <-.
    + apply cas_success in Hcas as (_ & _ & -> & _).
      apply is_chain_Some in Hch as (v & nx2 & R' & -> & Hx & Hch').
      rewrite Hx in Hn. injection Hn as <-. simpl in Hnx. subst nx2.
      exists D, ((x, v) :: R'). simpl. split; [done|]. split; [done|].
      exists v, R'. split; [done|]. split; [done|]. split; [|done]. eauto.
    + apply cas_failure in Hcas as (-> & -> & _).
      exists D, R. simpl. split; [done|]. split; [done|]. done.
  - destruct Hpc as (v & R' & -> & Hch & (nx & Hx) & Hlog).
    rewrite Hx in Ht. injection Ht as <- <-. exists D, ((x, v) :: R'). simpl.
    split; [done|]. split; [done|]. exists v, R'. split; [done|]. split; [done|].
    split; [|done]. eauto.
  - destruct Hpc as (v & R' & -> & Hch & (nx & Hx) & Hlog & ->).
    rewrite Hx in Ht. injection Ht as <- <-.
    assert ((x ∉ D.*1) ∧ (x ∉ R'.*1)) as [HxD HxR].
    { rewrite HL, fmap_app in Hnd. apply list.NoDup_app in Hnd as (_ & Hdis & Hnd).
      simpl in Hnd. apply list.NoDup_cons in Hnd as [? _]. split; [|done].
      intros Hin. apply (Hdis x Hin). simpl. apply elem_of_cons. by left. }
    exists (D ++ [(x, v)]), R'. simpl. split; [by rewrite <- app_assoc|]. split; [|split].
    + intros y. rewrite fmap_app. simpl. destruct (decide (y = x)) as [->|Hne].
      * rewrite lookup_delete_eq. rewrite decide_True; [done|].
        apply elem_of_app. right. apply elem_of_cons. by left.
      * rewrite lookup_delete_ne, Hheap by done.
        destruct (decide (y ∈ D.*1)) as [Hin|Hnin].
        -- rewrite decide_True; [done|]. apply elem_of_app. by left.
        -- rewrite decide_False; [done|]. intros [?|Hy]%elem_of_app; [done|].
           by apply list_elem_of_singleton in Hy.
    + eapply is_chain_frame; [done|]. intros y Hy. apply lookup_delete_ne. by intros <-.
    + left. rewrite Hlog, !fmap_app. done.
Qed.

Definition drain_inv (h0 : gmap loc Node) (L : list (loc * Z)) (c : @config store local)
    : Prop :=
  ∃ l, pool c = [l] ∧ draining h0 L (shared c) l.

Lemma drain_inv_step h0 L c e c' :
  NoDup L.*1 → drain_inv h0 L c → step destructor c e = Some c' → drain_inv h0 L c'.
Proof.
  intros Hnd (l & Hp & Hdr) (l0 & s' & l' & Hl & Ht & ->)%step_Some.
  rewrite Hp in Hl |- *. destruct e as [[|t] e]; [|done]. simpl in *.
  injection Hl as <-. exists l'. split; [done|]. by eapply draining_step.
Qed.

Lemma drain_inv_init s L d :
  is_chain (heap s) (head s) L → drain_inv (heap s) L (destroying s d).
Proof.
  intros Hch. exists (Local [] Idle d []). split; [done|]. exists [], L. simpl.
  split; [done|]. split; [done|]. split; [done|]. by left.
Qed.

(** The destructor on its own: one more call of [pop] on a stack that is
    not empty, and the last call. *)
Lemma destructor_pop (s : store) l x n :
  at_pc l = Idle → returned_false l = false →
  head s = Some x → heap s !! x = Some n →
  run destructor (Config s [l]) (pop_alone 0) =
    Some (Config (Store (delete x (heap s)) (next n))
            [Local (todo l) Idle (value n) (log l ++ [Popped (Some (value n))])]).
Proof.
  intros Hpc Hrf Hhd Hx. destruct s as [h hd]. destruct l as [td pc0 o lg].
  simpl in *. subst.
  unfold pop_alone, go, run, step, destructor, pop, compare_exchange_weak. simpl.
  rewrite Hrf. simpl. rewrite Hx. simpl. rewrite decide_True by done. simpl.
  rewrite Hx. simpl. rewrite Hx. simpl. done.
Qed.

Lemma destructor_last (s : store) l :
  at_pc l = Idle → returned_false l = false → head s = None →
  run destructor (Config s [l]) [go 0; go 0] =
    Some (Config s [Local (todo l) Idle (out l) (log l ++ [Popped None])]).
Proof.
  intros Hpc Hrf Hhd. destruct s as [h hd]. destruct l as [td pc0 o lg].
  simpl in *. subst.
  unfold go, run, step, destructor, pop. simpl. rewrite Hrf. simpl. done.
Qed.

Lemma destructor_finishes (R : list (loc * Z)) :
  ∀ s l, at_pc l = Idle → returned_false l = false → is_chain (heap s) (head s) R →
         NoDup R.*1 →
         ∃ tr c, run destructor (Config s [l]) tr = Some c ∧ destroyed c.
Proof.
  induction R as [|[x v] R IH]; intros s l Hpc Hrf Hch Hnd; simpl in Hch.
  - exists [go 0; go 0]. eexists. split; [by apply destructor_last|].
    constructor; [|constructor]. simpl. split; [done|].
    unfold returned_false. simpl. by rewrite last_snoc.
  - destruct Hch as (Hhd & nx & Hx & Hch). simpl in Hnd.
    apply list.NoDup_cons in Hnd as [HxR Hnd].
    edestruct (IH (Store (delete x (heap s)) nx)
                 (Local (todo l) Idle v (log l ++ [Popped (Some v)])))
      as (tr & c & Hrun & Hd); [done| | |done|].
    + unfold returned_false. simpl. by rewrite last_snoc.
    + simpl. eapply is_chain_frame; [done|]. intros y Hy. apply lookup_delete_ne.
      by intros <-.
    + exists (pop_alone 0 ++ tr), c. split; [|done].
      by rewrite run_app, (destructor_pop s l x (mkNode v nx)).
Qed.

(** What the destructor leaves, in every run that ends with its return. *)
Lemma destructor_result s L d tr c :
  is_chain (heap s) (head s) L → NoDup L.*1 →
  run destructor (destroying s d) tr = Some c →
  (∀ l, l ∈ pool c → at_pc l ≠ Crashed) ∧
  (destroyed c →
   head (shared c) = None ∧
   (∀ y, heap (shared c) !! y = if decide (y ∈ L.*1) then None else heap s !! y) ∧
   ∃ l, pool c = [l] ∧ log l = (Popped ∘ Some <$> L.*2) ++ [Popped None]).
Proof.
  intros Hch Hnd Hrun.
  assert (drain_inv (heap s) L c) as (l & Hp & D & R & HL & Hheap & Hpc).
  { eapply (run_invariant destructor (drain_inv (heap s) L));
      [|by apply drain_inv_init|exact Hrun].
    intros c0 e c1. by apply drain_inv_step. }
  split.
  - intros l0 Hl0. rewrite Hp in Hl0. apply list_elem_of_singleton in Hl0 as ->.
    intros Hc. by rewrite Hc in Hpc.
  - intros Hd. unfold destroyed in Hd. rewrite Hp in Hd.
    apply list.Forall_cons in Hd as [[Hidle Hrf] _]. rewrite Hidle in Hpc.
    destruct Hpc as [Hc [Hlog|[-> Hlog]]].
    + by rewrite (returned_false_popped D.*2) in Hrf.
    + rewrite app_nil_r in HL. subst D. simpl in Hc.
      split; [done|]. split; [done|]. by exists l.
Qed.

(** *** The workers of [main] *)

(** [worker_push] and [worker_pop] making [n] calls each (100'000 in the
    source), and the threads [main] starts: two of each; [junk] is the
    indeterminate first content of the variables [value]. *)
Definition worker_push (n : nat) : list op := Push ∘ Z.of_nat <$> seq 0 n.
Definition worker_pop (n : nat) : list op := replicate n Pop.
Definition main_workers (n : nat) (junk : Z) : list (Z * list op) :=
  [(junk, worker_push n); (junk, worker_push n); (junk, worker_pop n); (junk, worker_pop n)].

(** X6: a [push] followed by a [pop] of the same worker, when no other
    worker takes a step in between, returns the value pushed and leaves the
    free store and [head] exactly as they were. *)
Theorem push_pop_round_trip (c : @config store local) t a v rest o lg :
  pool c !! t = Some (Local (Push v :: Pop :: rest) Idle o lg) →
  heap (shared c) !! a = None →
  run tstep c (push_alone t a ++ pop_alone t) =
    Some (Config (shared c)
            (<[t := Local rest Idle v (lg ++ [Pushed v; Popped (Some v)])]> (pool c))).
Proof. apply run_push_pop_alone. Qed.

Lemma push_pop_round_trip_witness :
  run tstep (Config (Store {[1%positive := mkNode 5 None]} (Some 1%positive))
               [Local [Push 7; Pop] Idle 0 []]) (push_alone 0 2 ++ pop_alone 0) =
    Some (Config (Store {[1%positive := mkNode 5 None]} (Some 1%positive))
            [Local [] Idle 7 [Pushed 7; Popped (Some 7)]]).
Proof.
  exact (push_pop_round_trip
           (Config (Store {[1%positive := mkNode 5 None]} (Some 1%positive))
              [Local [Push 7; Pop] Idle 0 []])
           0%nat 2%positive 7 [] 0 [] eq_refl eq_refl).
Defined.

(** X7: two calls of [pop] that overlap can access a deleted node.  When
    two workers are about to call [pop] on a stack that is not empty and the
    first is delayed after its load of [head] while the second makes its
    whole call, the first then reads [old_head->next] in the node that the
    second has deleted.  The threads that [main] starts have such a run, for
    every positive number of calls per worker. *)
Theorem pop_overlap_use_after_free :
  (∀ (c : @config store local) t1 t2 x n rest1 rest2 o1 o2 lg1 lg2,
     t1 ≠ t2 →
     pool c !! t1 = Some (Local (Pop :: rest1) Idle o1 lg1) →
     pool c !! t2 = Some (Local (Pop :: rest2) Idle o2 lg2) →
     head (shared c) = Some x → heap (shared c) !! x = Some n →
     run tstep c (go t1 :: pop_alone t2 ++ [go t1]) =
       Some (Config (Store (delete x (heap (shared c))) (next n))
               (<[t1 := Local rest1 Crashed o1 lg1]>
                  (<[t2 := Local rest2 Idle (value n) (lg2 ++ [Popped (Some (value n))])]>
                     (pool c))))) ∧
  (∀ n junk, ∃ tr c l,
     run tstep (init (main_workers (S n) junk)) tr = Some c ∧
     pool c !! 2%nat = Some l ∧ at_pc l = Crashed).
Proof.
  split; [exact run_pop_overlap|].
  intros n junk.
  exists (push_alone 0 1 ++ (go 2 :: pop_alone 3 ++ [go 2])). eexists. eexists.
  split; [|split].
  - rewrite run_app.
    erewrite (run_push_alone _ 0 1 0 _ junk []); [|reflexivity|reflexivity].
    cbn [mbind option_bind].
    eapply (run_pop_overlap _ 2 3 1%positive (mkNode 0 None)); [done|reflexivity..].
  - reflexivity.
  - reflexivity.
Qed.

Lemma pop_overlap_use_after_free_witness :
  run tstep (Config (Store {[1%positive := mkNode 5 None]} (Some 1%positive))
               [Local [Pop] Idle 0 []; Local [Pop] Idle 0 []])
      (go 0 :: pop_alone 1 ++ [go 0]) =
    Some (Config (Store (delete 1%positive {[1%positive := mkNode 5 None]}) None)
            [Local [] Crashed 0 []; Local [] Idle 5 [Popped (Some 5)]]).
Proof.
  exact (proj1 pop_overlap_use_after_free
           (Config (Store {[1%positive := mkNode 5 None]} (Some 1%positive))
              [Local [Pop] Idle 0 []; Local [Pop] Idle 0 []])
           0%nat 1%nat 1%positive (mkNode 5 None) [] [] 0 0 [] []
           ltac:(done) eq_refl eq_refl eq_refl eq_refl).
Defined.

(** X8: no node is leaked.  For a single worker making any calls of
    [push] and [pop], and for any number of workers that only push, in every
    run each allocated node is linked in the stack or held by a worker inside
    a call (the node it is pushing, or the one it has unlinked and not
    deleted yet); when every worker has made all its calls, the free store
    holds exactly as many nodes as the stack holds values. *)
Theorem stack_no_leak ws tr c :
  race_free ws → run tstep (init ws) tr = Some c →
  no_leak c ∧
  (quiescent c →
   ∃ vs, contents (shared c) = Some vs ∧ size (heap (shared c)) = length vs).
Proof.
  intros Hrf%race_free_single_popper Hrun.
  destruct (no_leak_run ws 0 tr c Hrf Hrun) as [(L & H & Hch & Hnd & _) Hnl].
  split; [done|]. intros Hq. exists L.*2. split; [by apply contents_chain|].
  rewrite length_fmap. eapply no_leak_size; [done| |done..].
  intros x. by apply quiescent_not_held.
Qed.

(** A worker pushes 1 and 2 and pops 2: the node of 2 is deleted, the
    node of 1 is all that the free store holds. *)
Lemma stack_no_leak_witness :
  ∃ c, run tstep (init [(0, [Push 1; Push 2; Pop])])
         (push_alone 0 1 ++ push_alone 0 2 ++ pop_alone 0) = Some c ∧
       quiescent c ∧
       contents (shared c) = Some [1] ∧ size (heap (shared c)) = 1%nat.
Proof.
  eexists. split; [vm_compute; reflexivity|].
  split; [repeat constructor|]. split; [vm_compute; reflexivity|].
  match goal with |- size (heap (shared ?c)) = _ =>
    destruct (stack_no_leak [(0, [Push 1; Push 2; Pop])]
                (push_alone 0 1 ++ push_alone 0 2 ++ pop_alone 0) c) as [_ Hq];
      [left; reflexivity|vm_compute; reflexivity|]
  end.
  destruct Hq as (vs & Hvs & Hsize); [repeat constructor|].
  vm_compute in Hvs. injection Hvs as <-. exact Hsize.
Defined.

(** X9: the destructor empties the stack.  Run on a store in which [head]
    leads through a chain of distinct nodes to [nullptr], the destructor
    never accesses a node that is not allocated, and it can return; whenever
    it has returned, whatever exchanges failed spuriously, [head] is
    [nullptr], the nodes of the chain are deleted and no other node is
    touched, and its calls of [pop] have returned the payloads of the chain,
    top first, then [false]. *)
Theorem destructor_drains (s : store) (L : list (loc * Z)) (d : Z) :
  is_chain (heap s) (head s) L → NoDup L.*1 →
  (∃ tr c, run destructor (destroying s d) tr = Some c ∧ destroyed c) ∧
  (∀ tr c, run destructor (destroying s d) tr = Some c →
     (∀ l, l ∈ pool c → at_pc l ≠ Crashed) ∧
     (destroyed c →
      head (shared c) = None ∧
      (∀ y, heap (shared c) !! y = if decide (y ∈ L.*1) then None else heap s !! y) ∧
      ∃ l, pool c = [l] ∧ log l = (Popped ∘ Some <$> L.*2) ++ [Popped None])).
Proof.
  intros Hch Hnd. split.
  - by apply (destructor_finishes L).
  - intros tr c. by apply destructor_result.
Qed.

(** A store with the stack 7, 5 and a node outside it. *)
Definition drain_store : store :=
  Store {[1%positive := mkNode 5 None; 2%positive := mkNode 7 (Some 1%positive);
          3%positive := mkNode 9 None]} (Some 2%positive).

Lemma destructor_drains_witness :
  ∃ c, run destructor (destroying drain_store 0)
         (pop_alone 0 ++ pop_alone 0 ++ [go 0; go 0]) = Some c ∧
       destroyed c ∧ head (shared c) = None ∧
       heap (shared c) !! 3%positive = Some (mkNode 9 None) ∧
       heap (shared c) !! 1%positive = None ∧
       ∃ l, pool c = [l] ∧ log l = [Popped (Some 7); Popped (Some 5); Popped None].
Proof.
  eexists. split; [vm_compute; reflexivity|].
  assert (is_chain (heap drain_store) (head drain_store) [(2%positive, 7); (1%positive, 5)])
    as Hch.
  { simpl. split; [done|]. eexists. split; [reflexivity|]. split; [done|].
    eexists. split; [reflexivity|]. done. }
  assert (NoDup [(2%positive, 7); (1%positive, 5)].*1) as Hnd.
  { simpl. apply NoDup_cons_2; [|apply NoDup_cons_2; [|constructor]].
    - intros Hin. apply list_elem_of_singleton in Hin. done.
    - intros Hin. by apply elem_of_nil in Hin. }
  match goal with |- destroyed ?c ∧ _ =>
    destruct (proj2 (destructor_drains drain_store _ 0 Hch Hnd)
                (pop_alone 0 ++ pop_alone 0 ++ [go 0; go 0]) c)
      as [_ Hres]; [vm_compute; reflexivity|]
  end.
  split; [repeat constructor|].
  destruct Hres as (Hhd & Hheap & l & Hp & Hl); [repeat constructor|].
  split; [exact Hhd|]. split; [by rewrite (Hheap 3%positive)|].
  split; [by rewrite (Hheap 1%positive)|]. exists l. split; [exact Hp|exact Hl].
Defined.

(** X10: nothing stays allocated at the end.  When the workers (a single
    worker making any calls of [push] and [pop], or any number of workers
    that only push) have made all their calls, and the destructor is then run
    and returns, the free store is empty, [head] is [nullptr], and the
    destructor has popped what the stack held, top first. *)
Theorem teardown_frees_all ws tr c d tr' c' :
  race_free ws → run tstep (init ws) tr = Some c →
  quiescent c →
  run destructor (destroying (shared c) d) tr' = Some c' → destroyed c' →
  heap (shared c') = ∅ ∧ head (shared c') = None ∧
  ∃ vs l, contents (shared c) = Some vs ∧ pool c' = [l] ∧
          log l = (Popped ∘ Some <$> vs) ++ [Popped None].
Proof.
  intros Hrf%race_free_single_popper Hrun Hq Hrun' Hd.
  destruct (no_leak_run ws 0 tr c Hrf Hrun) as [(L & H & Hch & Hnd & _) Hnl].
  destruct (destructor_result _ L d tr' c' Hch Hnd Hrun') as [_ Hres].
  destruct (Hres Hd) as (Hhd & Hheap & l & Hp & Hl).
  destruct (no_leak_size c L Hnl (λ x, quiescent_not_held c x Hq) Hch Hnd) as [Hdom _].
  split; [|split; [done|]].
  - apply map_empty. intros y. rewrite Hheap. case_decide as Hy; [done|].
    apply not_elem_of_dom. rewrite Hdom. by rewrite elem_of_list_to_set.
  - exists L.*2, l. split; [by apply contents_chain|done].
Qed.

(** The two pushing workers leave 3, 2 and 1 in the stack; the destructor
    pops them and deletes their nodes. *)
Lemma teardown_frees_all_witness :
  ∃ c c', run tstep (init pushers) pushers_schedule = Some c ∧ quiescent c ∧
          run destructor (destroying (shared c) 0)
            (pop_alone 0 ++ pop_alone 0 ++ pop_alone 0 ++ [go 0; go 0]) = Some c' ∧
          destroyed c' ∧ heap (shared c') = ∅.
Proof.
  eexists. eexists. split; [vm_compute; reflexivity|].
  split; [repeat constructor|]. split; [vm_compute; reflexivity|].
  split; [repeat constructor|].
  match goal with |- heap (shared ?c') = ∅ =>
    refine (proj1 (teardown_frees_all pushers pushers_schedule _ 0
                     (pop_alone 0 ++ pop_alone 0 ++ pop_alone 0 ++ [go 0; go 0])
                     c' _ _ _ _ _))
  end.
  - exact race_free_pushers.
  - vm_compute; reflexivity.
  - repeat constructor.
  - vm_compute; reflexivity.
  - repeat constructor.
Defined.

(** X11: a single worker implements the sequential stack.  Whatever calls
    of [push] and [pop] it makes, in whatever order, it can complete them,
    and whenever it has (whatever exchanges failed spuriously and whatever
    addresses [new] returned) the results of its calls and the final content
    of the stack are those of the same calls on a list used as a stack. *)
Theorem single_worker_refines (junk : Z) (prog : list op) :
  (∃ tr c, run tstep (init [(junk, prog)]) tr = Some c ∧ quiescent c) ∧
  (∀ tr c, run tstep (init [(junk, prog)]) tr = Some c → quiescent c →
     ∃ l, pool c = [l] ∧ log l = (seq_run prog []).1 ∧
          contents (shared c) = Some (seq_run prog []).2).
Proof.
  split.
  - eapply (single_worker_completes junk prog prog [] _ junk []); done.
  - intros tr c. apply single_worker_sequential.
Qed.

Definition mixed_schedule : list (nat * choice) :=
  push_alone 0 1 ++ pop_alone 0 ++ [go 0; go 0] ++ push_alone 0 1 ++
  push_alone 0 2 ++ pop_alone 0.

Lemma single_worker_refines_witness :
  ∃ c l, run tstep (init [(0, [Push 1; Pop; Pop; Push 2; Push 3; Pop])]) mixed_schedule
           = Some c ∧
         quiescent c ∧ pool c = [l] ∧
         log l = [Pushed 1; Popped (Some 1); Popped None; Pushed 2; Pushed 3; Popped (Some 3)] ∧
         contents (shared c) = Some [2].
Proof.
  eexists. eexists. split; [vm_compute; reflexivity|].
  split; [repeat constructor|].
  match goal with |- pool ?c = _ ∧ _ =>
    destruct (proj2 (single_worker_refines 0 [Push 1; Pop; Pop; Push 2; Push 3; Pop])
                mixed_schedule c)
      as (l & Hp & Hl & Hc); [vm_compute; reflexivity|repeat constructor|]
  end.
  split; [reflexivity|]. split; [reflexivity|]. vm_compute. reflexivity.
Defined.

(** *** The calls do not block *)

(** The number of steps that a call standing at [p] still takes when [head]
    holds [hd], no other worker takes a step and no exchange fails
    spuriously: an exchange that expects another value than [hd] fails once,
    and the call goes round its loop once more. *)
Definition steps_left (hd : ptr) (p : pc) : nat :=
  match p with
  | Idle | Crashed => 0
  | PushLoad _ _ => 3
  | PushLink _ _ old_head => if decide (old_head = hd) then 2 else 4
  | PushCas _ _ old_head => if decide (old_head = hd) then 1 else 3
  | PopTest None => 1
  | PopTest (Some x) =>
      if decide (hd = Some x) then 4 else 2 + (if hd is None then 1 else 4)
  | PopCas x _ => if decide (hd = Some x) then 3 else 1 + (if hd is None then 1 else 4)
  | PopTake _ => 2
  | PopDelete _ => 1
  end.

(** The head that the worker has observed is the one [head] holds. *)
Definition up_to_date (s : store) (l : local) : Prop :=
  match at_pc l with
  | PushLink _ _ old_head | PushCas _ _ old_head | PopTest old_head => old_head = head s
  | PopCas x _ => head s = Some x
  | _ => True
  end.

Lemma up_to_date_step e s l s' l' :
  tstep e s l = Some (s', l') → up_to_date s l → up_to_date s' l'.
Proof.
  destruct s as [h hd]. destruct l as [td pc0 o lg].
  unfold tstep, push, pop, up_to_date, compare_exchange_weak. simpl.
  destruct pc0 as [|v x|v x oh|v x oh|[x|]|x nx|x|x|]; try done.
  - destruct td as [|[v|] rest]; [done|..]; simpl.
    + destruct (h !! new_addr e); [done|]. by intros [= <- <-].
    + by intros [= <- <-].
  - by intros [= <- <-].
  - destruct (h !! x); by intros [= <- <-].
  - case_decide; [destruct (spurious e)|]; by intros [= <- <-].
  - destruct (h !! x); intros [= <- <-]; simpl; [|done]. by intros [= <-].
  - by intros [= <- <-].
  - case_decide; [destruct (spurious e)|]; by intros [= <- <-].
  - destruct (h !! x); by intros [= <- <-].
  - destruct (h !! x); by intros [= <- <-].
Qed.

(** A single worker has always observed the head that [head] holds. *)
Lemma single_worker_up_to_date ws tr c t l :
  length ws = 1%nat → run tstep (init ws) tr = Some c → pool c !! t = Some l →
  up_to_date (shared c) l.
Proof.
  intros Hlen Hrun.
  assert (length (pool c) = 1%nat ∧
          ∀ t l, pool c !! t = Some l → up_to_date (shared c) l) as [_ Hinv]; [|by apply Hinv].
  eapply (run_invariant tstep
            (λ c, length (pool c) = 1%nat ∧
                  ∀ t l, pool c !! t = Some l → up_to_date (shared c) l));
    [| |exact Hrun].
  - intros c0 e c1 [Hlen0 Hinv0] (l0 & s' & l' & Hl0 & Ht & ->)%step_Some. simpl.
    split; [by rewrite length_insert|]. intros t2 l2 Hl2.
    assert (e.1 < 1)%nat by (rewrite <- Hlen0; by eapply lookup_lt_Some).
    assert (t2 < 1)%nat.
    { apply lookup_lt_Some in Hl2. by rewrite length_insert, Hlen0 in Hl2. }
    assert (t2 = e.1) as -> by lia.
    rewrite list_lookup_insert_eq in Hl2 by lia. injection Hl2 as <-.
    eapply up_to_date_step; [done|]. by eapply Hinv0.
  - simpl. split; [by rewrite length_fmap|]. intros t2 l2 Hl2.
    rewrite list_lookup_fmap in Hl2. destruct (ws !! t2); [|done]. by injection Hl2 as <-.
Qed.

Lemma steps_left_bound s l :
  up_to_date s l ∨ ¬ in_pop l → (steps_left (head s) (at_pc l) ≤ 4)%nat.
Proof.
  unfold steps_left, up_to_date, in_pop.
  destruct (at_pc l) as [| | | |[x|]| | | |]; intros [Hup|Hpop];
    repeat case_decide; try done; try lia; by destruct Hpop.
Qed.

(** A step inside a call, when no exchange fails spuriously: it exists,
    and unless it is an access to a node that is not allocated it is one of
    the steps counted by [steps_left]. *)
Lemma tstep_inside a s l :
  at_pc l ≠ Idle → at_pc l ≠ Crashed →
  ∃ s' l', tstep (Choice false a) s l = Some (s', l') ∧
           todo l' = todo l ∧
           (in_pop l' → in_pop l) ∧
           (at_pc l' ≠ Crashed →
            steps_left (head s) (at_pc l) = S (steps_left (head s') (at_pc l')) ∧
            (at_pc l' = Idle → length (log l') = S (length (log l))) ∧
            (at_pc l' ≠ Idle → log l' = log l)).
Proof.
  intros Hidle Hcr. destruct s as [h hd]. destruct l as [td pc0 o lg].
  unfold tstep, push, pop, in_pop, steps_left, compare_exchange_weak. simpl in *.
  destruct pc0 as [|v x|v x oh|v x oh|[x|]|x nx|x|x|]; try done; simpl.
  - eexists _, _. split; [done|]. simpl. split; [done|]. split; [done|]. intros _.
    rewrite decide_True by done. done.
  - destruct (h !! x) as [n|]; eexists _, _; (split; [done|]); simpl;
      (split; [done|]); (split; [done|]); [|done].
    intros _. split; [by case_decide|done].
  - case_decide as Heq; eexists _, _; (split; [done|]); simpl;
      (split; [done|]); (split; [done|]); intros _.
    + rewrite decide_True by done. split; [done|]. split; [|done].
      intros _. rewrite length_app. simpl. lia.
    + rewrite decide_False by done. rewrite decide_True by done. done.
  - destruct (h !! x) as [n|]; eexists _, _; (split; [done|]); simpl;
      (split; [done|]); (split; [done|]); [|done].
    intros _. split; [by case_decide|done].
  - eexists _, _. split; [done|]. simpl. split; [done|]. split; [done|]. intros _.
    split; [done|]. split; [|done]. intros _. rewrite length_app. simpl. lia.
  - case_decide as Heq; eexists _, _; (split; [done|]); simpl;
      (split; [done|]); (split; [done|]); intros _.
    + done.
    + split; [|done]. destruct hd as [y|]; [|done]. by rewrite decide_True by done.
  - destruct (h !! x) as [n|]; eexists _, _; (split; [done|]); simpl;
      (split; [done|]); (split; [done|]); [|done].
    intros _. done.
  - destruct (h !! x) as [n|]; eexists _, _; (split; [done|]); simpl;
      (split; [done|]); (split; [done|]); [|done].
    intros _. split; [done|]. split; [|done]. intros _. rewrite length_app. simpl. lia.
Qed.

Lemma solo_step ws c t l :
  linearised ws c → pop_exclusive c → pool c !! t = Some l → at_pc l ≠ Idle →
  ∃ c' l', step tstep c (go t) = Some c' ∧ pool c' !! t = Some l' ∧
           linearised ws c' ∧ pop_exclusive c' ∧ todo l' = todo l ∧ at_pc l' ≠ Crashed ∧
           steps_left (head (shared c)) (at_pc l) =
             S (steps_left (head (shared c')) (at_pc l')) ∧
           (at_pc l' = Idle → length (log l') = S (length (log l))) ∧
           (at_pc l' ≠ Idle → log l' = log l) ∧
           (∀ t2, t2 ≠ t → pool c' !! t2 = pool c !! t2).
Proof.
  intros Hlin Hex Hl Hidle.
  assert (at_pc l ≠ Crashed) as Hcr.
  { destruct Hlin as (L & H & _ & _ & _ & Hok & _). destruct (Hok _ _ Hl) as (w & _ & Hokl).
    by eapply thread_ok_not_crashed. }
  assert (t < length (pool c))%nat as Hlt by by eapply lookup_lt_Some.
  destruct (tstep_inside 1%positive (shared c) l Hidle Hcr)
    as (s' & l' & Ht & Htodo & Hpop & Hrest).
  pose proof (step_thread c t _ l s' l' Hl Ht) as Hstep.
  pose proof (linearised_step ws c _ _ Hex Hlin Hstep) as Hlin'.
  assert (at_pc l' ≠ Crashed) as Hcr'.
  { destruct Hlin' as (L & H & _ & _ & _ & Hok & _).
    destruct (Hok t l') as (w & _ & Hokl); [simpl; by apply list_lookup_insert_eq|].
    by eapply thread_ok_not_crashed. }
  destruct (Hrest Hcr') as (Hk & Hlog1 & Hlog2).
  exists (Config s' (<[t := l']> (pool c))), l'. split; [done|].
  split; [simpl; by apply list_lookup_insert_eq|]. split; [done|].
  split; [|split; [done|split; [done|split; [done|split; [done|split; [done|]]]]]].
  - intros t1 t2 l1 l2 Hl1 Hl2 Hin1 Hin2. simpl in Hl1, Hl2.
    destruct (decide (t1 = t)) as [->|Hne1], (decide (t2 = t)) as [->|Hne2]; [done|..].
    + rewrite list_lookup_insert_eq in Hl1 by done. injection Hl1 as <-.
      rewrite list_lookup_insert_ne in Hl2 by done. eapply Hex; eauto.
    + rewrite list_lookup_insert_eq in Hl2 by done. injection Hl2 as <-.
      rewrite list_lookup_insert_ne in Hl1 by done. eapply Hex; eauto.
    + rewrite list_lookup_insert_ne in Hl1, Hl2 by done. eapply Hex; eauto.
  - intros t2 Hne. simpl. by apply list_lookup_insert_ne.
Qed.

Lemma solo_call ws t (n : nat) :
  ∀ c l, linearised ws c → pop_exclusive c → pool c !! t = Some l → at_pc l ≠ Idle →
         steps_left (head (shared c)) (at_pc l) = n →
         ∃ c' l', run tstep c (replicate n (go t)) = Some c' ∧
                  pool c' !! t = Some l' ∧ at_pc l' = Idle ∧ todo l' = todo l ∧
                  length (log l') = S (length (log l)) ∧
                  (∀ t2, t2 ≠ t → pool c' !! t2 = pool c !! t2).
Proof.
  induction n as [|n IH]; intros c l Hlin Hex Hl Hidle Hn;
    destruct (solo_step ws c t l Hlin Hex Hl Hidle)
      as (c1 & l1 & Hstep & Hl1 & Hlin1 & Hex1 & Htodo & Hcr1 & Hk & Hlog1 & Hlog2 & Hothers);
    rewrite Hn in Hk; [done|]. injection Hk as Hk.
  cbn [replicate run]. rewrite Hstep. cbn [mbind option_bind].
  destruct n as [|n'].
  - assert (at_pc l1 = Idle) as Hi1.
    { symmetry in Hk. unfold steps_left in Hk.
      destruct (at_pc l1) as [| | | |[x|]| | | |] eqn:Hp; try done; repeat case_decide;
        try done; destruct (head (shared c1)); done. }
    exists c1, l1. simpl. split; [done|]. split; [done|]. split; [done|]. split; [done|].
    split; [by apply Hlog1|done].
  - assert (at_pc l1 ≠ Idle) as Hi1.
    { intros Hi. rewrite Hi in Hk. done. }
    destruct (IH c1 l1 Hlin1 Hex1 Hl1 Hi1 (eq_sym Hk))
      as (c' & l' & Hrun & Hl' & Hi' & Ht' & Hlen & Ho').
    exists c', l'. split; [done|]. split; [done|]. split; [done|].
    split; [congruence|]. split; [by rewrite Hlen, Hlog2|].
    intros t2 Hne. rewrite Ho' by done. auto.
Qed.

(** X20: the calls of the stack do not block.  For a single worker
    making any calls of [push] and [pop], and for any number of workers that
    only push, in every configuration reached by a run, a worker that is
    inside a call returns from it within four steps of its own when the
    other workers are not scheduled, wherever they stand: its exchange fails
    at most once, because [head] has changed since it was read, and succeeds
    on the value reloaded.  The call then has returned one result, and the
    other workers are where they were. *)
Theorem stack_calls_nonblocking ws tr c t l :
  race_free ws → run tstep (init ws) tr = Some c →
  pool c !! t = Some l → at_pc l ≠ Idle →
  ∃ (n : nat) c' l',
    (n ≤ 4)%nat ∧ run tstep c (replicate n (go t)) = Some c' ∧
    pool c' !! t = Some l' ∧ at_pc l' = Idle ∧ todo l' = todo l ∧
    length (log l') = S (length (log l)) ∧
    (∀ t2, t2 ≠ t → pool c' !! t2 = pool c !! t2).
Proof.
  intros Hrf Hrun Hl Hidle.
  pose proof (race_free_single_popper ws Hrf) as Hsp.
  pose proof (linearised_run ws 0 tr c Hsp Hrun) as Hlin.
  pose proof (single_popper_exclusive ws 0 c Hsp Hlin) as Hex.
  destruct (solo_call ws t _ c l Hlin Hex Hl Hidle eq_refl) as (c' & l' & H).
  exists (steps_left (head (shared c)) (at_pc l)), c', l'.
  split; [|done]. apply steps_left_bound. destruct Hrf as [Hlen|Hpush].
  - left. by eapply single_worker_up_to_date.
  - right. by eapply push_only_not_in_pop.
Qed.

(** Worker 0 has loaded [head] when worker 1 pushes 2: worker 0 links its
    node to the head it has loaded, its exchange fails, it links the node to
    the head it has re-observed and its exchange succeeds, four steps in
    all. *)
Lemma stack_calls_nonblocking_witness :
  ∃ c (n : nat) c' l',
    run tstep (init pushers) ([alloc 0 1; go 0] ++ push_alone 1 2) = Some c ∧
    (n ≤ 4)%nat ∧ run tstep c (replicate n (go 0)) = Some c' ∧
    pool c' !! 0%nat = Some l' ∧ at_pc l' = Idle.
Proof.
  eexists.
  match goal with |- ∃ n c' l', run _ _ _ = Some ?c ∧ _ =>
    destruct (stack_calls_nonblocking pushers ([alloc 0 1; go 0] ++ push_alone 1 2) c 0%nat
                (Local [Push 3] (PushLink 1 1 None) 0 []))
      as (n & c' & l' & Hn & Hrun & Hl' & Hi & _)
  end.
  - exact race_free_pushers.
  - vm_compute. reflexivity.
  - reflexivity.
  - done.
  - exists n, c', l'. split; [vm_compute; reflexivity|]. done.
Defined.

End Stack.

(** ** src/07_producer_consumer.cpp: the release/acquire handshake

    In an interleaving of atomic steps on one store every load returns the
    last value stored, and the memory orders make no difference.  To give
    them their meaning the store of this module keeps, for each of the two
    shared objects, all the values written to it in modification order, and
    each thread has a view: for each object the position of the latest write
    it is aware of.  A load may return the write at the position of the view
    or any later one (never an older one) and moves the view there; a store
    adds a write after all others.  A store with [memory_order_release]
    attaches the view of the storing thread to the write, and a load with
    [memory_order_acquire] that reads this write joins the attached view to
    the view of the loading thread; a relaxed load does not.  Only the view
    of [data] matters here, [ready] being the only atomic object. *)

Module Handshake.

Inductive memory_order := relaxed | acquire.

(** The writes to [data], and the writes to [ready] each with the position
    in [data] that the storing thread had seen. *)
Record memory := Memory { data : list Z; ready : list (bool * nat) }.

Record view := View { seen_data : nat; seen_ready : nat }.

(** [producer]: before [data = 42], before the store to [ready], returned.
    A consumer, with the memory order of its load: at the load of its
    [while] loop, after the loop before it reads [data], and once it has
    read [d] from [data]. *)
Inductive pc :=
| PSetup | PSignal | PDone
| CWait (mo : memory_order) | CUse (mo : memory_order) | CDone (d : Z).

Record thread := Thread { at_pc : pc; cur : view }.

(** [producer()]: [data = 42] adds a write to [data], which the producer
    has then seen; [ready.store(true, std::memory_order_release)] adds a
    write to [ready] that carries the producer's view of [data].  (The
    sleep before them changes nothing in memory.) *)
Definition producer (m : memory) (th : thread) : option (memory * thread) :=
  match at_pc th with
  | PSetup =>
      Some (Memory (data m ++ [42]) (ready m),
            Thread PSignal (View (length (data m)) (seen_ready (cur th))))
  | PSignal =>
      Some (Memory (data m) (ready m ++ [(true, seen_data (cur th))]),
            Thread PDone (View (seen_data (cur th)) (length (ready m))))
  | _ => None
  end.

(** A consumer whose load of [ready] has the order [mo]; [i] is the
    position of the write that the load of the step reads. *)
Definition consumer (mo : memory_order) (i : nat) (m : memory) (th : thread)
    : option (memory * thread) :=
  match at_pc th with
  | CWait _ =>
      if decide (seen_ready (cur th) ≤ i)%nat then
        match ready m !! i with
        | Some (b, released) =>
            Some (m, Thread (match b with true => CUse mo | false => CWait mo end)
                            (View (match mo with
                                   | acquire => seen_data (cur th) `max` released
                                   | relaxed => seen_data (cur th)
                                   end) i))
        | None => None
        end
      else None
  | CUse _ =>
      if decide (seen_data (cur th) ≤ i)%nat then
        match data m !! i with
        | Some d => Some (m, Thread (CDone d) (View i (seen_ready (cur th))))
        | None => None
        end
      else None
  | _ => None
  end.

Definition consumer_correct : nat → memory → thread → option (memory * thread) :=
  consumer acquire.
Definition consumer_broken : nat → memory → thread → option (memory * thread) :=
  consumer relaxed.

(** One step of a thread. *)
Definition hstep (i : nat) (m : memory) (th : thread) : option (memory * thread) :=
  match at_pc th with
  | PSetup | PSignal | PDone => producer m th
  | CWait acquire | CUse acquire => consumer_correct i m th
  | CWait relaxed | CUse relaxed => consumer_broken i m th
  | CDone _ => None
  end.

(** [main] writes 0 to [data] and [false] to [ready] before it starts
    the producer and a consumer, which both have seen these writes. *)
Definition init (mo : memory_order) : config :=
  Config (Memory [0] [(false, 0%nat)])
         [Thread PSetup (View 0 0); Thread (CWait mo) (View 0 0)].

Definition producer_ok (m : memory) (p : thread) : Prop :=
  match at_pc p with
  | PSetup => data m = [0] ∧ ready m = [(false, 0%nat)]
  | PSignal => data m = [0; 42] ∧ ready m = [(false, 0%nat)] ∧ seen_data (cur p) = 1%nat
  | PDone => data m = [0; 42] ∧ ready m = [(false, 0%nat); (true, 1%nat)]
  | _ => False
  end.

Definition consumer_ok (m : memory) (q : thread) : Prop :=
  match at_pc q with
  | CWait acquire => True
  | CUse acquire => data m = [0; 42] ∧ (1 ≤ seen_data (cur q))%nat
  | CDone d => d = 42
  | _ => False
  end.

Definition handshake_inv (c : @config memory thread) : Prop :=
  ∃ p q, pool c = [p; q] ∧ producer_ok (shared c) p ∧ consumer_ok (shared c) q.

Lemma handshake_inv_step c e c' :
  handshake_inv c → step hstep c e = Some c' → handshake_inv c'.
Proof.
  intros (p & q & Hpool & Hp & Hq) (th & m' & th' & Hth & Ht & ->)%step_Some.
  unfold producer_ok, consumer_ok in *.
  destruct c as [[dt rd] ths]. destruct e as [[|[|t]] i]; simpl in *; subst ths;
    simpl in Hth; [| |done]; injection Hth as <-;
    unfold hstep, consumer_correct, consumer_broken, consumer, producer in Ht.
  - (* the producer *)
    destruct p as [[| | | | |] vp]; simpl in *; try done.
    + destruct Hp as [-> ->]. injection Ht as <- <-.
      exists (Thread PSignal (View 1 (seen_ready vp))), q. split; [done|]. split; [done|].
      unfold consumer_ok. simpl.
      destruct (at_pc q) as [| | |[|]|[|]|]; try done; by destruct Hq.
    + destruct Hp as (-> & -> & Hv). injection Ht as <- <-.
      exists (Thread PDone (View (seen_data vp) 1)), q. split; [done|].
      split; [by rewrite Hv|]. done.
  - (* the consumer *)
    destruct q as [[| | |[|]|[|]|] vq]; simpl in *; try done.
    + case_decide; [|done].
      destruct (rd !! i) as [[b r]|] eqn:Hi; [|done]. injection Ht as <- <-. simpl.
      exists p, (Thread (if b then CUse acquire else CWait acquire)
                        (View (seen_data vq `max` r) i)).
      split; [by destruct b|]. split; [done|]. destruct b; [|done].
      unfold consumer_ok. simpl. destruct (at_pc p); try done.
      * destruct Hp as [_ ->]. by destruct i as [|[|]].
      * destruct Hp as (_ & -> & _). by destruct i as [|[|]].
      * destruct Hp as [-> ->]. destruct i as [|[|[|]]]; try done.
        injection Hi as <-. split; [done|lia].
    + destruct Hq as [-> Hv]. case_decide; [|done].
      destruct i as [|[|[|]]]; try done; [lia|]. injection Ht as <- <-.
      exists p, (Thread (CDone 42) (View 1 (seen_ready vq))). done.
Qed.

(** The run of [main]'s second test in which [consumer_broken] reads the
    stale 0: its relaxed load returns [true] without the view of [data]. *)
Lemma consumer_broken_stale :
  run hstep (init relaxed) [(0, 0); (0, 0); (1, 1); (1, 0)]%nat =
    Some (Config (Memory [0; 42] [(false, 0%nat); (true, 1%nat)])
                 [Thread PDone (View 1 1); Thread (CDone 0) (View 0 1)]).
Proof. reflexivity. Qed.

(** C6: with the acquire load, in every run, once the consumer has left
    its loop (its load has returned the [true] stored by the producer) the
    write [data = 42] that precedes the release store is in its view: the
    history of [data] is 0 then 42, the view of the consumer is at 42, and
    the value the consumer then reads from [data] is 42, never the older 0;
    and there is a run in which it gets there. *)
Theorem handshake_visibility :
  (∀ tr c q, run hstep (init acquire) tr = Some c → pool c !! 1%nat = Some q →
     match at_pc q with
     | CUse _ => data (shared c) = [0; 42] ∧ (1 ≤ seen_data (cur q))%nat ∧
                 ∀ i m' q', hstep i (shared c) q = Some (m', q') → at_pc q' = CDone 42
     | CDone d => d = 42
     | _ => True
     end) ∧
  (∃ tr c q, run hstep (init acquire) tr = Some c ∧ pool c !! 1%nat = Some q ∧
             at_pc q = CDone 42).
Proof.
  split.
  - intros tr c q Hrun Hq.
    assert (handshake_inv c) as (p & q' & Hpool & Hp & Hok).
    { eapply (run_invariant hstep handshake_inv); [apply handshake_inv_step| |exact Hrun].
      exists (Thread PSetup (View 0 0)), (Thread (CWait acquire) (View 0 0)). done. }
    rewrite Hpool in Hq. injection Hq as ->. unfold consumer_ok in Hok.
    destruct (at_pc q) as [| | | |[|]|d] eqn:Hpc; try done.
    destruct Hok as [Hd Hv]. split; [done|]. split; [done|].
    intros i m' q'' Ht.
    unfold hstep, consumer_correct, consumer in Ht. rewrite Hpc, Hd in Ht.
    case_decide; [|done]. destruct i as [|[|[|]]]; try done; [lia|].
    by injection Ht as <- <-.
  - exists [(0, 0); (1, 0); (0, 0); (1, 1); (1, 1)]%nat. eexists _, _.
    split; [reflexivity|]. split; reflexivity.
Qed.

(** The run in which the consumer polls once too early. *)
Lemma handshake_visibility_witness :
  run hstep (init acquire) [(0, 0); (1, 0); (0, 0); (1, 1); (1, 1)]%nat =
    Some (Config (Memory [0; 42] [(false, 0%nat); (true, 1%nat)])
                 [Thread PDone (View 1 1); Thread (CDone 42) (View 1 1)]) ∧
  42 = 42.
Proof.
  split; [reflexivity|].
  exact (proj1 handshake_visibility [(0, 0); (1, 0); (0, 0); (1, 1); (1, 1)]%nat
           (Config (Memory [0; 42] [(false, 0%nat); (true, 1%nat)])
                   [Thread PDone (View 1 1); Thread (CDone 42) (View 1 1)])
           (Thread (CDone 42) (View 1 1)) eq_refl eq_refl).
Defined.

(** *** Both consumers *)

(** What holds of a consumer of either kind: it is past its loop only when
    the producer has returned, what it has read from [data] is one of the two
    values written there, and its view is inside the histories. *)
Definition consumer_sound (m : memory) (p q : thread) : Prop :=
  (seen_ready (cur q) < length (ready m))%nat ∧
  (seen_data (cur q) < length (data m))%nat ∧
  match at_pc q with
  | CWait _ => True
  | CUse _ => at_pc p = PDone
  | CDone d => at_pc p = PDone ∧ (d = 0 ∨ d = 42)
  | _ => False
  end.

(** The consumer keeps the memory order it was started with. *)
Definition order_of (q : thread) : option memory_order :=
  match at_pc q with
  | CWait mo | CUse mo => Some mo
  | _ => None
  end.

Definition sound_inv (mo : memory_order) (c : @config memory thread) : Prop :=
  ∃ p q, pool c = [p; q] ∧ producer_ok (shared c) p ∧ consumer_sound (shared c) p q ∧
         (∀ mo', order_of q = Some mo' → mo' = mo).

Lemma sound_inv_init mo : sound_inv mo (init mo).
Proof.
  exists (Thread PSetup (View 0 0)), (Thread (CWait mo) (View 0 0)).
  split; [done|]. split; [done|]. split.
  - unfold consumer_sound. simpl. split; [lia|]. split; [lia|done].
  - by intros mo' [= <-].
Qed.

Lemma sound_inv_step mo c e c' :
  sound_inv mo c → step hstep c e = Some c' → sound_inv mo c'.
Proof.
  intros (p & q & Hpool & Hp & (Hvr & Hvd & Hq) & Hmo) (th & m' & th' & Hth & Ht & ->)%step_Some.
  unfold producer_ok, consumer_sound in *.
  destruct c as [[dt rd] ths]. destruct e as [[|[|t]] i]; simpl in *; subst ths;
    simpl in Hth; [| |done]; injection Hth as <-;
    unfold hstep, consumer_correct, consumer_broken, consumer, producer in Ht.
  - (* the producer *)
    destruct p as [[| | | | |] vp]; simpl in *; try done.
    + destruct Hp as [-> ->]. injection Ht as <- <-.
      exists (Thread PSignal (View 1 (seen_ready vp))), q. split; [done|]. split; [done|].
      split; [|done]. unfold consumer_sound. simpl in *. split; [lia|]. split; [lia|].
      destruct (at_pc q); try done. by destruct Hq.
    + destruct Hp as (-> & -> & Hv). injection Ht as <- <-.
      exists (Thread PDone (View (seen_data vp) 1)), q. split; [done|].
      split; [by rewrite Hv|]. split; [|done]. unfold consumer_sound. simpl in *.
      split; [lia|]. split; [lia|].
      destruct (at_pc q); try done. by destruct Hq.
  - (* the consumer *)
    assert (∀ b r, rd !! i = Some (b, r) →
              (r < length dt)%nat ∧ (b = true → at_pc p = PDone)) as Hrd.
    { intros b r Hi. destruct (at_pc p); try done.
      - destruct Hp as [-> ->]. destruct i as [|[|]]; try done. injection Hi as <- <-.
        simpl. split; [lia|done].
      - destruct Hp as (-> & -> & _). destruct i as [|[|]]; try done. injection Hi as <- <-.
        simpl. split; [lia|done].
      - destruct Hp as [-> ->]. destruct i as [|[|[|]]]; try done; injection Hi as <- <-;
          simpl; (split; [lia|done]). }
    assert (∀ d, dt !! i = Some d → d = 0 ∨ d = 42) as Hdt.
    { intros d Hi. destruct (at_pc p); try done.
      - destruct Hp as [-> ->]. destruct i as [|[|]]; try done. injection Hi as <-. by left.
      - destruct Hp as (-> & _). destruct i as [|[|[|]]]; try done; injection Hi as <-; auto.
      - destruct Hp as [-> _]. destruct i as [|[|[|]]]; try done; injection Hi as <-; auto. }
    destruct q as [[| | |mo0|mo0|] vq]; simpl in *; try done.
    + assert (mo0 = mo) as -> by by apply Hmo.
      assert ((if decide (seen_ready vq ≤ i)%nat
               then match rd !! i with
                    | Some (b, released) =>
                        Some (Memory dt rd,
                              Thread (match b with true => CUse mo | false => CWait mo end)
                                (View (match mo with
                                       | acquire => seen_data vq `max` released
                                       | relaxed => seen_data vq
                                       end) i))
                    | None => None
                    end
               else None) = Some (m', th')) as Ht' by by destruct mo.
      clear Ht. case_decide; [|done].
      destruct (rd !! i) as [[b r]|] eqn:Hi; [|done]. injection Ht' as <- <-.
      destruct (Hrd b r eq_refl) as [Hr Hb].
      eexists p, _. split; [done|]. split; [done|]. unfold consumer_sound. simpl. split.
      * split; [by eapply lookup_lt_Some|]. split; [destruct mo; lia|].
        destruct b; simpl; [by apply Hb|done].
      * intros mo'. unfold order_of. simpl. destruct b; simpl; by intros [= <-].
    + assert (mo0 = mo) as -> by by apply Hmo.
      assert ((if decide (seen_data vq ≤ i)%nat
               then match dt !! i with
                    | Some d => Some (Memory dt rd, Thread (CDone d) (View i (seen_ready vq)))
                    | None => None
                    end
               else None) = Some (m', th')) as Ht' by by destruct mo.
      clear Ht. case_decide; [|done].
      destruct (dt !! i) as [d|] eqn:Hi; [|done]. injection Ht' as <- <-.
      eexists p, _. split; [done|]. split; [done|]. unfold consumer_sound. simpl.
      split; [|done]. split; [done|]. split; [by eapply lookup_lt_Some|]. split; [done|]. by apply Hdt.
Qed.

Lemma sound_inv_run mo tr c : run hstep (init mo) tr = Some c → sound_inv mo c.
Proof.
  intros Hrun.
  eapply (run_invariant hstep (sound_inv mo)); [apply sound_inv_step| |exact Hrun].
  apply sound_inv_init.
Qed.

(** The steps of a consumer that reads the latest writes. *)
Lemma consumer_wait_latest mo m vq r :
  ready m !! 1%nat = Some (true, r) → (seen_ready vq ≤ 1)%nat →
  hstep 1 m (Thread (CWait mo) vq) =
    Some (m, Thread (CUse mo) (View (match mo with
                                     | acquire => seen_data vq `max` r
                                     | relaxed => seen_data vq
                                     end) 1)).
Proof.
  intros Hr Hv. unfold hstep, consumer_correct, consumer_broken, consumer.
  destruct mo; simpl; rewrite decide_True, Hr by done; done.
Qed.

Lemma consumer_use_latest mo m vq d :
  data m !! 1%nat = Some d → (seen_data vq ≤ 1)%nat →
  hstep 1 m (Thread (CUse mo) vq) = Some (m, Thread (CDone d) (View 1 (seen_ready vq))).
Proof.
  intros Hd Hv. unfold hstep, consumer_correct, consumer_broken, consumer.
  destruct mo; simpl; rewrite decide_True, Hd by done; done.
Qed.

Lemma consumer_completes p q :
  consumer_sound (Memory [0; 42] [(false, 0%nat); (true, 1%nat)]) p q →
  ∃ tr c' q' d,
    run hstep (Config (Memory [0; 42] [(false, 0%nat); (true, 1%nat)]) [p; q]) tr = Some c' ∧
    pool c' = [p; q'] ∧ at_pc q' = CDone d.
Proof.
  intros (Hvr & Hvd & Hq). simpl in *. destruct q as [[| | |mo|mo|d] vq]; simpl in *; try done.
  - exists [(1, 1); (1, 1)]%nat. eexists. eexists. exists 42. simpl run. unfold step. simpl.
    rewrite (consumer_wait_latest mo _ vq 1) by (done || lia). simpl.
    rewrite (consumer_use_latest mo _ _ 42); [split; [reflexivity|split; reflexivity]|done|].
    simpl. destruct mo; lia.
  - exists [(1, 1)]%nat. eexists. eexists. exists 42. simpl run. unfold step. simpl.
    rewrite (consumer_use_latest mo _ _ 42) by (done || lia).
    split; [reflexivity|split; reflexivity].
  - exists []. eexists. eexists. exists d. split; [reflexivity|]. split; reflexivity.
Qed.

Lemma handshake_can_finish mo c :
  sound_inv mo c →
  ∃ tr c' p' q' d, run hstep c tr = Some c' ∧ pool c' = [p'; q'] ∧
                   at_pc p' = PDone ∧ at_pc q' = CDone d.
Proof.
  intros (p & q & Hpool & Hp & Hq & _). destruct c as [[dt rd] ths].
  simpl in *. subst ths. unfold producer_ok in Hp. simpl in Hp.
  destruct p as [[| | | | |] vp]; simpl in *; try done.
  - destruct Hp as [-> ->].
    destruct (consumer_completes (Thread PDone (View 1 1)) q) as (tr & c' & q' & d & Hrun & Hp' & Hd).
    { destruct Hq as (Hvr & Hvd & Hq). unfold consumer_sound. simpl in *.
      split; [lia|]. split; [lia|]. destruct (at_pc q); try done. by destruct Hq. }
    exists ([(0, 0); (0, 0)]%nat ++ tr), c', (Thread PDone (View 1 1)), q', d.
    rewrite run_app. split; [exact Hrun|]. done.
  - destruct Hp as (-> & -> & Hv). destruct vp as [sd sr]. simpl in Hv. subst sd.
    destruct (consumer_completes (Thread PDone (View 1 1)) q)
      as (tr & c' & q' & d & Hrun & Hp' & Hd).
    { destruct Hq as (Hvr & Hvd & Hq). unfold consumer_sound. simpl in *.
      split; [lia|]. split; [lia|]. destruct (at_pc q); try done. by destruct Hq. }
    exists ([(0, 0)]%nat ++ tr), c', (Thread PDone (View 1 1)), q', d.
    rewrite run_app. split; [exact Hrun|]. done.
  - destruct Hp as [-> ->].
    destruct (consumer_completes (Thread PDone vp) q) as (tr & c' & q' & d & Hrun & Hp' & Hd);
      [done|].
    by exists tr, c', (Thread PDone vp), q', d.
Qed.

(** X12: the consumer with the relaxed load.  In every run it is past its
    loop only once the producer has returned, and what it then reads from
    [data] is 0 or 42; either can happen: the stale 0 when its load of
    [ready] returned [true] without the producer's view of [data]. *)
Theorem consumer_broken_outcomes :
  (∀ tr c p q, run hstep (init relaxed) tr = Some c → pool c = [p; q] →
     match at_pc q with
     | CUse _ => at_pc p = PDone
     | CDone d => at_pc p = PDone ∧ (d = 0 ∨ d = 42)
     | _ => True
     end) ∧
  (∃ tr c v, run hstep (init relaxed) tr = Some c ∧
             pool c !! 1%nat = Some (Thread (CDone 0) v)) ∧
  (∃ tr c v, run hstep (init relaxed) tr = Some c ∧
             pool c !! 1%nat = Some (Thread (CDone 42) v)).
Proof.
  split; [|split].
  - intros tr c p q Hrun Hpool.
    destruct (sound_inv_run relaxed tr c Hrun) as (p' & q' & Hpool' & _ & (_ & _ & Hq) & _).
    rewrite Hpool in Hpool'. injection Hpool' as <- <-.
    by destruct (at_pc q).
  - exists [(0, 0); (0, 0); (1, 1); (1, 0)]%nat. eexists. eexists. split; reflexivity.
  - exists [(0, 0); (0, 0); (1, 1); (1, 1)]%nat. eexists. eexists. split; reflexivity.
Qed.

Lemma consumer_broken_outcomes_witness :
  run hstep (init relaxed) [(0, 0); (0, 0); (1, 1); (1, 0)]%nat =
    Some (Config (Memory [0; 42] [(false, 0%nat); (true, 1%nat)])
                 [Thread PDone (View 1 1); Thread (CDone 0) (View 0 1)]) ∧
  (0 = 0 ∨ 0 = 42).
Proof.
  split; [reflexivity|].
  exact (proj2 (proj1 consumer_broken_outcomes [(0, 0); (0, 0); (1, 1); (1, 0)]%nat
                  (Config (Memory [0; 42] [(false, 0%nat); (true, 1%nat)])
                     [Thread PDone (View 1 1); Thread (CDone 0) (View 0 1)])
                  (Thread PDone (View 1 1)) (Thread (CDone 0) (View 0 1)) eq_refl eq_refl)).
Defined.

(** X13: the handshake, with either load.  In every run the consumer is
    past its loop only once the producer has made both its writes, in their
    order; and from every configuration that a run reaches, some
    continuation lets the producer return and the consumer read [data]: the
    loop of the consumer can always end. *)
Theorem handshake_completes (mo : memory_order) tr c :
  run hstep (init mo) tr = Some c →
  (∀ p q, pool c = [p; q] →
     match at_pc q with
     | CUse _ | CDone _ =>
         at_pc p = PDone ∧ data (shared c) = [0; 42] ∧
         ready (shared c) = [(false, 0%nat); (true, 1%nat)]
     | _ => True
     end) ∧
  (∃ tr' c' p' q' d, run hstep c tr' = Some c' ∧ pool c' = [p'; q'] ∧
                     at_pc p' = PDone ∧ at_pc q' = CDone d).
Proof.
  intros Hrun. pose proof (sound_inv_run mo tr c Hrun) as Hinv. split.
  - intros p q Hpool. destruct Hinv as (p' & q' & Hpool' & Hp & (_ & _ & Hq) & _).
    rewrite Hpool in Hpool'. injection Hpool' as <- <-.
    unfold producer_ok in Hp.
    destruct (at_pc q); try done.
    + rewrite Hq in Hp. by destruct Hp.
    + destruct Hq as [Hq _]. rewrite Hq in Hp. by destruct Hp.
  - by eapply handshake_can_finish.
Qed.

Lemma handshake_completes_witness :
  run hstep (init acquire) [(1, 0); (0, 0)]%nat =
    Some (Config (Memory [0; 42] [(false, 0%nat)])
                 [Thread PSignal (View 1 0); Thread (CWait acquire) (View 0 0)]) ∧
  ∃ tr' c' p' q' d,
    run hstep (Config (Memory [0; 42] [(false, 0%nat)])
                 [Thread PSignal (View 1 0); Thread (CWait acquire) (View 0 0)]) tr' = Some c' ∧
    pool c' = [p'; q'] ∧ at_pc p' = PDone ∧ at_pc q' = CDone d.
Proof.
  split; [reflexivity|].
  exact (proj2 (handshake_completes acquire [(1, 0); (0, 0)]%nat
                  (Config (Memory [0; 42] [(false, 0%nat)])
                     [Thread PSignal (View 1 0); Thread (CWait acquire) (View 0 0)])
                  eq_refl)).
Defined.

End Handshake.

(** ** The retry loops re-observe *)

Lemma cas_cases {A : Type} `{EqDecision A} (b : bool) (cur expected desired : A) :
  compare_exchange_weak b cur expected desired =
  if decide (cur = expected ∧ b = false) then (desired, expected, true)
  else (cur, cur, false).
Proof.
  unfold compare_exchange_weak.
  destruct (decide (cur = expected)) as [Heq|Hne], b.
  - by rewrite decide_False by (by intros [_ ?]).
  - by rewrite decide_True.
  - by rewrite decide_False by (by intros [? _]).
  - by rewrite decide_False by (by intros [? _]).
Qed.

(** C4: a failed exchange leaves the shared object as it is and puts its
    current content in the variable holding the expected value, and each
    retry loop makes its next attempt from that variable.  For each loop the
    step at the exchange is given in full: it succeeds when the object still
    holds the expected value and the exchange does not fail spuriously, and
    otherwise the worker stays in the loop with the content of the object at
    that moment as [old] (or [old_head]), from which the next proposal is
    computed: [old + 1] for the counters; for [push], the next step links the
    new node to the re-observed head before the exchange is tried again; for
    [pop], the next step reads the successor of the re-observed head.  And in
    every run of a single worker on the stack, whichever exchanges fail
    spuriously, whenever the worker is at an exchange, the node it pushes is
    linked to the head it expects, and the pointer its [pop] proposes is the
    successor of the head it expects. *)
Theorem cas_retry_reobserves :
  (∀ (b : bool) (cur expected desired a e : Z),
     compare_exchange_weak b cur expected desired = (a, e, false) → a = cur ∧ e = cur) ∧
  (∀ (b : bool) (cur expected desired a e : option positive),
     compare_exchange_weak b cur expected desired = (a, e, false) → a = cur ∧ e = cur) ∧
  (∀ M b v i old, old < 100 →
     BoundedCas.worker_cas M b v (BoundedCas.Local i (BoundedCas.Loop old)) =
       Some (if decide (v = old ∧ b = false)
             then (old + 1, BoundedCas.Local (i + 1) BoundedCas.Call)
             else (v, BoundedCas.Local i (BoundedCas.Loop v)))) ∧
  (∀ M b v i old, old < Int32.INT_MAX →
     LockFreeIncrement.worker_lockfree M b v
         (LockFreeIncrement.Local i (LockFreeIncrement.Loop old)) =
       Some (if decide (v = old ∧ b = false)
             then (old + 1, LockFreeIncrement.Local (i + 1) LockFreeIncrement.Call)
             else (v, LockFreeIncrement.Local i (LockFreeIncrement.Loop v)))) ∧
  (∀ M b g i old, old < Int32.INT_MAX →
     Backoff.worker_no_backoff M b g (Backoff.NLocal i (Backoff.NCas old)) =
       Some (if decide (Backoff.counter g = old ∧ b = false)
             then (Backoff.Globals (old + 1) (Backoff.failed_cas_count g),
                   Backoff.NLocal (i + 1) Backoff.NIter)
             else (g, Backoff.NLocal i (Backoff.NFail (Backoff.counter g))))) ∧
  (∀ M b g i old backoff, old < Int32.INT_MAX →
     Backoff.worker_with_backoff M b g (Backoff.BLocal i (Backoff.BCas old backoff)) =
       Some (if decide (Backoff.counter g = old ∧ b = false)
             then (Backoff.Globals (old + 1) (Backoff.failed_cas_count g),
                   Backoff.BLocal (i + 1) Backoff.BIter)
             else (g, Backoff.BLocal i (Backoff.BPause (Backoff.counter g) backoff 0)))) ∧
  (∀ e s td o lg v a old_head,
     Stack.tstep e s (Stack.Local td (Stack.PushCas v a old_head) o lg) =
       Some (if decide (Stack.head s = old_head ∧ Stack.spurious e = false)
             then (Stack.Store (Stack.heap s) (Some a),
                   Stack.Local td Stack.Idle o (lg ++ [Stack.Pushed v]))
             else (s, Stack.Local td (Stack.PushLink v a (Stack.head s)) o lg))) ∧
  (∀ e s td o lg v a old_head n, Stack.heap s !! a = Some n →
     Stack.tstep e s (Stack.Local td (Stack.PushLink v a old_head) o lg) =
       Some (Stack.Store (<[a := Stack.mkNode (Stack.value n) old_head]> (Stack.heap s))
                         (Stack.head s),
             Stack.Local td (Stack.PushCas v a old_head) o lg)) ∧
  (∀ e s td o lg x nx,
     Stack.tstep e s (Stack.Local td (Stack.PopCas x nx) o lg) =
       Some (if decide (Stack.head s = Some x ∧ Stack.spurious e = false)
             then (Stack.Store (Stack.heap s) nx, Stack.Local td (Stack.PopTake x) o lg)
             else (s, Stack.Local td (Stack.PopTest (Stack.head s)) o lg))) ∧
  (∀ e s td o lg y n, Stack.heap s !! y = Some n →
     Stack.tstep e s (Stack.Local td (Stack.PopTest (Some y)) o lg) =
       Some (s, Stack.Local td (Stack.PopCas y (Stack.next n)) o lg)) ∧
  (∀ junk prog tr c l,
     run Stack.tstep (Stack.init [(junk, prog)]) tr = Some c → pool c !! 0%nat = Some l →
     match Stack.at_pc l with
     | Stack.PushCas v a old_head =>
         Stack.heap (shared c) !! a = Some (Stack.mkNode v old_head)
     | Stack.PopCas x nx => ∃ n, Stack.heap (shared c) !! x = Some n ∧ Stack.next n = nx
     | _ => True
     end).
Proof.
  split; [|split]; [by intros b cur ex de a e (? & ? & _)%cas_failure..|].
  split; [|split; [|split; [|split]]].
  - intros M b v i old Hlt.
    unfold BoundedCas.worker_cas, BoundedCas.resume, BoundedCas.bounded_increment. simpl.
    rewrite decide_True, cas_cases by done. by case_decide.
  - intros M b v i old Hlt.
    unfold LockFreeIncrement.worker_lockfree, LockFreeIncrement.resume,
      LockFreeIncrement.lock_free_increment, int_succ. simpl.
    rewrite decide_True by done. simpl. rewrite cas_cases. by case_decide.
  - intros M b g i old Hlt. unfold Backoff.worker_no_backoff, int_succ. simpl.
    rewrite decide_True by done. simpl. rewrite cas_cases. destruct g. by case_decide.
  - intros M b g i old bo Hlt. unfold Backoff.worker_with_backoff, int_succ. simpl.
    rewrite decide_True by done. simpl. rewrite cas_cases. destruct g. by case_decide.
  - split; [|split; [|split; [|split]]].
    + intros e s td o lg v a oh. unfold Stack.tstep, Stack.push, Stack.pop. simpl.
      rewrite cas_cases. destruct s. by case_decide.
    + intros e s td o lg v a oh n Hn. unfold Stack.tstep, Stack.push, Stack.pop. simpl.
      by rewrite Hn.
    + intros e s td o lg x nx. unfold Stack.tstep, Stack.push, Stack.pop. simpl.
      rewrite cas_cases. destruct s. by case_decide.
    + intros e s td o lg y n Hn. unfold Stack.tstep, Stack.push, Stack.pop. simpl.
      by rewrite Hn.
    + intros junk prog tr c l.
      apply (Stack.proposal_from_observation [(junk, prog)] 0).
      by intros [|t] w Hw Hne.
Qed.

(** [bounded_increment] had observed 5 and the counter holds 7: the
    exchange fails and the loop goes on with 7. *)
Lemma cas_retry_reobserves_witness :
  5 < 100 ∧
  BoundedCas.worker_cas 1000000 false 7 (BoundedCas.Local 0 (BoundedCas.Loop 5)) =
    Some (7, BoundedCas.Local 0 (BoundedCas.Loop 7)).
Proof.
  assert (5 < 100) as H by lia. split; [exact H|].
  exact (proj1 (proj2 (proj2 cas_retry_reobserves)) 1000000 false 7 0 5 H).
Defined.

(** ** src/01_mutex.cpp: the counter protected by a mutex

    [counter] is a plain [int]: [++counter] is a read followed by a write,
    two steps of the model.  A thread that calls [lock] on a mutex that is
    held waits: it has no step until the mutex is released. *)

Module Mutex.

(** [mtx], held or not, and [counter]. *)
Record globals := Globals { mtx : bool; counter : Z }.

(** Where a worker stands: at the head of the [for] loop, before the
    constructor of the [lock_guard] locks [mtx]; holding [mtx], before the
    read of [++counter]; before the write of [++counter], [r] being the value
    read; at the end of the loop body, before the destructor of the
    [lock_guard] unlocks [mtx]. *)
Inductive pc := Lock | Read | Write (r : Z) | Unlock.

Record local := Local { iter : Z; at_pc : pc }.

#[global] Instance pc_eq_dec : EqDecision pc.
Proof. solve_decision. Defined.

(** One step of [worker_mutex], [M] being the bound [1'000'000] of its
    [for] loop.  The incremented value is computed on [int]: no step where it
    would overflow. *)
Definition worker_mutex (M : Z) (_ : unit) (g : globals) (l : local)
    : option (globals * local) :=
  match at_pc l with
  | Lock =>
      if decide (iter l < M)
      then (if mtx g then None else Some (Globals true (counter g), Local (iter l) Read))
      else None
  | Read => Some (g, Local (iter l) (Write (counter g)))
  | Write r => v ← int_succ r; Some (Globals (mtx g) v, Local (iter l) Unlock)
  | Unlock => Some (Globals false (counter g), Local (iter l + 1) Lock)
  end.

(** [main]: the mutex is free, the counter is 0 and [N] workers are
    started (4 in the source). *)
Definition init (N : nat) : config := Config (Globals false 0) (replicate N (Local 0 Lock)).

Definition finished (M : Z) (c : @config globals local) : Prop :=
  Forall (λ l, at_pc l = Lock ∧ ¬ iter l < M) (pool c).

(** The worker is in the scope of its [lock_guard]. *)
Definition inside (l : local) : Prop := at_pc l ≠ Lock.

(** At most one worker is in the scope of its [lock_guard]. *)
Definition exclusive (c : @config globals local) : Prop :=
  ∀ t1 t2 l1 l2, pool c !! t1 = Some l1 → pool c !! t2 = Some l2 →
                 inside l1 → inside l2 → t1 = t2.

(** The increments a worker has made. *)
Definition made (l : local) : Z :=
  iter l + match at_pc l with Unlock => 1 | _ => 0 end.

Definition mutex_inv (M : Z) (c : @config globals local) : Prop :=
  counter (shared c) = sumZ (made <$> pool c) ∧
  exclusive c ∧
  (mtx (shared c) = true ↔ ∃ t l, pool c !! t = Some l ∧ inside l) ∧
  Forall (λ l, 0 ≤ iter l ≤ M ∧ (inside l → iter l < M) ∧
               (∀ r, at_pc l = Write r → r = counter (shared c))) (pool c).

Lemma mutex_inv_init M N : 0 ≤ M → mutex_inv M (init N).
Proof.
  intros HM. split; [|split; [|split]]; simpl.
  - rewrite fmap_replicate, sumZ_replicate. unfold made. simpl. lia.
  - intros t1 t2 l1 l2 [-> _]%lookup_replicate _ Hin. by destruct Hin.
  - split; [done|]. intros (t & l & [-> _]%lookup_replicate & Hin). by destruct Hin.
  - apply Forall_replicate. simpl. split; [lia|]. split; [|done]. intros Hin. by destruct Hin.
Qed.

Lemma mutex_inv_step M c e c' :
  mutex_inv M c → step (worker_mutex M) c e = Some c' → mutex_inv M c'.
Proof.
  intros (Hc & Hex & Hm & Hb) (l & g' & l' & Hl & Ht & ->)%step_Some.
  destruct e as [t []]. destruct c as [[m v] ths]. simpl in *.
  assert (t < length ths)%nat as Hlt by by eapply lookup_lt_Some.
  pose proof Hb as Hb0. rewrite Forall_lookup in Hb0. specialize (Hb0 _ _ Hl).
  destruct Hb0 as (Hi & Hin & Hw).
  assert (∀ t2 l2, t2 ≠ t → ths !! t2 = Some l2 → inside l → ¬ inside l2) as Hothers.
  { intros t2 l2 Hne Hl2 H1 H2. apply Hne. by apply (Hex _ _ _ _ Hl2 Hl). }
  unfold mutex_inv. simpl.
  rewrite list_fmap_insert, (sumZ_insert _ _ (made l)) by (by rewrite list_lookup_fmap, Hl).
  rewrite <- Hc. clear Hc.
  unfold worker_mutex in Ht. destruct l as [i [| |r|]]; simpl in *.
  - (* lock *)
    case_decide as Hlt'; [|done]. destruct m; [done|]. injection Ht as <- <-.
    assert (∀ t2 l2, ths !! t2 = Some l2 → ¬ inside l2) as Hnone.
    { intros t2 l2 Hl2 Hin2. assert (false = true) by (apply Hm; eauto). done. }
    split; [unfold made; simpl; lia|]. split; [|split].
    + intros t1 t2 l1 l2 Hl1 Hl2 Hin1 Hin2. simpl in Hl1, Hl2.
      destruct (decide (t1 = t)) as [->|Hne1], (decide (t2 = t)) as [->|Hne2]; [done|..].
      * rewrite list_lookup_insert_ne in Hl2 by done. by destruct (Hnone _ _ Hl2).
      * rewrite list_lookup_insert_ne in Hl1 by done. by destruct (Hnone _ _ Hl1).
      * rewrite list_lookup_insert_ne in Hl1 by done. by destruct (Hnone _ _ Hl1).
    + split; [|done]. intros _. exists t, (Local i Read).
      by rewrite list_lookup_insert_eq.
    + apply Forall_insert; [done|]. simpl. split; [lia|]. done.
  - (* the read *)
    injection Ht as <- <-.
    split; [unfold made; simpl; lia|]. split; [|split].
    + intros t1 t2 l1 l2 Hl1 Hl2 Hin1 Hin2. simpl in Hl1, Hl2.
      destruct (decide (t1 = t)) as [->|Hne1], (decide (t2 = t)) as [->|Hne2]; [done|..].
      * rewrite list_lookup_insert_ne in Hl2 by done. by destruct (Hothers _ _ Hne2 Hl2).
      * rewrite list_lookup_insert_ne in Hl1 by done. by destruct (Hothers _ _ Hne1 Hl1).
      * rewrite list_lookup_insert_ne in Hl1, Hl2 by done. eauto.
    + rewrite Hm. split.
      * intros _. exists t, (Local i (Write v)). by rewrite list_lookup_insert_eq.
      * intros _. by exists t, (Local i Read).
    + apply Forall_insert; [done|]. simpl. split; [lia|]. split; [by intros _; apply Hin|].
      by intros ? [= <-].
  - (* the write *)
    unfold int_succ in Ht. case_decide as Hmax; [|done]. simpl in Ht. injection Ht as <- <-.
    rewrite (Hw r eq_refl) in *.
    split; [unfold made; simpl; lia|]. split; [|split].
    + intros t1 t2 l1 l2 Hl1 Hl2 Hin1 Hin2. simpl in Hl1, Hl2.
      destruct (decide (t1 = t)) as [->|Hne1], (decide (t2 = t)) as [->|Hne2]; [done|..].
      * rewrite list_lookup_insert_ne in Hl2 by done. by destruct (Hothers _ _ Hne2 Hl2).
      * rewrite list_lookup_insert_ne in Hl1 by done. by destruct (Hothers _ _ Hne1 Hl1).
      * rewrite list_lookup_insert_ne in Hl1, Hl2 by done. eauto.
    + rewrite Hm. split.
      * intros _. exists t, (Local i Unlock). by rewrite list_lookup_insert_eq.
      * intros _. by exists t, (Local i (Write v)).
    + rewrite Forall_lookup. intros t2 l2 Hl2. destruct (decide (t2 = t)) as [->|Hne].
      * rewrite list_lookup_insert_eq in Hl2 by done. injection Hl2 as <-. simpl.
        split; [lia|]. split; [by intros _; apply Hin|]. done.
      * rewrite list_lookup_insert_ne in Hl2 by done.
        rewrite Forall_lookup in Hb. destruct (Hb _ _ Hl2) as (? & ? & Hw2).
        split; [done|]. split; [done|]. intros r2 Hr2.
        destruct (Hothers _ _ Hne Hl2); [done|]. unfold inside. by rewrite Hr2.
  - (* unlock *)
    injection Ht as <- <-.
    split; [unfold made; simpl; lia|]. split; [|split].
    + intros t1 t2 l1 l2 Hl1 Hl2 Hin1 Hin2. simpl in Hl1, Hl2.
      destruct (decide (t1 = t)) as [->|Hne1].
      { rewrite list_lookup_insert_eq in Hl1 by done. injection Hl1 as <-. by destruct Hin1. }
      rewrite list_lookup_insert_ne in Hl1 by done. by destruct (Hothers _ _ Hne1 Hl1).
    + split; [done|]. intros (t2 & l2 & Hl2 & Hin2).
      destruct (decide (t2 = t)) as [->|Hne].
      { rewrite list_lookup_insert_eq in Hl2 by done. injection Hl2 as <-. by destruct Hin2. }
      rewrite list_lookup_insert_ne in Hl2 by done. by destruct (Hothers _ _ Hne Hl2).
    + apply Forall_insert; [done|]. simpl. split; [|split; [|done]].
      * assert (i < M) by by apply Hin. lia.
      * intros Hin'. by destruct Hin'.
Qed.

Lemma mutex_inv_run M N tr c :
  0 ≤ M → run (worker_mutex M) (init N) tr = Some c → mutex_inv M c.
Proof.
  intros HM Hrun.
  eapply (run_invariant (worker_mutex M) (mutex_inv M));
    [apply mutex_inv_step|by apply mutex_inv_init|exact Hrun].
Qed.

Lemma mutex_final M N tr c :
  0 ≤ M → run (worker_mutex M) (init N) tr = Some c → finished M c →
  counter (shared c) = Z.of_nat N * M.
Proof.
  intros HM Hrun Hfin. destruct (mutex_inv_run M N tr c HM Hrun) as (Hc & _ & _ & Hb).
  rewrite Hc.
  rewrite <- (length_replicate N (Local 0 Lock)).
  change (replicate N (Local 0 Lock)) with (pool (init N)).
  rewrite <- (run_length _ _ _ _ Hrun), <- (length_fmap made).
  apply sumZ_const. apply Forall_fmap. unfold finished in Hfin.
  rewrite Forall_lookup in Hb, Hfin |- *. intros t l Hl.
  destruct (Hb _ _ Hl) as (? & _). destruct (Hfin _ _ Hl) as [Hpc ?].
  unfold made. simpl. rewrite Hpc. lia.
Qed.

(** One iteration of thread [t] when the mutex is free. *)
Lemma mutex_iteration M t c i :
  pool c !! t = Some (Local i Lock) → i < M →
  mtx (shared c) = false → counter (shared c) < Int32.INT_MAX →
  run (worker_mutex M) c (replicate 4 (t, ())) =
    Some (Config (Globals false (counter (shared c) + 1))
                 (<[t := Local (i + 1) Lock]> (pool c))).
Proof.
  intros Hl Hlt Hm Hmax. destruct c as [[m v] ths]. simpl in *. subst m.
  assert (t < length ths)%nat as Hlen by by eapply lookup_lt_Some.
  assert (∀ g l g' l' ths', ths' !! t = Some l → worker_mutex M () g l = Some (g', l') →
            step (worker_mutex M) (Config g ths') (t, ()) =
              Some (Config g' (<[t := l']> ths'))) as Hstep.
  { intros g l g' l' ths' H1 H2. apply step_Some. by exists l, g', l'. }
  cbn [replicate run].
  erewrite Hstep; [|exact Hl|unfold worker_mutex; cbn [at_pc iter mtx]; by rewrite decide_True].
  cbn [mbind option_bind].
  erewrite Hstep; [|by apply list_lookup_insert_eq|unfold worker_mutex; cbn [at_pc]; done].
  cbn [mbind option_bind]. rewrite list_insert_insert_eq.
  erewrite Hstep; [|by apply list_lookup_insert_eq
                   |unfold worker_mutex, int_succ; cbn [at_pc counter];
                    by rewrite decide_True].
  cbn [mbind option_bind]. rewrite list_insert_insert_eq.
  erewrite Hstep; [|by apply list_lookup_insert_eq|unfold worker_mutex; cbn [at_pc]; done].
  cbn [mbind option_bind iter counter]. by rewrite list_insert_insert_eq.
Qed.

Fixpoint solo (t : nat) (k : nat) : list (nat * unit) :=
  match k with O => [] | S k => replicate 4 (t, ()) ++ solo t k end.

Lemma mutex_solo M t (k : nat) c i :
  pool c !! t = Some (Local i Lock) → i + Z.of_nat k ≤ M →
  mtx (shared c) = false → counter (shared c) + Z.of_nat k ≤ Int32.INT_MAX →
  run (worker_mutex M) c (solo t k) =
    Some (Config (Globals false (counter (shared c) + Z.of_nat k))
                 (<[t := Local (i + Z.of_nat k) Lock]> (pool c))).
Proof.
  revert c i. induction k as [|k IH]; intros c i Hl Hk Hm Hmax.
  - simpl. replace (i + Z.of_nat 0) with i by lia.
    replace (counter (shared c) + Z.of_nat 0) with (counter (shared c)) by lia.
    rewrite list_insert_id by done. destruct c as [[m v] ths]. simpl in *. by subst m.
  - cbn [solo]. rewrite run_app, (mutex_iteration M t c i) by (done || lia).
    cbn [mbind option_bind]. rewrite (IH _ (i + 1)).
    + cbn [pool shared counter]. rewrite list_insert_insert_eq.
      replace (i + 1 + Z.of_nat k) with (i + Z.of_nat (S k)) by lia.
      by replace (counter (shared c) + 1 + Z.of_nat k)
        with (counter (shared c) + Z.of_nat (S k)) by lia.
    + simpl. apply list_lookup_insert_eq. by eapply lookup_lt_Some.
    + lia.
    + done.
    + simpl. lia.
Qed.

Lemma mutex_finish M N :
  0 ≤ M → Z.of_nat N * M ≤ Int32.INT_MAX →
  ∃ tr c, run (worker_mutex M) (init N) tr = Some c ∧ finished M c.
Proof.
  intros HM Hmax.
  apply (run_one_by_one (worker_mutex M) (λ l, l = Local 0 Lock)
           (λ l, at_pc l = Lock ∧ ¬ iter l < M)
           (λ g k, mtx g = false ∧ counter g + Z.of_nat k * M ≤ Int32.INT_MAX))
    with (done_ := []) (todo := replicate N (Local 0 Lock)) (s := Globals false 0);
    [|done| |].
  - intros c t l k Hl -> [Hm HJ].
    assert (0 ≤ Z.of_nat k * M) by lia.
    exists (solo t (Z.to_nat M)), (Globals false (counter (shared c) + Z.of_nat (Z.to_nat M))),
           (Local (0 + Z.of_nat (Z.to_nat M)) Lock).
    split; [apply mutex_solo; [done|lia|done|lia]|].
    split; [split; [done|simpl; lia]|]. simpl. split; [done|lia].
  - by apply Forall_replicate.
  - rewrite length_replicate. simpl. split; [done|lia].
Qed.

(** X14: the mutex makes the increments exclusive.  In every run at most
    one worker is in the scope of its [lock_guard], and when all [N] workers
    of [M] increments have left their loop the counter holds [N * M],
    although [++counter] is a read and a write that other steps can come
    between; some schedule lets them all leave it when [N * M] fits an
    [int]. *)
Theorem worker_mutex_counts (M : Z) (N : nat) :
  0 ≤ M →
  (∀ tr c, run (worker_mutex M) (init N) tr = Some c →
     exclusive c ∧ (finished M c → counter (shared c) = Z.of_nat N * M)) ∧
  (Z.of_nat N * M ≤ Int32.INT_MAX →
   ∃ tr c, run (worker_mutex M) (init N) tr = Some c ∧ finished M c).
Proof.
  intros HM. split.
  - intros tr c Hrun. split.
    + by destruct (mutex_inv_run M N tr c HM Hrun) as (_ & ? & _).
    + by apply (mutex_final M N tr).
  - by apply mutex_finish.
Qed.

Lemma worker_mutex_counts_witness :
  0 ≤ 1000000 ∧
  ∀ tr c, run (worker_mutex 1000000) (init 4) tr = Some c → finished 1000000 c →
          counter (shared c) = 4000000.
Proof.
  assert (0 ≤ 1000000) as HM by lia. split; [exact HM|].
  intros tr c Hrun. exact (proj2 (proj1 (worker_mutex_counts 1000000 4 HM) tr c Hrun)).
Defined.

(** X15: the mutex blocks, and it never deadlocks.  In every configuration
    that the workers reach, a worker that is about to lock has no step
    exactly when another worker is in the scope of its [lock_guard]: it waits
    for that worker; and as long as some worker has not left its loop (and
    the counter is below [Int32.INT_MAX]) some worker has a step. *)
Theorem worker_mutex_blocking (M : Z) (N : nat) tr c :
  0 ≤ M → run (worker_mutex M) (init N) tr = Some c →
  (∀ t i, pool c !! t = Some (Local i Lock) → i < M →
     (step (worker_mutex M) c (t, ()) = None ↔
      ∃ t' l', t' ≠ t ∧ pool c !! t' = Some l' ∧ inside l')) ∧
  (¬ finished M c → counter (shared c) < Int32.INT_MAX →
   ∃ t c', step (worker_mutex M) c (t, ()) = Some c').
Proof.
  intros HM Hrun. destruct (mutex_inv_run M N tr c HM Hrun) as (_ & Hex & Hm & Hb).
  assert (∀ t l g' l', pool c !! t = Some l → worker_mutex M () (shared c) l = Some (g', l') →
            ∃ c', step (worker_mutex M) c (t, ()) = Some c') as Hstep.
  { intros t l g' l' Hl Ht. eexists. apply step_Some. by exists l, g', l'. }
  split.
  - intros t i Hl Hlt.
    assert (step (worker_mutex M) c (t, ()) = None ↔ mtx (shared c) = true) as ->.
    { unfold step. simpl. rewrite Hl. simpl. unfold worker_mutex. simpl.
      rewrite decide_True by done. by destruct (mtx (shared c)). }
    rewrite Hm. split.
    + intros (t' & l' & Hl' & Hin). exists t', l'. split; [|done].
      intros ->. rewrite Hl in Hl'. injection Hl' as <-. by destruct Hin.
    + intros (t' & l' & _ & Hl' & Hin). eauto.
  - intros Hnf Hmax. destruct (mtx (shared c)) eqn:Hmtx.
    + destruct (proj1 Hm eq_refl) as (t & l & Hl & Hin). exists t.
      rewrite Forall_lookup in Hb. destruct (Hb _ _ Hl) as (_ & _ & Hw).
      destruct l as [i [| |r|]]; [by destruct Hin|..].
      * by eapply (Hstep t).
      * eapply (Hstep t); [done|]. unfold worker_mutex, int_succ. simpl.
        rewrite (Hw r eq_refl). by rewrite decide_True.
      * by eapply (Hstep t).
    + apply not_Forall_Exists in Hnf; [|apply _].
      apply list.Exists_exists in Hnf as (l & (t & Hl)%list_elem_of_lookup & Hnot).
      exists t. eapply (Hstep t); [done|].
      assert (at_pc l = Lock) as Hpc.
      { destruct (decide (at_pc l = Lock)) as [|Hne]; [done|].
        assert (false = true) by (apply Hm; by exists t, l). done. }
      assert (iter l < M) as Hlt.
      { destruct (decide (iter l < M)); [done|]. by destruct Hnot. }
      unfold worker_mutex. rewrite Hpc, Hmtx. by rewrite decide_True.
Qed.

(** Worker 0 holds the mutex: worker 1 waits, worker 0 has a step. *)
Lemma worker_mutex_blocking_witness :
  step (worker_mutex 1000000) (Config (Globals true 0) [Local 0 Read; Local 0 Lock]) (1%nat, ())
    = None ∧
  ∃ t c', step (worker_mutex 1000000)
            (Config (Globals true 0) [Local 0 Read; Local 0 Lock]) (t, ()) = Some c'.
Proof.
  assert (0 ≤ 1000000) as HM by lia.
  destruct (worker_mutex_blocking 1000000 2 [(0%nat, ())]
              (Config (Globals true 0) [Local 0 Read; Local 0 Lock]) HM eq_refl)
    as [Hblock Hlive].
  split.
  - apply (Hblock 1%nat 0 eq_refl ltac:(lia)). exists 0%nat, (Local 0 Read).
    split; [done|]. split; [done|]. done.
  - apply Hlive.
    + intros Hfin. apply list.Forall_cons in Hfin as [[Hpc _] _]. done.
    + done.
Defined.

End Mutex.

(** ** src/03_atomic_broken.cpp: two atomics that should change together *)

Module AtomicBroken.

(** The atomics [x] and [y]. *)
Record vars := Vars { x : Z; y : Z }.

(** Where a thread stands.  [writer_thread]: before each of its four
    stores, the first one being at the head of its [for] loop.
    [reader_thread]: at the head of its [for] loop before the load of [x],
    and before the load of [y] with the value read from [x]. *)
Inductive pc :=
| WStoreX1 | WStoreY1 | WStoreX0 | WStoreY0
| RLoadX | RLoadY (val_x : Z).

(** A thread: its loop index, where it stands and, for the reader, the
    variable of [main] it counts in. *)
Record local := Local { iter : Z; at_pc : pc; inconsistent_count : Z }.

(** [writer_thread], [M] being the bound [100'000] of its loop. *)
Definition writer_thread (M : Z) (s : vars) (l : local) : option (vars * local) :=
  match at_pc l with
  | WStoreX1 =>
      if decide (iter l < M)
      then Some (Vars 1 (y s), Local (iter l) WStoreY1 (inconsistent_count l))
      else None
  | WStoreY1 => Some (Vars (x s) 1, Local (iter l) WStoreX0 (inconsistent_count l))
  | WStoreX0 => Some (Vars 0 (y s), Local (iter l) WStoreY0 (inconsistent_count l))
  | WStoreY0 => Some (Vars (x s) 0, Local (iter l + 1) WStoreX1 (inconsistent_count l))
  | _ => None
  end.

(** The test of [reader_thread]: one of the values is 1 and the other 0. *)
Definition inconsistent (val_x val_y : Z) : bool :=
  bool_decide ((val_x = 1 ∧ val_y = 0) ∨ (val_x = 0 ∧ val_y = 1)).

(** [reader_thread]: the load of [y], the test and the increments are one
    step. *)
Definition reader_thread (M : Z) (s : vars) (l : local) : option (vars * local) :=
  match at_pc l with
  | RLoadX =>
      if decide (iter l < M)
      then Some (s, Local (iter l) (RLoadY (x s)) (inconsistent_count l))
      else None
  | RLoadY val_x =>
      Some (s, Local (iter l + 1) RLoadX
                 (if inconsistent val_x (y s)
                  then inconsistent_count l + 1 else inconsistent_count l))
  | _ => None
  end.

Definition tstep (M : Z) (_ : unit) (s : vars) (l : local) : option (vars * local) :=
  match at_pc l with
  | WStoreX1 | WStoreY1 | WStoreX0 | WStoreY0 => writer_thread M s l
  | RLoadX | RLoadY _ => reader_thread M s l
  end.

(** [main]: both atomics hold 0, the count is 0, and the writer and the
    reader are started. *)
Definition init : config := Config (Vars 0 0) [Local 0 WStoreX1 0; Local 0 RLoadX 0].

Definition finished (M : Z) (c : @config vars local) : Prop :=
  Forall (λ l, (at_pc l = WStoreX1 ∨ at_pc l = RLoadX) ∧ ¬ iter l < M) (pool c).

(** The stores made so far determine the atomics. *)
Definition writer_ok (s : vars) (w : local) : Prop :=
  match at_pc w with
  | WStoreX1 => s = Vars 0 0
  | WStoreY1 => s = Vars 1 0
  | WStoreX0 => s = Vars 1 1
  | WStoreY0 => s = Vars 0 1
  | _ => False
  end.

Definition reader_ok (M : Z) (r : local) : Prop :=
  0 ≤ inconsistent_count r ≤ iter r ∧ iter r ≤ M ∧
  match at_pc r with
  | RLoadX => True
  | RLoadY val_x => iter r < M ∧ (val_x = 0 ∨ val_x = 1)
  | _ => False
  end.

Definition broken_inv (M : Z) (c : @config vars local) : Prop :=
  ∃ w r, pool c = [w; r] ∧ writer_ok (shared c) w ∧ reader_ok M r.

Lemma broken_inv_step M c e c' :
  broken_inv M c → step (tstep M) c e = Some c' → broken_inv M c'.
Proof.
  intros (w & r & Hpool & Hw & Hr) (l & s' & l' & Hl & Ht & ->)%step_Some.
  pose proof Hr as (Hn & Hi & Hpc).
  unfold writer_ok in *.
  destruct c as [[vx vy] ths]. destruct e as [[|[|t]] []]; simpl in *; subst ths;
    simpl in Hl; [| |done]; injection Hl as <-; unfold tstep in Ht.
  - destruct w as [i [| | | | |] n]; cbn [at_pc] in *; try done;
      unfold writer_thread in Ht; cbn [at_pc iter x y inconsistent_count] in Ht;
      injection Hw as -> ->.
    + case_decide; [|done]. injection Ht as <- <-. by eexists _, r.
    + injection Ht as <- <-. by eexists _, r.
    + injection Ht as <- <-. by eexists _, r.
    + injection Ht as <- <-. by eexists _, r.
  - destruct r as [i [| | | | |val_x] n]; cbn [at_pc iter inconsistent_count] in *; try done;
      unfold reader_thread in Ht; cbn [at_pc iter x y inconsistent_count] in Ht.
    + case_decide; [|done]. injection Ht as <- <-. eexists w, _.
      split; [done|]. split; [done|]. unfold reader_ok. simpl.
      split; [lia|]. split; [lia|]. split; [done|].
      destruct (at_pc w); try done; injection Hw as -> ->; auto.
    + injection Ht as <- <-. eexists w, _.
      split; [done|]. split; [done|]. unfold reader_ok. simpl.
      destruct (inconsistent val_x vy); lia.
Qed.

Lemma broken_inv_run M tr c : 0 ≤ M → run (tstep M) init tr = Some c → broken_inv M c.
Proof.
  intros HM Hrun.
  eapply (run_invariant (tstep M) (broken_inv M)); [apply broken_inv_step| |exact Hrun].
  exists (Local 0 WStoreX1 0), (Local 0 RLoadX 0). split; [done|]. split; [done|].
  unfold reader_ok. simpl. lia.
Qed.

(** The schedules of [k] iterations: the reader alone, the writer alone,
    and the two together with the reader's loads between the store of 1 to
    [x] and the store of 1 to [y]. *)
Fixpoint reader_alone (k : nat) : list (nat * unit) :=
  match k with O => [] | S k => (1%nat, ()) :: (1%nat, ()) :: reader_alone k end.
Fixpoint writer_alone (k : nat) : list (nat * unit) :=
  match k with O => [] | S k => replicate 4 (0%nat, ()) ++ writer_alone k end.
Fixpoint torn (k : nat) : list (nat * unit) :=
  match k with
  | O => []
  | S k => [(0, ()); (1, ()); (1, ()); (0, ()); (0, ()); (0, ())]%nat ++ torn k
  end.

Lemma step_at M (c : @config vars local) t l s' l' :
  pool c !! t = Some l → tstep M () (shared c) l = Some (s', l') →
  step (tstep M) c (t, ()) = Some (Config s' (<[t := l']> (pool c))).
Proof. intros Hl Ht. apply step_Some. by exists l, s', l'. Qed.

Lemma run_reader_alone M (k : nat) w i n :
  i + Z.of_nat k ≤ M →
  run (tstep M) (Config (Vars 0 0) [w; Local i RLoadX n]) (reader_alone k) =
    Some (Config (Vars 0 0) [w; Local (i + Z.of_nat k) RLoadX n]).
Proof.
  revert i. induction k as [|k IH]; intros i Hk.
  - simpl. by replace (i + Z.of_nat 0) with i by lia.
  - cbn [reader_alone run].
    erewrite step_at; [|reflexivity
      |unfold tstep, reader_thread; cbn [at_pc iter]; by rewrite decide_True by lia].
    cbn [mbind option_bind pool shared iter inconsistent_count x]. simpl (<[_:=_]> _).
    erewrite (step_at M _ 1 _ (Vars 0 0) (Local (i + 1) RLoadX n)); [|reflexivity|reflexivity].
    cbn [mbind option_bind pool]. simpl (<[_:=_]> _). rewrite (IH (i + 1)) by lia.
    by replace (i + 1 + Z.of_nat k) with (i + Z.of_nat (S k)) by lia.
Qed.

Lemma run_writer_alone M (k : nat) r i n :
  i + Z.of_nat k ≤ M →
  run (tstep M) (Config (Vars 0 0) [Local i WStoreX1 n; r]) (writer_alone k) =
    Some (Config (Vars 0 0) [Local (i + Z.of_nat k) WStoreX1 n; r]).
Proof.
  revert i. induction k as [|k IH]; intros i Hk.
  - simpl. by replace (i + Z.of_nat 0) with i by lia.
  - cbn [writer_alone]. rewrite run_app.
    assert (run (tstep M) (Config (Vars 0 0) [Local i WStoreX1 n; r]) (replicate 4 (0%nat, ())) =
            Some (Config (Vars 0 0) [Local (i + 1) WStoreX1 n; r])) as ->.
    { cbn [replicate run].
      erewrite step_at; [|reflexivity
        |unfold tstep, writer_thread; cbn [at_pc iter]; by rewrite decide_True by lia].
      reflexivity. }
    cbn [mbind option_bind]. rewrite (IH (i + 1)) by lia.
    by replace (i + 1 + Z.of_nat k) with (i + Z.of_nat (S k)) by lia.
Qed.

Lemma run_torn M (k : nat) i j n :
  i + Z.of_nat k ≤ M → j + Z.of_nat k ≤ M →
  run (tstep M) (Config (Vars 0 0) [Local i WStoreX1 0; Local j RLoadX n]) (torn k) =
    Some (Config (Vars 0 0)
            [Local (i + Z.of_nat k) WStoreX1 0; Local (j + Z.of_nat k) RLoadX (n + Z.of_nat k)]).
Proof.
  revert i j n. induction k as [|k IH]; intros i j n Hi Hj.
  - simpl. by replace (i + Z.of_nat 0) with i by lia;
      replace (j + Z.of_nat 0) with j by lia; replace (n + Z.of_nat 0) with n by lia.
  - cbn [torn]. rewrite run_app.
    assert (run (tstep M) (Config (Vars 0 0) [Local i WStoreX1 0; Local j RLoadX n])
              [(0, ()); (1, ()); (1, ()); (0, ()); (0, ()); (0, ())]%nat =
            Some (Config (Vars 0 0) [Local (i + 1) WStoreX1 0; Local (j + 1) RLoadX (n + 1)]))
      as ->.
    { cbn [run].
      erewrite step_at; [|reflexivity
        |unfold tstep, writer_thread; cbn [at_pc iter]; by rewrite decide_True by lia].
      cbn [mbind option_bind pool]. simpl (<[_:=_]> _).
      erewrite step_at; [|reflexivity
        |unfold tstep, reader_thread; cbn [at_pc iter]; by rewrite decide_True by lia].
      reflexivity. }
    cbn [mbind option_bind]. rewrite (IH (i + 1) (j + 1) (n + 1)) by lia.
    by replace (i + 1 + Z.of_nat k) with (i + Z.of_nat (S k)) by lia;
      replace (j + 1 + Z.of_nat k) with (j + Z.of_nat (S k)) by lia;
      replace (n + 1 + Z.of_nat k) with (n + Z.of_nat (S k)) by lia.
Qed.

(** X16: atomics do not keep two variables consistent.  In every run of
    the writer and the reader, [x] and [y] are equal only between two
    iterations of the writer, and the count of the reader is between 0 and
    the number of its iterations; both bounds are reached: in some run that
    ends with both threads out of their loops the reader has seen no
    inconsistent pair, and in some other every pair it has seen is
    inconsistent. *)
Theorem atomic_broken_observations (M : Z) :
  0 ≤ M →
  (∀ tr c w r, run (tstep M) init tr = Some c → pool c = [w; r] →
     0 ≤ inconsistent_count r ≤ iter r ∧ iter r ≤ M ∧
     (x (shared c) = y (shared c) ↔ at_pc w = WStoreX1 ∨ at_pc w = WStoreX0)) ∧
  (∃ tr c w r, run (tstep M) init tr = Some c ∧ finished M c ∧ pool c = [w; r] ∧
               inconsistent_count r = 0) ∧
  (∃ tr c w r, run (tstep M) init tr = Some c ∧ finished M c ∧ pool c = [w; r] ∧
               inconsistent_count r = M).
Proof.
  intros HM. split; [|split].
  - intros tr c w r Hrun Hpool.
    destruct (broken_inv_run M tr c HM Hrun) as (w' & r' & Hpool' & Hw & Hn & Hi & _).
    rewrite Hpool in Hpool'. injection Hpool' as <- <-. split; [done|]. split; [done|].
    unfold writer_ok in Hw. destruct (at_pc w); try done; rewrite Hw; simpl;
      split; auto; try done; intros [?|?]; done.
  - exists (reader_alone (Z.to_nat M) ++ writer_alone (Z.to_nat M)).
    exists (Config (Vars 0 0) [Local (0 + Z.of_nat (Z.to_nat M)) WStoreX1 0;
                               Local (0 + Z.of_nat (Z.to_nat M)) RLoadX 0]).
    eexists. eexists. split; [|split; [|split; reflexivity]].
    + unfold init. rewrite run_app, (run_reader_alone M) by lia. cbn [mbind option_bind].
      by rewrite (run_writer_alone M) by lia.
    + repeat constructor; simpl; auto; lia.
  - exists (torn (Z.to_nat M)).
    exists (Config (Vars 0 0) [Local (0 + Z.of_nat (Z.to_nat M)) WStoreX1 0;
                               Local (0 + Z.of_nat (Z.to_nat M)) RLoadX
                                 (0 + Z.of_nat (Z.to_nat M))]).
    eexists. eexists. split; [|split; [|split; [reflexivity|]]].
    + unfold init. by rewrite (run_torn M) by lia.
    + repeat constructor; simpl; auto; lia.
    + simpl. lia.
Qed.

Lemma atomic_broken_observations_witness :
  0 ≤ 100000 ∧
  run (tstep 100000) init [(0, ()); (1, ()); (1, ())]%nat =
    Some (Config (Vars 1 0) [Local 0 WStoreY1 0; Local 1 RLoadX 1]) ∧
  0 ≤ 1 ≤ 1 ∧ 1 ≤ 100000.
Proof.
  assert (0 ≤ 100000) as HM by lia. split; [exact HM|]. split; [reflexivity|].
  destruct (proj1 (atomic_broken_observations 100000 HM) [(0, ()); (1, ()); (1, ())]%nat
              (Config (Vars 1 0) [Local 0 WStoreY1 0; Local 1 RLoadX 1])
              (Local 0 WStoreY1 0) (Local 1 RLoadX 1) eq_refl eq_refl) as (H1 & H2 & _).
  split; [exact H1|exact H2].
Defined.

End AtomicBroken.

(** ** src/08_polling_vs_lockfree.cpp: polling a flag

    The CAS workers of this file ([lockfree_worker]) are those of
    [LockFreeIncrement] with 10'000 calls each.  In the interleaving of
    atomic steps a load of [ready_flag] returns the last value stored. *)

Module Polling.

(** [polling_producer]: before its store, returned.  [polling_consumer]: at
    the load of its [while] loop, returned. *)
Inductive pc := PStore | PDone | CPoll | CDone.

(** A thread: where it stands and, for the consumer, [spin_count]. *)
Record local := Local { at_pc : pc; spin_count : Z }.

(** [polling_producer()]: the store of [true] (the sleep before it changes
    nothing). *)
Definition polling_producer (ready_flag : bool) (l : local) : option (bool * local) :=
  match at_pc l with
  | PStore => Some (true, Local PDone (spin_count l))
  | _ => None
  end.

(** [polling_consumer()]: one load of [ready_flag]; when it returns [false]
    the body of the loop increments [spin_count], an [int]. *)
Definition polling_consumer (ready_flag : bool) (l : local) : option (bool * local) :=
  match at_pc l with
  | CPoll =>
      if ready_flag then Some (ready_flag, Local CDone (spin_count l))
      else n ← int_succ (spin_count l); Some (ready_flag, Local CPoll n)
  | _ => None
  end.

Definition tstep (_ : unit) (ready_flag : bool) (l : local) : option (bool * local) :=
  match at_pc l with
  | PStore | PDone => polling_producer ready_flag l
  | CPoll | CDone => polling_consumer ready_flag l
  end.

(** [main] stores [false] and starts the producer, then the consumer. *)
Definition init : config := Config false [Local PStore 0; Local CPoll 0].

(** The steps of a schedule that come before the first step of thread 0,
    the producer. *)
Fixpoint polls_before_store (tr : list (nat * unit)) : nat :=
  match tr with
  | [] => O
  | e :: tr' => match e.1 with O => O | S _ => S (polls_before_store tr') end
  end.

Lemma run_before_store tr n c q :
  run tstep (Config false [Local PStore 0; Local CPoll n]) tr = Some c →
  pool c !! 1%nat = Some q →
  (at_pc q = CDone →
   spin_count q = n + Z.of_nat (polls_before_store tr) ∧ shared c = true ∧
   pool c !! 0%nat = Some (Local PDone 0)) ∧
  (at_pc q = CPoll ∨ at_pc q = CDone).
Proof.
  revert n. induction tr as [|[[|[|t]] []] tr IH]; intros n.
  - simpl. intros [= <-] [= <-]. split; [done|]. by left.
  - cbn [run]. unfold step. simpl. intros Hrun Hq.
    destruct tr as [|[[|[|t]] []] tr]; simpl in Hrun; try done.
    + injection Hrun as <-. injection Hq as <-. split; [done|]. by left.
    + destruct tr as [|[[|[|t]] []] tr]; simpl in Hrun; try done.
      injection Hrun as <-. injection Hq as <-. simpl. split; [|by right].
      intros _. split; [lia|done].
  - cbn [run]. unfold step. cbn -[int_succ run polls_before_store].
    unfold int_succ. case_decide as Hmax; [|done]. cbn -[run polls_before_store].
    intros Hrun Hq. destruct (IH (n + 1) Hrun Hq) as [Hd Hpc]. split; [|done].
    intros Hdone. destruct (Hd Hdone) as (-> & ? & ?). split; [|done].
    cbn [polls_before_store fst]. lia.
  - done.
Qed.

(** The consumer polling [k] times before the producer stores. *)
Definition spin (k : nat) : list (nat * unit) :=
  replicate k (1%nat, ()) ++ [(0%nat, ()); (1%nat, ())].

Lemma run_spin (k : nat) n :
  n + Z.of_nat k ≤ Int32.INT_MAX →
  run tstep (Config false [Local PStore 0; Local CPoll n]) (spin k) =
    Some (Config true [Local PDone 0; Local CDone (n + Z.of_nat k)]).
Proof.
  revert n. induction k as [|k IH]; intros n Hk.
  - replace (n + Z.of_nat 0) with n by lia. reflexivity.
  - unfold spin. cbn [replicate app run]. unfold step at 1. cbn -[int_succ run].
    unfold int_succ. rewrite decide_True by lia. cbn -[run].
    fold (spin k). rewrite (IH (n + 1)) by lia.
    by replace (n + 1 + Z.of_nat k) with (n + Z.of_nat (S k)) by lia.
Qed.

(** X17: polling.  In every run the consumer returns only after the store
    of the producer, and the [spin_count] it reports is the number of loads
    it has made before that store; a load never changes the flag; and the
    wait has no bound: for every [k] that an [int] holds, some run makes the
    consumer spin [k] times. *)
Theorem polling_spin_count :
  (∀ tr c q, run tstep init tr = Some c → pool c !! 1%nat = Some q → at_pc q = CDone →
     spin_count q = Z.of_nat (polls_before_store tr) ∧ shared c = true ∧
     pool c !! 0%nat = Some (Local PDone 0)) ∧
  (∀ b l b' l', polling_consumer b l = Some (b', l') → b' = b) ∧
  (∀ k : nat, Z.of_nat k ≤ Int32.INT_MAX →
     ∃ tr c, run tstep init tr = Some c ∧
             pool c !! 1%nat = Some (Local CDone (Z.of_nat k))).
Proof.
  split; [|split].
  - intros tr c q Hrun Hq Hd.
    destruct (run_before_store tr 0 c q Hrun Hq) as [H _]. by apply H.
  - intros b l b' l'. unfold polling_consumer. destruct (at_pc l); try done.
    destruct b; [by intros [= <- _]|].
    destruct (int_succ (spin_count l)); simpl; [|done]. by intros [= <- _].
  - intros k Hk. exists (spin k). eexists. split; [apply (run_spin k 0); lia|]. done.
Qed.

Lemma polling_spin_count_witness :
  run tstep init [(1, ()); (1, ()); (0, ()); (1, ())]%nat =
    Some (Config true [Local PDone 0; Local CDone 2]) ∧
  2 = Z.of_nat (polls_before_store [(1, ()); (1, ()); (0, ()); (1, ())]%nat).
Proof.
  split; [reflexivity|].
  exact (proj1 (proj1 polling_spin_count [(1, ()); (1, ()); (0, ()); (1, ())]%nat
                  (Config true [Local PDone 0; Local CDone 2]) (Local CDone 2)
                  eq_refl eq_refl eq_refl)).
Defined.

End Polling.
